(** * TODOtoNOTION: the reconciliation engine, embedded and verified

    A shallow embedding of the marker extractor ([todoParser.js], [utils.js]),
    the stamper ([todoSync.js], [injectTodoIds]), the push pass
    ([notionTodo.js], [notionDatabase.js]), the pull pass ([todoSync.js],
    [reconcileNotionToCode]), the credentials ([notionCredentials.js],
    [notion.js]), the save handler ([todoSync.js], [syncTodosOnSave]) and
    the listeners of [commandHandler.js], followed by the properties of the
    specification stated against them and by further properties of the
    code, numbered X1 and up.

    JavaScript strings are sequences of UTF-16 code units; a code unit is an
    [N].  A plain object used as a dictionary is the finite map ([gmap]) of
    its own properties when the code only reads and writes it by key, and
    the list of its own properties in the order of their creation
    ([jsobj]) when the code enumerates its keys; a read by key also sees
    the members inherited from [Object.prototype]. *)

From Stdlib Require Import NArith ZArith Ascii Sorted.
From stdpp Require Import gmap strings list fin_maps.

Open Scope N_scope.


(** * Part I. The embedding *)

(** ** Strings *)

Abbreviation jstr := (list N).

Fixpoint lit (s : string) : jstr :=
  match s with
  | EmptyString => []
  | String a r => N_of_ascii a :: lit r
  end.

(** [\s] of a regular expression and the set removed by [trim] and [trimEnd]:
    WhiteSpace and LineTerminator of ECMAScript. *)
Definition is_space (c : N) : bool :=
  (c =? 9) || (c =? 10) || (c =? 11) || (c =? 12) || (c =? 13) || (c =? 32)
  || (c =? 160) || (c =? 5760) || ((8192 <=? c) && (c <=? 8202))
  || (c =? 8232) || (c =? 8233) || (c =? 8239) || (c =? 8287)
  || (c =? 12288) || (c =? 65279).

(** Canonicalisation of the [i] flag (no [u] flag): only ASCII letters fold
    onto ASCII letters. *)
Definition upcase (c : N) : N :=
  if (97 <=? c) && (c <=? 122) then c - 32 else c.

(** [[a-z0-9-]] under the [i] flag. *)
Definition is_tok (c : N) : bool :=
  let u := upcase c in
  ((65 <=? u) && (u <=? 90)) || ((48 <=? u) && (u <=? 57)) || (u =? 45).

Fixpoint span (p : N → bool) (s : jstr) : jstr * jstr :=
  match s with
  | [] => ([], [])
  | c :: r => if p c then let '(a, b) := span p r in (c :: a, b) else ([], s)
  end.

Definition trimStart (s : jstr) : jstr := snd (span is_space s).

Fixpoint trimEnd (s : jstr) : jstr :=
  match s with
  | [] => []
  | c :: r =>
      match trimEnd r with
      | [] => if is_space c then [] else [c]
      | r' => c :: r'
      end
  end.

Definition trim (s : jstr) : jstr := trimEnd (trimStart s).

(** A pattern of upper-case ASCII characters matched at the head of [s]
    under the [i] flag; the rest of [s] on success. *)
Fixpoint ci_prefix (p s : jstr) : option jstr :=
  match p, s with
  | [], _ => Some s
  | a :: p', c :: s' => if upcase c =? a then ci_prefix p' s' else None
  | _ :: _, [] => None
  end.

(** ** utils.js *)

(** [Math.random() * 16 | 0] is drawn from a source [rnd]; the [k]-th draw
    is [rnd k mod 16]. *)
Definition hexdigit (v : N) : N := if v <? 10 then 48 + v else 87 + v.

Fixpoint fill_template (tpl : jstr) (rnd : nat → N) (k : nat) : jstr * nat :=
  match tpl with
  | [] => ([], k)
  | c :: tpl' =>
      if c =? 120 then
        let r := rnd k mod 16 in
        let '(o, k') := fill_template tpl' rnd (S k) in (hexdigit r :: o, k')
      else if c =? 121 then
        let r := rnd k mod 16 in
        let v := N.lor (N.land r 3) 8 in
        let '(o, k') := fill_template tpl' rnd (S k) in (hexdigit v :: o, k')
      else
        let '(o, k') := fill_template tpl' rnd k in (c :: o, k')
  end.

Definition generateRandomId (rnd : nat → N) (k : nat) : jstr * nat :=
  fill_template (lit "xxxxxxxx-xxxx-4xxx-yxxx-xxxxxxxxxxxx") rnd k.

Inductive tag := TODO | FIXME | BUG | HACK | XXX.

Definition tag_name (t : tag) : jstr :=
  match t with
  | TODO => lit "TODO"
  | FIXME => lit "FIXME"
  | BUG => lit "BUG"
  | HACK => lit "HACK"
  | XXX => lit "XXX"
  end.

(** The alternation [(TODO|FIXME|BUG|HACK|XXX)] at the head of [s]. *)
Definition tag_at (s : jstr) : option (tag * jstr) :=
  match ci_prefix (tag_name TODO) s with
  | Some r => Some (TODO, r)
  | None =>
  match ci_prefix (tag_name FIXME) s with
  | Some r => Some (FIXME, r)
  | None =>
  match ci_prefix (tag_name BUG) s with
  | Some r => Some (BUG, r)
  | None =>
  match ci_prefix (tag_name HACK) s with
  | Some r => Some (HACK, r)
  | None =>
  match ci_prefix (tag_name XXX) s with
  | Some r => Some (XXX, r)
  | None => None
  end end end end end.

(** [//\s*(TODO|FIXME|BUG|HACK|XXX)] at the head of [s]: the tag and what
    follows it.  [\s*] is greedy and a tag starts with a letter, so taking
    all the white space is the only way to match. *)
Definition marker_at (s : jstr) : option (tag * jstr) :=
  match s with
  | c0 :: c1 :: r =>
      if (c0 =? 47) && (c1 =? 47) then tag_at (trimStart r) else None
  | _ => None
  end.

(** [getTodoRegex().exec(s)]: the leftmost match, as the offset of its
    [//], its tag and the text after the tag and the final [\s*]. *)
Fixpoint todoRegex_exec (s : jstr) : option (nat * tag * jstr) :=
  match marker_at s with
  | Some (t, r) => Some (0%nat, t, trimStart r)
  | None =>
      match s with
      | [] => None
      | _ :: s' =>
          match todoRegex_exec s' with
          | Some (i, t, r) => Some (S i, t, r)
          | None => None
          end
      end
  end.

(** ** todoParser.js: parseTodos *)

(** [\[id:([a-z0-9-]+)\]] at the head of [s] (flag [i]): the token and
    what follows the closing bracket.  The token is the longest run of
    token characters: [\]] is not one of them. *)
Definition annot_at (s : jstr) : option (jstr * jstr) :=
  match s with
  | c0 :: c1 :: c2 :: c3 :: r =>
      if (c0 =? 91) && (upcase c1 =? 73) && (upcase c2 =? 68) && (c3 =? 58)
      then
        match span is_tok r with
        | ((_ :: _) as tok, c :: r') => if c =? 93 then Some (tok, r') else None
        | _ => None
        end
      else None
  | _ => None
  end.

(** [lineText.match(idRegex)]: capture group 1 of the leftmost match. *)
Fixpoint idRegex_match (s : jstr) : option jstr :=
  match annot_at s with
  | Some (tok, _) => Some tok
  | None =>
      match s with
      | [] => None
      | _ :: s' => idRegex_match s'
      end
  end.

(** [s.replace(idPartRegex, '')]: the leftmost annotation removed. *)
Fixpoint remove_idPart (s : jstr) : jstr :=
  match annot_at s with
  | Some (_, r) => r
  | None =>
      match s with
      | [] => []
      | c :: s' => c :: remove_idPart s'
      end
  end.

(** [s.replace(todoPrefixRegex, '')] for
    [//\s*(TODO|FIXME|BUG|HACK|XXX)\s*[:\s]*]. *)
Fixpoint remove_todoPrefix (s : jstr) : jstr :=
  match marker_at s with
  | Some (_, r) => snd (span (λ c, is_space c || (c =? 58)) r)
  | None =>
      match s with
      | [] => []
      | c :: s' => c :: remove_todoPrefix s'
      end
  end.

Record todo := mkTodo {
  todo_text : jstr;
  todo_type : jstr;
  todo_status : jstr;
  todo_filePath : jstr;
  todo_lineNumber : nat;
  todo_line : nat;
  todo_column : nat;
  todo_id : jstr
}.

Record document := mkDocument {
  doc_uri : jstr;
  doc_scheme : jstr;
  doc_fsPath : jstr;
  doc_lines : list jstr
}.

Definition maxTodos : nat := 50.

(** The body of the loop of [parseTodos] for line [i]: [None] when the line
    is skipped by [continue], else the record and the next draw. *)
Definition parseLine (fsPath : jstr) (rnd : nat → N) (k : nat)
    (i : nat) (lineText : jstr) : option (todo * nat) :=
  match todoRegex_exec lineText with
  | None => None
  | Some (_, tg, _) =>
      let idMatch := idRegex_match lineText in
      let type := tag_name tg in
      let todoText := trim (remove_idPart (trim (remove_todoPrefix (trim lineText)))) in
      let '(todoId, k') :=
        match idMatch with
        | Some tok => (tok, k)
        | None => generateRandomId rnd k
        end in
      Some (mkTodo todoText type (lit "Not started") fsPath (S i) i 0 todoId, k')
  end.

Fixpoint parse_loop (fsPath : jstr) (rnd : nat → N) (k : nat) (i : nat)
    (ls : list jstr) (todos : list todo) : list todo * nat :=
  match ls with
  | [] => (todos, k)
  | lineText :: ls' =>
      if (length todos <? maxTodos)%nat then
        match parseLine fsPath rnd k i lineText with
        | None => parse_loop fsPath rnd k (S i) ls' todos
        | Some (t, k') => parse_loop fsPath rnd k' (S i) ls' (todos ++ [t])
        end
      else (todos, k)
  end.

Definition parseTodos (rnd : nat → N) (k : nat) (d : document) : list todo * nat :=
  parse_loop (doc_fsPath d) rnd k 0 (doc_lines d) [].

(** ** todoSync.js: injectTodoIds *)

(** [\s*\[id:[a-z0-9-]+\]$] at the head of [s] (flag [i], no [m] flag). *)
Definition trailing_annot_at (s : jstr) : bool :=
  match annot_at (trimStart s) with
  | Some (_, []) => true
  | _ => false
  end.

(** [s.replace(/\s*\[id:[a-z0-9-]+\]$/i, '')]. *)
Fixpoint strip_trailing_id (s : jstr) : jstr :=
  if trailing_annot_at s then []
  else
    match s with
    | [] => []
    | c :: s' => c :: strip_trailing_id s'
    end.

Definition newLineText (lineText todoId : jstr) : jstr :=
  trimEnd (strip_trailing_id lineText) ++ lit " [id:" ++ todoId ++ lit "]".

(** The edit that [injectTodoIds] schedules for one record, if any. *)
Definition inject_edit (lineText todoId : jstr) : option jstr :=
  let n := newLineText lineText todoId in
  if decide (lineText = n) then None else Some n.

(** The callback of [todos.forEach] in [injectTodoIds]: [lines] is the
    document before the edit, where every replacement reads its line. *)
Definition inject_step (lines : list jstr) (ls : list jstr) (t : todo) : list jstr :=
  match lines !! todo_line t with
  | Some lineText =>
      match inject_edit lineText (todo_id t) with
      | Some n => <[todo_line t := n]> ls
      | None => ls
      end
  | None => ls
  end.

(** The lines of the document after the edit of [injectTodoIds]. *)
Definition injectTodoIds (lines : list jstr) (todos : list todo) : list jstr :=
  foldl (inject_step lines) lines todos.

(** One save: extraction, then injection. *)
Definition stampDocument (rnd : nat → N) (k : nat) (d : document) : document :=
  mkDocument (doc_uri d) (doc_scheme d) (doc_fsPath d)
    (injectTodoIds (doc_lines d) (parseTodos rnd k d).1).

(** The records that [parse_loop] adds to [count] earlier ones. *)
Fixpoint records_from (fsPath : jstr) (rnd : nat → N) (k : nat) (i count : nat)
    (ls : list jstr) : list todo :=
  match ls with
  | [] => []
  | l :: rest =>
      if (count <? maxTodos)%nat then
        match parseLine fsPath rnd k i l with
        | None => records_from fsPath rnd k (S i) count rest
        | Some (t, k') => t :: records_from fsPath rnd k' (S i) (S count) rest
        end
      else []
  end.

(** The lines from [i] on after one stamping, [count] records being found
    before them. *)
Fixpoint stamp_lines (fsPath : jstr) (rnd : nat → N) (k : nat) (i count : nat)
    (ls : list jstr) : list jstr :=
  match ls with
  | [] => []
  | l :: rest =>
      if (count <? maxTodos)%nat then
        match parseLine fsPath rnd k i l with
        | None => l :: stamp_lines fsPath rnd k (S i) count rest
        | Some (t, k') =>
            newLineText l (todo_id t) :: stamp_lines fsPath rnd k' (S i) (S count) rest
        end
      else ls
  end.

Definition zero_rnd : nat → N := λ _, 0.

(** ** Predicates on lines, for the statements about the extractor *)

(** A string that may follow a prefix without creating or destroying an
    annotation that starts inside the prefix. *)
Definition neutral_head (x : jstr) : Prop :=
  match x with
  | [] => True
  | h :: _ => is_tok h = false ∧ h ≠ 93 ∧ h ≠ 58
  end.

(** [z] is one complete annotation [[id:tok]], the letters of [id] in either
    case. *)
Definition is_annotation (z : jstr) (tok : jstr) : Prop :=
  ∃ c1 c2, z = 91 :: c1 :: c2 :: 58 :: tok ++ [93] ∧
    upcase c1 = 73 ∧ upcase c2 = 68 ∧ tok ≠ [] ∧
    Forall (λ c, is_tok c = true) tok.

(** What [strip_trailing_id] and [trimEnd] remove from the end of a line, and
    what [newLineText] appends: white space, then at most one complete
    annotation. *)
Definition soft (x : jstr) : Prop :=
  ∃ ws z, x = ws ++ z ∧ Forall (λ c, is_space c = true) ws ∧
    (z = [] ∨ ∃ tok, is_annotation z tok).

(** The characters of a token: ASCII letters of either case, digits and the
    hyphen. *)
Definition token_char (c : N) : Prop :=
  97 <= c <= 122 ∨ 65 <= c <= 90 ∨ 48 <= c <= 57 ∨ c = 45.

(** An annotation [[id:tok]] starts at offset [n] of [line]; the letters of
    [id] may be in either case. *)
Definition occurs_at (line : jstr) (n : nat) (tok : jstr) : Prop :=
  ∃ pre c1 c2 post,
    line = pre ++ 91 :: c1 :: c2 :: 58 :: tok ++ 93 :: post ∧
    length pre = n ∧ (c1 = 105 ∨ c1 = 73) ∧ (c2 = 100 ∨ c2 = 68) ∧
    tok ≠ [] ∧ Forall token_char tok.

(** From the specification's words: lowercase hex digits and hyphens. *)
Definition spec_token_char (c : N) : bool :=
  ((48 <=? c) && (c <=? 57)) || ((97 <=? c) && (c <=? 102)) || (c =? 45).

(** ** Plain objects *)

(** An object created by [{}] inherits the members of [Object.prototype].
    A read [o[k]] of a key that is no own property yields the inherited
    member when [k] names one (a function, and the prototype itself for
    [__proto__]), and [undefined] otherwise.  An assignment [o[k] = v]
    creates or overwrites an own property, except for the key [__proto__]:
    it runs the inherited setter, which replaces the prototype when [v] is
    an object and does nothing when [v] is a string. *)
Definition proto_members : list jstr :=
  [lit "constructor"; lit "__defineGetter__"; lit "__defineSetter__";
   lit "hasOwnProperty"; lit "__lookupGetter__"; lit "__lookupSetter__";
   lit "isPrototypeOf"; lit "propertyIsEnumerable"; lit "toString";
   lit "valueOf"; lit "__proto__"; lit "toLocaleString"].

Definition proto_member (k : jstr) : bool := bool_decide (k ∈ proto_members).

(** The key of the accessor through which an object reads and replaces
    its prototype. *)
Definition proto_key : jstr := lit "__proto__".

Arguments proto_key : simpl never.

(** The text of an inherited member where it is used as a property key:
    [String(Object.prototype)] and the source text that V8 gives for a
    built-in function ([Object.prototype.constructor] is [Object]). *)
Definition inherited_text (name : jstr) : jstr :=
  if bool_decide (name = proto_key) then lit "[object Object]"
  else
    lit "function "
    ++ (if bool_decide (name = lit "constructor") then lit "Object" else name)
    ++ lit "() { [native code] }".

(** The own properties of an object whose keys the code enumerates, in the
    order of their creation.  No key occurs twice in an object built from
    [{}] by assignments. *)
Record jsobj (V : Type) := JsObj { own : list (jstr * V) }.

Arguments JsObj {V} own.

Arguments own {V} _.

Fixpoint assoc {V} (l : list (jstr * V)) (k : jstr) : option V :=
  match l with
  | [] => None
  | (k', v) :: rest => if decide (k' = k) then Some v else assoc rest k
  end.

(** [o[k]] for an own property. *)
Global Instance jsobj_lookup {V} : Lookup jstr V (jsobj V) :=
  λ k o, assoc (own o) k.

(** [{}]. *)
Global Instance jsobj_empty {V} : Empty (jsobj V) := JsObj [].

Fixpoint assoc_set {V} (l : list (jstr * V)) (k : jstr) (v : V)
    : list (jstr * V) :=
  match l with
  | [] => [(k, v)]
  | (k', v') :: rest =>
      if decide (k' = k) then (k, v) :: rest else (k', v') :: assoc_set rest k v
  end.

(** [o[k] = v] for a value [v] that is an object: an existing property
    keeps its place, a new one comes last, and [o.__proto__ = v] replaces
    the prototype, which leaves the own properties as they are (the code
    reads such an object by its own keys only). *)
Definition obj_set {V} (o : jsobj V) (k : jstr) (v : V) : jsobj V :=
  if bool_decide (k = proto_key) then o else JsObj (assoc_set (own o) k v).

(** An array index: the canonical decimal text of an integer below
    [2^32 - 1]. *)
Definition digit_value (c : N) : option N :=
  if (48 <=? c) && (c <=? 57) then Some (c - 48) else None.

Fixpoint decimal_value (acc : N) (s : jstr) : option N :=
  match s with
  | [] => Some acc
  | c :: rest =>
      match digit_value c with
      | Some d => decimal_value (10 * acc + d) rest
      | None => None
      end
  end.

Definition array_index (k : jstr) : option N :=
  match k with
  | [] => None
  | c :: rest =>
      if (c =? 48) && negb (bool_decide (rest = [])) then None
      else
        match decimal_value 0 k with
        | Some n => if n <=? 4294967294 then Some n else None
        | None => None
        end
  end.

Fixpoint insert_by_index (e : N * jstr) (l : list (N * jstr)) : list (N * jstr) :=
  match l with
  | [] => [e]
  | e' :: rest =>
      if e.1 <? e'.1 then e :: l else e' :: insert_by_index e rest
  end.

(** [Object.keys(o)]: the array indices in ascending order, then the other
    keys in the order of their creation. *)
Definition obj_keys {V} (o : jsobj V) : list jstr :=
  let keys := (own o).*1 in
  (foldr insert_by_index []
     (omap (λ k, (λ n, (n, k)) <$> array_index k) keys)).*2
  ++ filter (λ k, array_index k = None) keys.

(** The keys of [Object.keys(o)], each with [o[k]]. *)
Definition obj_entries {V} (o : jsobj V) : list (jstr * V) :=
  omap (λ k, (λ v, (k, v)) <$> o !! k) (obj_keys o).

(** ** notionDatabase.js and notionTodo.js: the push pass *)

(** JavaScript truthiness of a string; a missing value is falsy like the
    empty string. *)
Definition truthy (s : jstr) : bool :=
  match s with [] => false | _ => true end.

Record credentials := mkCredentials {
  token : jstr;
  databaseId : jstr
}.

(** A page of the database, as the guarded accesses of [fetchNotionState]
    see it: each field is what the access path yields, when it exists. *)
Record page := mkPage {
  page_id : jstr;
  page_Name : option jstr;
  page_TODO_ID : option jstr;
  page_FilePath : option jstr;
  page_LineNumber : option Z;
  page_Type : option jstr;
  page_Status : option jstr
}.

Record task := mkTask {
  task_id : jstr;
  task_customId : jstr;
  task_text : jstr;
  task_filePath : jstr;
  task_lineNumber : option Z;
  task_type : jstr;
  task_status : jstr
}.

(** The properties sent with [pages.create] and [pages.update]; the line
    number is sent as the text [String(lineNumber)]. *)
Record properties := mkProperties {
  prop_Name : jstr;
  prop_Type : jstr;
  prop_Status : jstr;
  prop_FilePath : option jstr;
  prop_LineNumber : option nat;
  prop_TODO_ID : option jstr
}.

(** The value passed as [page_id]: the source passes a page identifier,
    from the cache a record, or the member of [Object.prototype] that
    [customIdToPageId] inherits under the identifier of a record. *)
Inductive pageRef :=
  | PageKey (k : jstr)
  | TodoObject (t : todo)
  | Inherited (name : jstr).

(** The property key that a value is converted to (line 359). *)
Definition key_text (ref : pageRef) : jstr :=
  match ref with
  | PageKey k => k
  | TodoObject _ => lit "[object Object]"
  | Inherited name => inherited_text name
  end.

Inductive updateBody :=
  | SetProperties (p : properties)
  | SetArchived (archived : bool).

(** The calls of the Notion client. *)
Inductive request :=
  | DatabasesQuery (database_id : jstr)
  | DatabasesRetrieve (database_id : jstr)
  | PagesCreate (database_id : jstr) (p : properties)
  | PagesUpdate (page_id : pageRef) (body : updateBody).

Inductive response :=
  | Failed (message : jstr)
  | QueryResults (results : list page)
  | DatabaseObject (schema : gmap jstr jstr)
  | PageObject (id : jstr).

(** What a pass leaves behind: the calls of [createTodo], [updateTodo] and
    [deleteTodo], the two debug lines that name a decision without a call
    (lines 389 and 411 of notionTodo.js), and the calls of the client. *)
Inductive event :=
  | createTodo_called (t : todo)
  | updateTodo_called (todoId : pageRef) (updates : todo)
  | deleteTodo_called (todoId : pageRef)
  | debug_no_changes (t : todo)
  | debug_marked_for_deletion (notionPageId : pageRef) (cachedId : jstr)
  | client_call (r : request).

Record syncResult := mkSyncResult {
  created : list todo;
  updated : list todo;
  deleted : list pageRef
}.

Definition page_to_task (p : page) : task :=
  mkTask (page_id p)
    (default [] (page_TODO_ID p))
    (default (lit "Untitled Task") (page_Name p))
    (default [] (page_FilePath p))
    (page_LineNumber p)
    (default [] (page_Type p))
    (default [] (page_Status p)).

Definition or_else (s d : jstr) : jstr := if truthy s then s else d.

Definition schema_has (schema : gmap jstr jstr) (name : jstr) : bool :=
  match schema !! name with
  | Some ty => truthy ty
  | None => false
  end.

(** The properties built by [createTodo] and [updateTodo]. *)
Definition build_properties (dbProperties : option (gmap jstr jstr)) (t : todo)
    : properties :=
  let essential :=
    mkProperties (todo_text t) (or_else (todo_type t) (lit "TODO"))
      (or_else (todo_status t) (lit "Not started")) None None None in
  match dbProperties with
  | None => essential
  | Some s =>
      mkProperties (prop_Name essential) (prop_Type essential) (prop_Status essential)
        (if schema_has s (lit "File Path") && truthy (todo_filePath t)
         then Some (todo_filePath t) else None)
        (if schema_has s (lit "Line Number") then Some (todo_lineNumber t) else None)
        (if schema_has s (lit "TODO_ID") && truthy (todo_id t)
         then Some (todo_id t) else None)
  end.

Definition needsUpdate (notionTask : task) (t : todo) : bool :=
  negb (bool_decide (task_text notionTask = todo_text t))
  || negb (bool_decide (task_filePath notionTask = todo_filePath t))
  || negb (bool_decide (task_lineNumber notionTask = Some (Z.of_nat (todo_lineNumber t))))
  || negb (bool_decide (task_type notionTask = todo_type t))
  || negb (bool_decide (task_status notionTask = todo_status t)).

(** The two lookup tables built from the fetched tasks (lines 336 to 343):
    the own properties of each.  The assignment of a page id, a string, to
    [customIdToPageId.__proto__] does nothing.  In [notionTaskByPageId] the
    task assigned to [__proto__] becomes the prototype and is what a read
    of [__proto__] yields, as for an own property; the table is read at
    page ids that were assigned and at the text of an inherited member,
    which names no field of a task. *)
Definition index_tasks (notionTasks : list task)
    : gmap jstr jstr * gmap jstr task :=
  foldl (λ '(customIdToPageId, notionTaskByPageId) tk,
           (if truthy (task_customId tk)
               && negb (bool_decide (task_customId tk = proto_key))
            then <[task_customId tk := task_id tk]> customIdToPageId
            else customIdToPageId,
            <[task_id tk := tk]> notionTaskByPageId))
    (∅, ∅) notionTasks.

(** [customIdToPageId[id]] where the source tests it for truthiness (lines
    353 and 407): the value when it is truthy.  An own property is a page
    id; without one, an identifier that names a member of
    [Object.prototype] yields that member, which is truthy. *)
Definition lookup_truthy (m : gmap jstr jstr) (k : jstr) : option pageRef :=
  match m !! k with
  | Some v => if truthy v then Some (PageKey v) else None
  | None => if proto_member k then Some (Inherited k) else None
  end.

(** Whether line 363 throws for a record: the value found for its
    identifier is truthy and [notionTaskByPageId] has nothing under it. *)
Definition throws_at (customIdToPageId : gmap jstr jstr)
    (notionTaskByPageId : gmap jstr task) (t : todo) : bool :=
  truthy (todo_id t) &&
  match lookup_truthy customIdToPageId (todo_id t) with
  | Some notionPageId =>
      bool_decide (notionTaskByPageId !! key_text notionPageId = None)
  | None => false
  end.

(** Whether the loop of the pass gets to the record at position [n]: line
    363 throws for none of the records before it. *)
Definition reached (customIdToPageId : gmap jstr jstr)
    (notionTaskByPageId : gmap jstr task) (todos : list todo) (n : nat) : bool :=
  forallb (λ t, negb (throws_at customIdToPageId notionTaskByPageId t))
    (take n todos).

(** The records marked for deletion (lines 403 to 414), in the order of
    [Object.keys(cachedTodos)]. *)
Definition mark_deleted (customIdToPageId : gmap jstr jstr)
    (cachedTodos : jsobj todo) : list (jstr * pageRef) :=
  omap (λ '(cachedId, cached),
          match lookup_truthy customIdToPageId cachedId with
          | None => Some (cachedId, TodoObject cached)
          | Some _ => None
          end)
    (obj_entries cachedTodos).

Section Push.

(** The remote collaborator: a state and the answer of the client to each
    call. *)
Context {World : Type} (notion : request → World → response * World).

Definition M (A : Type) : Type := World → A * World * list event.

Definition ret {A} (a : A) : M A := λ w, (a, w, []).

Definition bind {A B} (m : M A) (k : A → M B) : M B :=
  λ w, let '(a, w1, l1) := m w in
       let '(b, w2, l2) := k a w1 in
       (b, w2, l1 ++ l2).

Definition tell (e : event) : M unit := λ w, (tt, w, [e]).

Definition call (r : request) : M response :=
  λ w, let '(resp, w') := notion r w in (resp, w', [client_call r]).

Notation "'let*' x ':=' m 'in' k" := (bind m (λ x, k))
  (at level 10, x name, m at level 100, k at level 200).

Notation "m ';;' k" := (bind m (λ _, k))
  (at level 100, k at level 200, right associativity).

Definition configured (c : credentials) : bool :=
  truthy (token c) && truthy (databaseId c).

Definition fetchNotionState (c : credentials) : M (list task) :=
  if negb (configured c) then ret []
  else
    let* resp := call (DatabasesQuery (databaseId c)) in
    match resp with
    | QueryResults results => ret (page_to_task <$> results)
    | _ => ret []
    end.

Definition listDatabaseProperties (c : credentials)
    : M (option (gmap jstr jstr)) :=
  if negb (configured c) then ret None
  else
    let* resp := call (DatabasesRetrieve (databaseId c)) in
    match resp with
    | DatabaseObject schema => ret (Some schema)
    | _ => ret None
    end.

(** Returns the identifier of the new page, or [None] for [null] and
    [undefined]. *)
Definition createTodo (c : credentials) (t : todo) : M (option jstr) :=
  tell (createTodo_called t) ;;
  if negb (configured c) then ret None
  else
    let* dbProperties := listDatabaseProperties c in
    let* resp := call (PagesCreate (databaseId c) (build_properties dbProperties t)) in
    match resp with
    | PageObject newId => ret (Some newId)
    | _ => ret None
    end.

Definition updateTodo (c : credentials) (todoId : pageRef) (updates : todo)
    : M bool :=
  tell (updateTodo_called todoId updates) ;;
  if negb (truthy (token c)) then ret false
  else
    let* dbProperties := listDatabaseProperties c in
    let* resp := call (PagesUpdate todoId
                         (SetProperties (build_properties dbProperties updates))) in
    match resp with
    | Failed _ => ret false
    | _ => ret true
    end.

Definition deleteTodo (c : credentials) (todoId : pageRef) : M bool :=
  tell (deleteTodo_called todoId) ;;
  if negb (truthy (token c)) then ret false
  else
    let* resp := call (PagesUpdate todoId (SetArchived true)) in
    match resp with
    | Failed _ => ret false
    | _ => ret true
    end.

(** The loop over the current records (lines 346 to 400).  [None] is the
    [TypeError] of line 363, the read of a field of [undefined] when
    [notionTaskByPageId] has nothing under the value found for the
    identifier; it is caught at line 429. *)
Fixpoint push_loop (c : credentials) (customIdToPageId : gmap jstr jstr)
    (notionTaskByPageId : gmap jstr task) (todos : list todo)
    (created updated : list todo) : M (option (list todo * list todo)) :=
  match todos with
  | [] => ret (Some (created, updated))
  | t :: rest =>
      if negb (truthy (todo_id t)) then
        push_loop c customIdToPageId notionTaskByPageId rest created updated
      else
        match lookup_truthy customIdToPageId (todo_id t) with
        | Some notionPageId =>
            match notionTaskByPageId !! key_text notionPageId with
            | None => ret None
            | Some notionTask =>
                if needsUpdate notionTask t then
                  let* success := updateTodo c notionPageId t in
                  push_loop c customIdToPageId notionTaskByPageId rest created
                    (if success then updated ++ [t] else updated)
                else
                  tell (debug_no_changes t) ;;
                  push_loop c customIdToPageId notionTaskByPageId rest created updated
            end
        | None =>
            let* newPageId := createTodo c t in
            push_loop c customIdToPageId notionTaskByPageId rest
              (if truthy (default [] newPageId) then created ++ [t] else created)
              updated
        end
  end.

Fixpoint mark_loop (marked : list (jstr * pageRef)) : M unit :=
  match marked with
  | [] => ret tt
  | (cachedId, notionPageId) :: rest =>
      tell (debug_marked_for_deletion notionPageId cachedId) ;; mark_loop rest
  end.

Fixpoint delete_loop (c : credentials) (deleted : list pageRef) : M unit :=
  match deleted with
  | [] => ret tt
  | todoId :: rest => deleteTodo c todoId ;; delete_loop c rest
  end.

Definition empty_result : syncResult := mkSyncResult [] [] [].

Definition syncTodos (c : credentials) (todos : list todo)
    (cachedTodos : jsobj todo) : M syncResult :=
  if negb (configured c) then ret empty_result
  else
    let* notionTasks := fetchNotionState c in
    let '(customIdToPageId, notionTaskByPageId) := index_tasks notionTasks in
    let* pushed := push_loop c customIdToPageId notionTaskByPageId todos [] [] in
    match pushed with
    | None => ret empty_result
    | Some (created, updated) =>
        let marked := mark_deleted customIdToPageId cachedTodos in
        mark_loop marked ;;
        delete_loop c marked.*2 ;;
        ret (mkSyncResult created updated marked.*2)
    end.

End Push.

(** ** A scripted collaborator, for running a pass on concrete inputs *)

Definition full_schema : gmap jstr jstr :=
  {[ lit "File Path" := lit "rich_text";
     lit "Line Number" := lit "rich_text";
     lit "TODO_ID" := lit "rich_text" ]}.

(** [pages = None]: the query fails.  The three predicates say which
    creations, updates and archivals succeed. *)
Definition scripted (pages : option (list page))
    (create_ok : properties → bool) (update_ok : pageRef → bool)
    (archive_ok : pageRef → bool) (r : request) (w : unit) : response * unit :=
  (match r with
   | DatabasesQuery _ =>
       match pages with
       | Some ps => QueryResults ps
       | None => Failed (lit "fetch failed")
       end
   | DatabasesRetrieve _ => DatabaseObject full_schema
   | PagesCreate _ p =>
       if create_ok p then PageObject (lit "page-new") else Failed (lit "create failed")
   | PagesUpdate ref (SetProperties _) =>
       if update_ok ref then PageObject (key_text ref)
       else Failed (lit "update failed")
   | PagesUpdate ref (SetArchived _) =>
       if archive_ok ref then PageObject [] else Failed (lit "archive failed")
   end, w).

Definition creds : credentials := mkCredentials (lit "secret") (lit "db").

Definition sample (id text : string) (line : nat) : todo :=
  mkTodo (lit text) (lit "TODO") (lit "Not started") (lit "a.js") (S line) line 0 (lit id).

Definition always {A} (b : bool) : A → bool := λ _, b.

(** ** The events of a pass, by origin *)

Inductive push_event (customIdToPageId : gmap jstr jstr)
    (notionTaskByPageId : gmap jstr task) (todos : list todo) : event → Prop :=
  | pe_create t :
      t ∈ todos → truthy (todo_id t) = true →
      lookup_truthy customIdToPageId (todo_id t) = None →
      push_event customIdToPageId notionTaskByPageId todos (createTodo_called t)
  | pe_update t p tk :
      t ∈ todos → truthy (todo_id t) = true →
      lookup_truthy customIdToPageId (todo_id t) = Some p →
      notionTaskByPageId !! key_text p = Some tk → needsUpdate tk t = true →
      push_event customIdToPageId notionTaskByPageId todos (updateTodo_called p t)
  | pe_no_changes t p tk :
      t ∈ todos → truthy (todo_id t) = true →
      lookup_truthy customIdToPageId (todo_id t) = Some p →
      notionTaskByPageId !! key_text p = Some tk → needsUpdate tk t = false →
      push_event customIdToPageId notionTaskByPageId todos (debug_no_changes t)
  | pe_client r :
      push_event customIdToPageId notionTaskByPageId todos (client_call r).

Definition is_client (e : event) : Prop := ∃ r, e = client_call r.

Definition marked_event (m : jstr * pageRef) : event :=
  debug_marked_for_deletion m.2 m.1.

(** ** todoSync.js: the cache written after a pass *)

(** Lines 172 to 177 of [syncTodosOnSave]. *)
Definition cache_of (todos : list todo) : jsobj todo :=
  foldl (λ cache t, if truthy (todo_id t) then obj_set cache (todo_id t) t else cache)
    ∅ todos.

(** The page that holds a record under the key [key]. *)
Definition page_of (key : string) (t : todo) : page :=
  mkPage (lit key) (Some (todo_text t)) (Some (todo_id t)) (Some (todo_filePath t))
    (Some (Z.of_nat (todo_lineNumber t))) (Some (todo_type t)) (Some (todo_status t)).

Definition all_ok : request → unit → response * unit :=
  scripted (Some []) (always true) (always true) (always true).

(** ** todoParser.js: scanDocumentsForTodos *)

Record scannedTodo := mkScanned {
  sc_text : jstr;
  sc_line : nat;
  sc_column : nat;
  sc_id : option jstr;
  sc_uri : jstr
}.

Inductive outcome (A : Type) :=
  | Returned (a : A)
  | Thrown (error : jstr).

Arguments Returned {A} a.

Arguments Thrown {A} error.

(** [document.getText()], with line feeds between the lines. *)
Fixpoint getText (lines : list jstr) : jstr :=
  match lines with
  | [] => []
  | l :: rest =>
      match rest with
      | [] => l
      | _ => l ++ 10 :: getText rest
      end
  end.

(** [document.positionAt(offset)]: line and character. *)
Fixpoint positionAt (lines : list jstr) (offset : nat) : nat * nat :=
  match lines with
  | [] => (0, 0)%nat
  | l :: rest =>
      if (offset <=? length l)%nat then (0%nat, offset)
      else
        let '(ln, ch) := positionAt rest (offset - length l - 1) in (S ln, ch)
  end.

(** The pattern [idRegex] of [scanDocumentsForTodos] at the head of [s]:
    the marker, white space and the annotation (capture group 2); the rest
    of the pattern matches anything. *)
Definition scan_id_at (s : jstr) : option jstr :=
  match marker_at s with
  | Some (_, r) => fst <$> annot_at (trimStart r)
  | None => None
  end.

(** [lineText.match(idRegex)] in [scanDocumentsForTodos]. *)
Fixpoint scan_idRegex_match (s : jstr) : option jstr :=
  match scan_id_at s with
  | Some tok => Some tok
  | None =>
      match s with
      | [] => None
      | _ :: s' => scan_idRegex_match s'
      end
  end.

(** The record pushed for a match at [offset] (lines 90 to 103). *)
Definition scanned_at (d : document) (offset : nat) : scannedTodo :=
  let '(ln, ch) := positionAt (doc_lines d) offset in
  let lineText := default [] (doc_lines d !! ln) in
  mkScanned (trim lineText) ln ch (scan_idRegex_match lineText) (doc_uri d).

(** The [while] loop of line 84.  The pattern has no [g] flag, so every
    [regex.exec(text)] starts at the beginning of the text and returns the
    same first match; the loop ends when the length of [todos] reaches
    [bound].  [None] is an exhausted [fuel]. *)
Fixpoint scan_while (fuel : nat) (d : document) (bound : nat)
    (todos : list scannedTodo) : option (list scannedTodo) :=
  match fuel with
  | O => None
  | S fuel' =>
      match todoRegex_exec (getText (doc_lines d)) with
      | Some (offset, _, _) =>
          if (length todos <? bound)%nat then
            scan_while fuel' d bound (todos ++ [scanned_at d offset])
          else Some todos
      | None => Some todos
      end
  end.

Definition sync_scheme (d : document) : bool :=
  bool_decide (doc_scheme d = lit "file") || bool_decide (doc_scheme d = lit "untitled").

(** The callback of [forEach] for the document at position [index] of
    [Object.values(openDocuments)]. *)
Definition scan_document (index : nat) (d : document)
    (todos : list scannedTodo) : option (list scannedTodo) :=
  if sync_scheme d then
    let bound := (maxTodos * (index + 1))%nat in
    scan_while (S bound) d bound todos
  else Some todos.

Fixpoint scan_forEach (index : nat) (docs : list document)
    (todos : list scannedTodo) : option (list scannedTodo) :=
  match docs with
  | [] => Some todos
  | d :: rest =>
      match scan_document index d todos with
      | Some todos' => scan_forEach (S index) rest todos'
      | None => None
      end
  end.

(** After the loop, line 108 reads [maxTodos], which is declared by [const]
    inside the block of the callback (line 83) and is not in scope there:
    the function ends in a [ReferenceError] whatever it has collected. *)
Definition scanDocumentsForTodos (openDocuments : list document)
    : option (outcome (list scannedTodo)) :=
  match scan_forEach 0 openDocuments [] with
  | Some _ => Some (Thrown (lit "ReferenceError: maxTodos is not defined"))
  | None => None
  end.

(** ** todoSync.js: the pull pass *)

Inductive edit :=
  | replaceLine (t : scannedTodo) (newText : jstr)
  | deleteLine (t : scannedTodo).

Definition edit_target (e : edit) : scannedTodo :=
  match e with
  | replaceLine t _ => t
  | deleteLine t => t
  end.

(** The body of the loop of [reconcileNotionToCode] for one key: the edits
    of the open buffers that it schedules.  [codeMap] is the map of the
    own properties.  When [codeMap[notionId]] is not a scanned record but
    a member inherited from [Object.prototype], [updateTodoInCode] and
    [deleteTodoFromCode] find neither a [uri] nor a [line] in it:
    [lineAt(undefined)] throws and no buffer is edited. *)
Definition reconcile_one (codeMap : gmap jstr scannedTodo)
    (entry : jstr * task) : list edit :=
  let '(notionId, notionTask) := entry in
  let codeTodo := codeMap !! notionId in
  if bool_decide (task_status notionTask = lit "Archived") then
    match codeTodo with
    | Some ct => [deleteLine ct]
    | None => []
    end
  else
    match codeTodo with
    | Some ct =>
        if truthy (task_text notionTask) then
          if bool_decide (task_text notionTask = sc_text ct) then []
          else [replaceLine ct (task_text notionTask)]
        else []
    | None => []
    end.

(** The edits scheduled through [updateTodoInCode] and [deleteTodoFromCode],
    in the order of [Object.keys(notionMap)]. *)
Definition reconcileNotionToCode (notionMap : jsobj task)
    (codeMap : gmap jstr scannedTodo) : list edit :=
  obj_entries notionMap ≫= reconcile_one codeMap.

(** Lines 29 to 32 of [syncNotionToCode]. *)
Definition notionMap_of (notionTasks : list task) : jsobj task :=
  foldl (λ m tk, obj_set m (task_id tk) tk) ∅ notionTasks.

(** Lines 36 to 41; the record assigned to [codeMap.__proto__] becomes the
    prototype and no own property. *)
Definition codeMap_of (codeTodos : list scannedTodo) : gmap jstr scannedTodo :=
  foldl (λ m t, match sc_id t with
                | Some i =>
                    if truthy i && negb (bool_decide (i = proto_key))
                    then <[i := t]> m else m
                | None => m
                end) ∅ codeTodos.

Section Pull.

Context {World : Type} (notion : request → World → response * World).

(** The edits of one pull.  An exception in the callback of [then] is
    caught at line 50: no edit is scheduled.  [None] is an exhausted fuel
    of the scan. *)
Definition syncNotionToCode (c : credentials) (openDocuments : list document)
    : M (World := World) (option (list edit)) :=
  bind (fetchNotionState notion c) (λ notionTasks,
    ret (match scanDocumentsForTodos openDocuments with
         | None => None
         | Some (Thrown _) => Some []
         | Some (Returned codeTodos) =>
             Some (reconcileNotionToCode (notionMap_of notionTasks)
                     (codeMap_of codeTodos))
         end)).

End Pull.

(** ** The editor *)

(** The lines of a text: [\n], [\r\n] and [\r] end a line. *)
Fixpoint split_lines_from (afterCR : bool) (s : jstr) : list jstr :=
  match s with
  | [] => [[]]
  | c :: r =>
      if c =? 13 then [] :: split_lines_from true r
      else if c =? 10 then
        if afterCR then split_lines_from false r
        else [] :: split_lines_from false r
      else
        match split_lines_from false r with
        | [] => [[c]]
        | l :: ls => (c :: l) :: ls
        end
  end.

Definition split_lines (s : jstr) : list jstr := split_lines_from false s.

(** [editBuilder.replace(document.lineAt(line).range, newText)] and
    [editBuilder.delete(document.lineAt(line).range)] on the open buffers:
    the range of a line excludes its line break; [lineAt] throws for a line
    that does not exist, and nothing is applied. *)
Definition apply_edit (buffers : gmap jstr (list jstr)) (e : edit)
    : gmap jstr (list jstr) :=
  let t := edit_target e in
  match buffers !! sc_uri t with
  | None => buffers
  | Some lines =>
      if (sc_line t <? length lines)%nat then
        let new :=
          match e with
          | replaceLine _ newText => split_lines newText
          | deleteLine _ => [[]]
          end in
        <[sc_uri t := take (sc_line t) lines ++ new ++ drop (S (sc_line t)) lines]>
          buffers
      else buffers
  end.

Definition apply_edits (buffers : gmap jstr (list jstr)) (edits : list edit)
    : gmap jstr (list jstr) :=
  foldl apply_edit buffers edits.

Definition single_line (e : edit) : Prop :=
  match e with
  | replaceLine _ newText => Forall (λ c, c ≠ 10 ∧ c ≠ 13) newText
  | deleteLine _ => True
  end.

(** ** The snapshot of a pass *)

Section Snapshot.

Context {World : Type} (notion : request → World → response * World).

(** The remote-by-identifier index that a pass started in [w] works with. *)
Definition remote_index (c : credentials) (w : World) : gmap jstr jstr :=
  (index_tasks (fetchNotionState notion c w).1.1).1.

Definition remote_by_key (c : credentials) (w : World) : gmap jstr task :=
  (index_tasks (fetchNotionState notion c w).1.1).2.

End Snapshot.

(** ** Predicates for the statements about generated identifiers *)

(** Lower-case hexadecimal digits and the hyphen. *)
Definition hex_or_hyphen (c : N) : Prop :=
  48 <= c <= 57 ∨ 97 <= c <= 102 ∨ c = 45.

(** The number of [x] and [y] of a template. *)
Fixpoint placeholders (tpl : jstr) : nat :=
  match tpl with
  | [] => 0%nat
  | c :: tpl' =>
      if (c =? 120) || (c =? 121) then S (placeholders tpl') else placeholders tpl'
  end.

(** ** Relations for the statements about records and requests *)

(** What two extractions of one line agree on: everything but the text. *)
Definition same_record (a b : todo) : Prop :=
  todo_id a = todo_id b ∧ todo_line a = todo_line b ∧
  todo_lineNumber a = todo_lineNumber b ∧ todo_type a = todo_type b ∧
  todo_status a = todo_status b ∧ todo_filePath a = todo_filePath b.

(** The requests a pass may send, given the remote index it fetched. *)
Inductive pass_request (c : credentials) (customIdToPageId : gmap jstr jstr)
    (todos : list todo) (cachedTodos : jsobj todo) : request → Prop :=
  | pr_query :
      pass_request c customIdToPageId todos cachedTodos
        (DatabasesQuery (databaseId c))
  | pr_retrieve :
      pass_request c customIdToPageId todos cachedTodos
        (DatabasesRetrieve (databaseId c))
  | pr_create s t :
      t ∈ todos → lookup_truthy customIdToPageId (todo_id t) = None →
      pass_request c customIdToPageId todos cachedTodos
        (PagesCreate (databaseId c) (build_properties s t))
  | pr_update s t p :
      t ∈ todos → lookup_truthy customIdToPageId (todo_id t) = Some p →
      pass_request c customIdToPageId todos cachedTodos
        (PagesUpdate p (SetProperties (build_properties s t)))
  | pr_archive cachedId t :
      cachedTodos !! cachedId = Some t →
      lookup_truthy customIdToPageId cachedId = None →
      pass_request c customIdToPageId todos cachedTodos
        (PagesUpdate (TodoObject t) (SetArchived true)).

(** ** notionCredentials.js *)

(** What the functions read and write in the editor: the paths of the
    workspace folders ([None] when [vscode.workspace.workspaceFolders] is
    undefined), the secret storage of the extension, and the value of the
    setting [TODOtoNOTION.databaseId], whose declared default is the empty
    string. *)
Record host := mkHost {
  workspaceFolders : option (list jstr);
  secrets : gmap jstr jstr;
  databaseId_setting : jstr
}.

Definition NOTION_TOKEN_KEY : jstr := lit "notionIntegrationToken".

Definition getWorkspaceKey (h : host) : jstr :=
  match workspaceFolders h with
  | Some (folder :: _) => folder
  | _ => lit "global"
  end.

Definition tokenKey (h : host) : jstr :=
  NOTION_TOKEN_KEY ++ lit "_" ++ getWorkspaceKey h.

(** The answer of an input box: [None] when it is dismissed. *)
Definition answered (a : option jstr) : bool := truthy (default [] a).

(** [setCredentials] returns [false], or the value of
    [token && databaseId] with a truthy [token], which is [databaseId]. *)
Inductive setResult :=
  | ReturnsFalse
  | ReturnsDatabaseId (databaseId : option jstr).

Definition result_truthy (r : setResult) : bool :=
  match r with
  | ReturnsFalse => false
  | ReturnsDatabaseId a => answered a
  end.

(** [tokenInput] and [databaseIdInput] are the answers to the two input
    boxes (the second is shown only after a token is stored); [store_ok]
    and [update_ok] say whether [context.secrets.store] and the update of
    the setting succeed: a rejection is caught at line 139.  The setting is
    read back as it is written: no value of a narrower scope overrides it.
    [debug] is the function given to [init]. *)
Definition setCredentials (tokenInput databaseIdInput : option jstr)
    (store_ok update_ok : bool) (h : host) : setResult * host :=
  if answered tokenInput then
    if store_ok then
      let h1 := mkHost (workspaceFolders h)
                  (<[tokenKey h := default [] tokenInput]> (secrets h))
                  (databaseId_setting h) in
      if answered databaseIdInput then
        if update_ok then
          (ReturnsDatabaseId databaseIdInput,
           mkHost (workspaceFolders h1) (secrets h1) (default [] databaseIdInput))
        else (ReturnsFalse, h1)
      else (ReturnsDatabaseId databaseIdInput, h1)
    else (ReturnsFalse, h)
  else (ReturnsFalse, h).

(** The object returned by [getCredentials]: [token] is [None] for
    [undefined] and [null]. *)
Record storedCredentials := mkStored {
  stored_token : option jstr;
  stored_databaseId : jstr
}.

(** [get_ok] says whether [context.secrets.get] succeeds. *)
Definition getCredentials (get_ok : bool) (h : host) : storedCredentials :=
  if get_ok then mkStored (secrets h !! tokenKey h) (databaseId_setting h)
  else mkStored None [].

(** The credentials as the functions of notionDatabase.js and
    notionTodo.js test them: a missing token is falsy like an empty one. *)
Definition credentials_of (s : storedCredentials) : credentials :=
  mkCredentials (default [] (stored_token s)) (stored_databaseId s).

(** ** notion.js: the operations on the stored credentials *)

Section Facade.

Context {World : Type} (notion : request → World → response * World).

Definition notion_fetchNotionState (get_ok : bool) (h : host) : M (list task) :=
  fetchNotionState notion (credentials_of (getCredentials get_ok h)).

Definition notion_listDatabaseProperties (get_ok : bool) (h : host)
    : M (option (gmap jstr jstr)) :=
  listDatabaseProperties notion (credentials_of (getCredentials get_ok h)).

Definition notion_syncTodos (get_ok : bool) (h : host) (todos : list todo)
    (cachedTodos : jsobj todo) : M syncResult :=
  syncTodos notion (credentials_of (getCredentials get_ok h)) todos cachedTodos.

End Facade.

(** ** todoSync.js: syncTodosOnSave *)

(** The cache of the records of each document, which extension.js owns,
    and the flags set before a programmatic save. *)
Record saveState := mkSaveState {
  todoCache : gmap jstr (jsobj todo);
  skipNextSaveForUri : gmap jstr bool
}.

Definition skip_set (st : saveState) (uriStr : jstr) : bool :=
  default false (skipNextSaveForUri st !! uriStr).

Inductive saveOutcome :=
  | SkippedProgrammaticSave
  | SkippedScheme
  | NoTodos
  | Synced (result : syncResult) (applied : bool).

Section Save.

Context {World : Type} (notion : request → World → response * World).

(** One call of [syncTodosOnSave], with the callbacks of its promises run
    to their end before the next event.  [applied] is the answer of
    [editor.edit] in [injectTodoIds]; the document returned is the buffer
    after the edit, and the programmatic save of line 221 is the next
    event.  The document is not edited between the extraction and the
    injection. *)
Definition syncTodosOnSave (rnd : nat → N) (k : nat) (applied get_ok : bool)
    (h : host) (d : document) (st : saveState)
    : M (World := World) (saveOutcome * document * saveState * nat) :=
  let uriStr := doc_uri d in
  if skip_set st uriStr then
    ret (SkippedProgrammaticSave, d,
         mkSaveState (todoCache st) (<[uriStr := false]> (skipNextSaveForUri st)), k)
  else if negb (sync_scheme d) then ret (SkippedScheme, d, st, k)
  else
    let '(parsed, k') := parseTodos rnd k d in
    let todos := take 100 parsed in
    let cachedTodos := default ∅ (todoCache st !! uriStr) in
    match todos with
    | [] => ret (NoTodos, d, st, k')
    | _ :: _ =>
        bind (notion_syncTodos notion get_ok h todos cachedTodos) (λ result,
          let cache' := <[uriStr := cache_of todos]> (todoCache st) in
          if applied then
            ret (Synced result true,
                 mkDocument (doc_uri d) (doc_scheme d) (doc_fsPath d)
                   (injectTodoIds (doc_lines d) todos),
                 mkSaveState cache' (<[uriStr := true]> (skipNextSaveForUri st)), k')
          else
            ret (Synced result false, d,
                 mkSaveState cache' (skipNextSaveForUri st), k'))
    end.

End Save.

(** The parts of the result of a call. *)
Definition saved_document {W}
    (r : saveOutcome * document * saveState * nat * W * list event) : document :=
  r.1.1.1.1.2.

Definition saved_state {W}
    (r : saveOutcome * document * saveState * nat * W * list event) : saveState :=
  r.1.1.1.2.

Definition next_draw {W}
    (r : saveOutcome * document * saveState * nat * W * list event) : nat :=
  r.1.1.2.

(** ** commandHandler.js: registerEventListeners *)





(** ** A window and a document, for running a save on concrete inputs *)

(** A window without folder whose token and database are set. *)
Definition ready_host : host :=
  mkHost None {[ lit "notionIntegrationToken_global" := lit "secret" ]} (lit "db").

Definition marked_document : document :=
  mkDocument (lit "file:///a.js") (lit "file") (lit "/a.js")
    [lit "let x = 1;"; lit "  // fixme: tidy up"].

Definition empty_state : saveState := mkSaveState ∅ ∅.

(** ** notionDatabase.js: the client *)

(** The functions that take a client from the module variable
    [notionClient]. *)
Inductive clientUser := FetchNotionState | ListDatabaseProperties | GetNotionClient.

(** The client that a configured call works with, named by the token it
    was created with, and the variable after the call ([None] while it is
    undefined).  [fetchNotionState] creates a client on every call (line
    26); [listDatabaseProperties] (lines 116 to 118) and [getNotionClient]
    (lines 156 to 159) create one only while there is none. *)
Definition obtain_client (user : clientUser) (token : jstr)
    (notionClient : option jstr) : jstr * option jstr :=
  match user, notionClient with
  | FetchNotionState, _ => (token, Some token)
  | _, Some created_with => (created_with, notionClient)
  | _, None => (token, Some token)
  end.

(** The clients used by a sequence of calls, each with the token of its
    credentials. *)
Fixpoint clients_used (notionClient : option jstr)
    (calls : list (clientUser * jstr)) : list jstr :=
  match calls with
  | [] => []
  | (user, token) :: rest =>
      let '(used, notionClient') := obtain_client user token notionClient in
      used :: clients_used notionClient' rest
  end.

(** * Part II. Properties *)

(** ** The extractor and the stamper *)

Example parseLine_unstamped :
  fst <$> parseLine (lit "a.js") zero_rnd 0 4 (lit "  // TODO: fix null check") =
  Some (mkTodo (lit "fix null check") (lit "TODO") (lit "Not started") (lit "a.js")
          5 4 0 (lit "00000000-0000-4000-8000-000000000000")).
Proof. vm_compute. reflexivity. Qed.

Example parseLine_stamped :
  fst <$> parseLine (lit "a.js") zero_rnd 0 0 (lit "// FIXME: handle edge case [id:abc-123]") =
  Some (mkTodo (lit "handle edge case") (lit "FIXME") (lit "Not started") (lit "a.js")
          1 0 0 (lit "abc-123")).
Proof. vm_compute. reflexivity. Qed.

Example injectTodoIds_scenario_A :
  let d := mkDocument (lit "file:///a.js") (lit "file") (lit "a.js")
             [lit "let x = 1;"; lit "// TODO: fix null check";
              lit "// FIXME: handle edge case [id:abc-123]"] in
  injectTodoIds (doc_lines d) (parseTodos zero_rnd 0 d).1 =
  [lit "let x = 1;";
   lit "// TODO: fix null check [id:00000000-0000-4000-8000-000000000000]";
   lit "// FIXME: handle edge case [id:abc-123]"].
Proof. vm_compute. reflexivity. Qed.

Example newLineText_scenario_A :
  newLineText (lit "// TODO: fix null check") (lit "ab-1") = lit "// TODO: fix null check [id:ab-1]".
Proof. vm_compute. reflexivity. Qed.

Ltac bool_to_prop :=
  rewrite ?orb_true_iff, ?orb_false_iff, ?andb_true_iff, ?andb_false_iff,
    ?N.eqb_eq, ?N.eqb_neq, ?N.leb_le, ?N.leb_gt, ?N.ltb_lt, ?N.ltb_ge in *.

Ltac char_solve :=
  unfold is_space, is_tok, upcase in *;
  repeat match goal with
    | H : context [if ?b then _ else _] |- _ => destruct b eqn:?
    | |- context [if ?b then _ else _] => destruct b eqn:?
    end;
  bool_to_prop; lia.

Lemma space_not_tok c : is_space c = true → is_tok c = false.
Proof. intros H. destruct (is_tok c) eqn:E; [exfalso|done]. char_solve. Qed.

Lemma space_upcase c : is_space c = true → upcase c = c.
Proof. char_solve. Qed.

Lemma upcase_letter_tok c : 65 <= upcase c <= 90 → is_tok c = true.
Proof. char_solve. Qed.

Lemma tok_not_bracket c : is_tok c = true → c ≠ 93 ∧ c ≠ 91 ∧ c ≠ 58 ∧ c ≠ 47.
Proof. char_solve. Qed.

Lemma span_spec p s a b :
  span p s = (a, b) →
  s = a ++ b ∧ Forall (λ c, p c = true) a ∧
  match b with [] => True | c :: _ => p c = false end.
Proof.
  revert a b. induction s as [|c r IH]; simpl; intros a b H.
  - by inversion H.
  - destruct (p c) eqn:E.
    + destruct (span p r) as [a' b'] eqn:E'. inversion H; subst.
      destruct (IH _ _ eq_refl) as (-> & ? & ?). split_and!; [done| |done].
      by constructor.
    + inversion H; subst. by rewrite E.
Qed.

Lemma span_app_stop p a b :
  Forall (λ c, p c = true) a →
  match b with [] => True | c :: _ => p c = false end →
  span p (a ++ b) = (a, b).
Proof.
  induction 1 as [|c a Hc _ IH]; simpl; intros Hb.
  - destruct b as [|c b]; [done|]. simpl. by rewrite Hb.
  - by rewrite Hc, IH.
Qed.

Lemma span_tok_app q x :
  neutral_head x →
  span is_tok (q ++ x) =
    let '(a, b) := span is_tok q in (a, b ++ x).
Proof.
  intros Hx. destruct (span is_tok q) as [a b] eqn:E.
  destruct (span_spec _ _ _ _ E) as (-> & Ha & Hb).
  rewrite <- (assoc_L (++)). apply span_app_stop; [done|].
  destruct b as [|c b]; simpl; [|done].
  destruct x as [|h x]; [done|]. by destruct Hx.
Qed.

(** The shape of a match of the annotation at the head of a string. *)
Lemma annot_at_Some s tok r :
  annot_at s = Some (tok, r) ↔
  ∃ c1 c2, s = 91 :: c1 :: c2 :: 58 :: tok ++ 93 :: r ∧
    upcase c1 = 73 ∧ upcase c2 = 68 ∧ tok ≠ [] ∧
    Forall (λ c, is_tok c = true) tok.
Proof.
  split.
  - destruct s as [|c0 [|c1 [|c2 [|c3 s]]]]; simpl; try done.
    destruct ((c0 =? 91) && (upcase c1 =? 73) && (upcase c2 =? 68) && (c3 =? 58))
      eqn:E; [|done].
    destruct (span is_tok s) as [a b] eqn:Es.
    destruct a as [|t a]; [done|]. destruct b as [|c b]; [done|].
    destruct (c =? 93) eqn:Ec; [|done].
    intros [= <- <-]. apply span_spec in Es as (-> & Ha & _).
    bool_to_prop. destruct E as [[[-> ?] ?] ->]. subst c.
    by exists c1, c2.
  - intros (c1 & c2 & -> & H1 & H2 & Hne & Htok). simpl.
    rewrite H1, H2. simpl.
    rewrite (span_app_stop is_tok tok (93 :: r)); [|done|done].
    destruct tok; [done|]. done.
Qed.

Lemma annot_at_neutral q x y :
  q ≠ [] → neutral_head x → neutral_head y →
  fst <$> annot_at (q ++ x) = fst <$> annot_at (q ++ y).
Proof.
  assert (Hnt : ∀ h, is_tok h = false → upcase h ≠ 73 ∧ upcase h ≠ 68).
  { intros h Hh. split; intros E;
      (assert (is_tok h = true) by (apply upcase_letter_tok; lia)); congruence. }
  assert (H1 : ∀ c0 z, neutral_head z → annot_at (c0 :: z) = None).
  { intros c0 [|h [|h2 [|h3 z]]] Hz; simpl; try done.
    destruct Hz as (Hh & _ & _). destruct (Hnt _ Hh) as [Hi _].
    apply N.eqb_neq in Hi. rewrite Hi. by rewrite andb_false_r. }
  assert (H2 : ∀ c0 c1 z, neutral_head z → annot_at (c0 :: c1 :: z) = None).
  { intros c0 c1 [|h [|h2 z]] Hz; simpl; try done.
    destruct Hz as (Hh & _ & _). destruct (Hnt _ Hh) as [_ Hd].
    apply N.eqb_neq in Hd. rewrite Hd. by rewrite andb_false_r. }
  assert (H3 : ∀ c0 c1 c2 z, neutral_head z → annot_at (c0 :: c1 :: c2 :: z) = None).
  { intros c0 c1 c2 [|h z] Hz; simpl; try done.
    destruct Hz as (_ & _ & Hh). apply N.eqb_neq in Hh. rewrite Hh.
    by rewrite andb_false_r. }
  intros Hq Hx Hy.
  destruct q as [|c0 [|c1 [|c2 [|c3 q]]]]; [done|..]; simpl app.
  - by rewrite !H1.
  - by rewrite !H2.
  - by rewrite !H3.
  - simpl. destruct (_ && _); [|done].
    rewrite !span_tok_app by done.
    destruct (span is_tok q) as [a b] eqn:E.
    destruct a as [|t a]; [done|]. destruct b as [|c b]; simpl.
    + destruct x as [|h x], y as [|h' y]; simpl; try done.
      * destruct Hy as (_ & Hh & _). apply N.eqb_neq in Hh. by rewrite Hh.
      * destruct Hx as (_ & Hh & _). apply N.eqb_neq in Hh. by rewrite Hh.
      * destruct Hx as (_ & Hh & _), Hy as (_ & Hh' & _).
        apply N.eqb_neq in Hh, Hh'. by rewrite Hh, Hh'.
    + by destruct (c =? 93).
Qed.

(** The identifier found in [q ++ x] is the one found in [q], if any, and
    else the one found in [x]. *)
Lemma idRegex_match_app q x :
  neutral_head x →
  idRegex_match (q ++ x) =
    match idRegex_match q with
    | Some t => Some t
    | None => idRegex_match x
    end.
Proof.
  intros Hx. induction q as [|c q IH]; [done|].
  cbn [idRegex_match app].
  pose proof (annot_at_neutral (c :: q) x [] ltac:(done) Hx I) as E.
  rewrite app_nil_r in E. simpl app in E.
  destruct (annot_at (c :: q ++ x)) as [[t r]|], (annot_at (c :: q)) as [[t' r']|];
    simpl in E; done.
Qed.

Lemma is_annotation_lit tok :
  tok ≠ [] → Forall (λ c, is_tok c = true) tok →
  is_annotation (lit "[id:" ++ tok ++ lit "]") tok.
Proof. intros ??. by exists 105, 100. Qed.

Lemma is_annotation_annot_at z tok :
  is_annotation z tok ↔ annot_at z = Some (tok, []).
Proof.
  unfold is_annotation. rewrite annot_at_Some. done.
Qed.

Lemma annotation_chars z tok :
  is_annotation z tok →
  Forall (λ c, is_space c = false ∧ c ≠ 47) z.
Proof.
  intros (c1 & c2 & -> & H1 & H2 & _ & Htok).
  repeat apply Forall_cons_2; try (split; [|lia]; char_solve).
  - split; char_solve.
  - split; char_solve.
  - apply Forall_app_2; [|repeat constructor; done].
    eapply Forall_impl; [done|]. intros c Hc. simpl in Hc.
    split; [|by apply tok_not_bracket].
    destruct (is_space c) eqn:E; [|done].
    apply space_not_tok in E. congruence.
Qed.

Lemma soft_neutral x : soft x → neutral_head x.
Proof.
  intros (ws & z & -> & Hws & Hz).
  destruct ws as [|w ws]; simpl.
  - destruct Hz as [->|(tok & c1 & c2 & -> & _)]; [done|]. simpl.
    split_and!; [done|lia|lia].
  - apply Forall_cons in Hws as [Hw _].
    split; [by apply space_not_tok|]. char_solve.
Qed.

Lemma soft_stamp tok :
  tok ≠ [] → Forall (λ c, is_tok c = true) tok →
  soft (lit " [id:" ++ tok ++ lit "]").
Proof.
  intros ??. exists [32], (lit "[id:" ++ tok ++ lit "]"). split_and!; [done| |].
  - by repeat constructor.
  - right. exists tok. by apply is_annotation_lit.
Qed.

Lemma trimStart_spaces ws z :
  Forall (λ c, is_space c = true) ws →
  match z with [] => True | h :: _ => is_space h = false end →
  trimStart (ws ++ z) = z.
Proof.
  intros Hws Hz. unfold trimStart. by rewrite (span_app_stop _ _ _ Hws Hz).
Qed.

Lemma trimStart_app r x :
  trimStart (r ++ x) =
    match trimStart r with [] => trimStart x | r' => r' ++ x end.
Proof.
  unfold trimStart. induction r as [|c r IH]; [done|]. simpl.
  destruct (is_space c) eqn:E.
  - destruct (span is_space (r ++ x)), (span is_space r). simpl in *. done.
  - done.
Qed.

Lemma trimEnd_spec s :
  ∃ ws, s = trimEnd s ++ ws ∧ Forall (λ c, is_space c = true) ws.
Proof.
  induction s as [|c s (ws & IH & Hws)]; [by exists []|]. simpl.
  destruct (trimEnd s) as [|t r] eqn:E.
  - destruct (is_space c) eqn:Ec.
    + exists (c :: ws). simpl in IH. subst s. split; [done|by constructor].
    + exists ws. simpl in *. by subst s.
  - exists ws. simpl. by rewrite IH at 1.
Qed.

Lemma trimEnd_snoc a x : is_space x = false → trimEnd (a ++ [x]) = a ++ [x].
Proof.
  intros Hx. induction a as [|c a IH]; simpl; [by rewrite Hx|].
  rewrite IH. by destruct a.
Qed.

Lemma trimEnd_shape s :
  trimEnd s = [] ∨ ∃ a x, trimEnd s = a ++ [x] ∧ is_space x = false.
Proof.
  induction s as [|c s IH]; [by left|]. simpl.
  destruct (trimEnd s) as [|t r] eqn:E.
  - destruct (is_space c) eqn:Ec; [by left|]. right. by exists [], c.
  - right. destruct IH as [?|(a & x & -> & Hx)]; [done|]. by exists (c :: a), x.
Qed.

Lemma trailing_annot_at_true r :
  trailing_annot_at r = true →
  ∃ ws z tok, r = ws ++ z ∧ Forall (λ c, is_space c = true) ws ∧
    is_annotation z tok.
Proof.
  unfold trailing_annot_at, trimStart. intros H.
  destruct (span is_space r) as [ws z] eqn:E.
  apply span_spec in E as (-> & Hws & _). simpl in H.
  destruct (annot_at z) as [[tok [|]]|] eqn:Ez; try done.
  exists ws, z, tok. split_and!; [done..|]. by apply is_annotation_annot_at.
Qed.

Lemma strip_trailing_id_spec l :
  ∃ r, l = strip_trailing_id l ++ r ∧ (r = [] ∨ trailing_annot_at r = true).
Proof.
  induction l as [|c l (r & IH & Hr)].
  - simpl. destruct (trailing_annot_at []) eqn:E; exists []; by auto.
  - cbn [strip_trailing_id]. destruct (trailing_annot_at (c :: l)) eqn:E.
    + exists (c :: l). by auto.
    + exists r. simpl. by rewrite <- IH.
Qed.

(** A line is its kept part followed by a soft remainder. *)
Lemma line_split l :
  ∃ rem, l = trimEnd (strip_trailing_id l) ++ rem ∧ soft rem.
Proof.
  destruct (strip_trailing_id_spec l) as (r & Hl & Hr).
  destruct (trimEnd_spec (strip_trailing_id l)) as (ws & Hs & Hws).
  exists (ws ++ r). split.
  - rewrite (assoc_L (++)), <- Hs. done.
  - destruct Hr as [->|Hr].
    + exists ws, []. rewrite app_nil_r. by auto.
    + apply trailing_annot_at_true in Hr as (ws' & z & tok & -> & Hws' & Hz).
      exists (ws ++ ws'), z. rewrite (assoc_L (++)).
      split_and!; [done|by apply Forall_app_2|]. right. by exists tok.
Qed.

Lemma spaces_then_annotation ws z tok a x rest :
  Forall (λ c, is_space c = true) ws → is_annotation z tok →
  is_space x = false → ws ++ z = a ++ x :: 32 :: rest → False.
Proof.
  intros Hws Hz Hx. apply annotation_chars in Hz.
  revert ws Hws. induction a as [|c a IH]; intros [|w ws] Hws E; simpl in E.
  - subst z. apply Forall_cons in Hz as [_ Hz]. by apply Forall_cons in Hz as [[? _] _].
  - apply Forall_cons in Hws as [Hw _]. inversion E; subst. congruence.
  - subst z. apply Forall_cons in Hz as [_ Hz].
    apply Forall_app in Hz as [_ Hz]. apply Forall_cons in Hz as [_ Hz].
    by apply Forall_cons in Hz as [[? _] _].
  - apply Forall_cons in Hws as [_ Hws]. inversion E; subst. by eapply IH.
Qed.

(** Stripping a freshly stamped line gives back the kept part. *)
Lemma strip_trailing_id_stamped core tok :
  trimEnd core = core → tok ≠ [] → Forall (λ c, is_tok c = true) tok →
  strip_trailing_id (core ++ lit " [id:" ++ tok ++ lit "]") = core.
Proof.
  intros Hcore Hne Htok.
  assert (Hbase : strip_trailing_id (lit " [id:" ++ tok ++ lit "]") = []).
  { pose proof (is_annotation_lit tok Hne Htok) as Ha.
    apply is_annotation_annot_at in Ha.
    change (lit " [id:" ++ tok ++ lit "]") with (32 :: (lit "[id:" ++ tok ++ lit "]")).
    set (ann := lit "[id:" ++ tok ++ lit "]") in *.
    assert (Ht : trailing_annot_at (32 :: ann) = true).
    { unfold trailing_annot_at. change (32 :: ann) with ([32] ++ ann).
      rewrite trimStart_spaces; [by rewrite Ha|by repeat constructor|done]. }
    cbn [strip_trailing_id]. by rewrite Ht. }
  destruct (trimEnd_shape core) as [E|(a & x & E & Hx)]; rewrite Hcore in E.
  { by subst core. }
  subst core. clear Hcore. induction a as [|c a IH].
  - change (([] ++ [x]) ++ lit " [id:" ++ tok ++ lit "]")
      with (x :: (lit " [id:" ++ tok ++ lit "]")).
    cbn [strip_trailing_id].
    destruct (trailing_annot_at (x :: lit " [id:" ++ tok ++ lit "]")) eqn:E.
    + apply trailing_annot_at_true in E as (ws & z & tk & E & Hws & Hz).
      exfalso. eapply (spaces_then_annotation ws z tk [] x); [done..|].
      rewrite <- E. reflexivity.
    + by rewrite Hbase.
  - change (((c :: a) ++ [x]) ++ lit " [id:" ++ tok ++ lit "]")
      with (c :: ((a ++ [x]) ++ lit " [id:" ++ tok ++ lit "]")).
    cbn [strip_trailing_id].
    destruct (trailing_annot_at (c :: (a ++ [x]) ++ lit " [id:" ++ tok ++ lit "]")) eqn:E.
    + apply trailing_annot_at_true in E as (ws & z & tk & E & Hws & Hz).
      exfalso. eapply (spaces_then_annotation ws z tk (c :: a) x); [done..|].
      rewrite <- E. rewrite <- (assoc_L (++)). reflexivity.
    + by rewrite IH.
Qed.

Lemma trimEnd_idemp s : trimEnd (trimEnd s) = trimEnd s.
Proof.
  destruct (trimEnd_shape s) as [->|(a & x & -> & Hx)]; [done|].
  by apply trimEnd_snoc.
Qed.

(** The marker pattern across an append. *)
Lemma ci_prefix_app p r x :
  Forall (λ a, 65 <= a <= 90) p →
  match x with [] => True | h :: _ => is_tok h = false end →
  ci_prefix p (r ++ x) = (λ rest, rest ++ x) <$> ci_prefix p r.
Proof.
  intros Hp Hx. revert r. induction Hp as [|a p Ha _ IH]; intros r; [done|].
  destruct r as [|c r]; simpl.
  - destruct x as [|h x]; [done|]. simpl.
    destruct (upcase h =? a) eqn:E; [|done]. apply N.eqb_eq in E.
    assert (is_tok h = true) by (apply upcase_letter_tok; lia). congruence.
  - destruct (upcase c =? a); [apply IH|done].
Qed.

Lemma tag_name_upper t : Forall (λ a, 65 <= a <= 90) (tag_name t).
Proof. destruct t; repeat constructor; done. Qed.

Lemma tag_at_app r x :
  match x with [] => True | h :: _ => is_tok h = false end →
  tag_at (r ++ x) = (λ '(t, rest), (t, rest ++ x)) <$> tag_at r.
Proof.
  intros Hx. unfold tag_at.
  rewrite !ci_prefix_app by (apply tag_name_upper || done).
  destruct (ci_prefix (tag_name TODO) r); [reflexivity|].
  destruct (ci_prefix (tag_name FIXME) r); [reflexivity|].
  destruct (ci_prefix (tag_name BUG) r); [reflexivity|].
  destruct (ci_prefix (tag_name HACK) r); [reflexivity|].
  destruct (ci_prefix (tag_name XXX) r); reflexivity.
Qed.

Lemma soft_no_slash x : soft x → Forall (λ c, c ≠ 47) x.
Proof.
  intros (ws & z & -> & Hws & Hz). apply Forall_app_2.
  - eapply Forall_impl; [done|]. simpl. intros c Hc. char_solve.
  - destruct Hz as [->|(tok & Hz)]; [done|].
    eapply Forall_impl; [by eapply annotation_chars|]. by intros c [_ ?].
Qed.

Lemma soft_trimStart_tag x : soft x → tag_at (trimStart x) = None.
Proof.
  intros (ws & z & -> & Hws & Hz).
  rewrite trimStart_spaces; [|done|].
  - by destruct Hz as [->|(tok & c1 & c2 & -> & _)].
  - by destruct Hz as [->|(tok & c1 & c2 & -> & _)].
Qed.

Lemma marker_at_app q x :
  soft x → fst <$> marker_at (q ++ x) = fst <$> marker_at q.
Proof.
  intros Hx. pose proof (soft_no_slash _ Hx) as Hs.
  pose proof (soft_neutral _ Hx) as Hn.
  destruct q as [|c0 [|c1 r]]; simpl app.
  - destruct x as [|h [|h2 x]]; [done..|]. simpl.
    apply Forall_cons in Hs as [Hh _]. apply N.eqb_neq in Hh. by rewrite Hh.
  - destruct x as [|h x]; [done|]. simpl.
    apply Forall_cons in Hs as [Hh _]. apply N.eqb_neq in Hh.
    by rewrite Hh, andb_false_r.
  - simpl. destruct ((c0 =? 47) && (c1 =? 47)); [|done].
    rewrite trimStart_app. destruct (trimStart r) as [|c r'] eqn:E.
    + by rewrite soft_trimStart_tag.
    + rewrite tag_at_app.
      * by destruct (tag_at (c :: r')) as [[]|].
      * destruct x as [|h x]; [done|]. by destruct Hn.
Qed.

Lemma todoRegex_exec_no_slash x :
  Forall (λ c, c ≠ 47) x → todoRegex_exec x = None.
Proof.
  induction 1 as [|c x Hc _ IH]; [done|].
  cbn [todoRegex_exec]. rewrite IH.
  apply N.eqb_neq in Hc. unfold marker_at. destruct x; [done|]. by rewrite Hc.
Qed.

Lemma todoRegex_exec_app q x :
  soft x → is_Some (todoRegex_exec (q ++ x)) ↔ is_Some (todoRegex_exec q).
Proof.
  intros Hx. induction q as [|c q IH].
  - simpl app. rewrite (todoRegex_exec_no_slash x) by by apply soft_no_slash.
    done.
  - pose proof (marker_at_app (c :: q) x Hx) as E. simpl app in E.
    simpl app. cbn [todoRegex_exec].
    destruct (marker_at (c :: q ++ x)) as [[]|], (marker_at (c :: q)) as [[]|];
      simpl in E; try done.
    destruct (todoRegex_exec (q ++ x)) as [[[]]|], (todoRegex_exec q) as [[[]]|];
      try done; destruct IH as [IH1 IH2];
      first [by destruct IH1 | by destruct IH2].
Qed.

(** The generated identifier is a token. *)
Lemma hexdigit_tok v : v < 16 → is_tok (hexdigit v) = true.
Proof. unfold hexdigit. intros ?. destruct (v <? 10) eqn:E; char_solve. Qed.

Lemma y_nibble r : r < 16 → N.lor (N.land r 3) 8 < 16.
Proof.
  intros H.
  assert (r = 0 ∨ r = 1 ∨ r = 2 ∨ r = 3 ∨ r = 4 ∨ r = 5 ∨ r = 6 ∨ r = 7 ∨
          r = 8 ∨ r = 9 ∨ r = 10 ∨ r = 11 ∨ r = 12 ∨ r = 13 ∨ r = 14 ∨ r = 15)
    as Hr by lia.
  repeat (destruct Hr as [->|Hr]; [done|]). by subst.
Qed.

Lemma fill_template_tok tpl rnd k :
  Forall (λ c, is_tok c = true) tpl →
  Forall (λ c, is_tok c = true) (fst (fill_template tpl rnd k)) ∧
  length (fst (fill_template tpl rnd k)) = length tpl.
Proof.
  intros H. revert k. induction H as [|c tpl Hc _ IH]; intros k; [done|].
  simpl. assert (rnd k mod 16 < 16) by (by apply N.mod_lt).
  destruct (c =? 120); [|destruct (c =? 121)].
  - destruct (fill_template tpl rnd (S k)) as [o k'] eqn:E.
    specialize (IH (S k)). rewrite E in IH. simpl in *. destruct IH.
    split; [constructor; [by apply hexdigit_tok|done]|by f_equal].
  - destruct (fill_template tpl rnd (S k)) as [o k'] eqn:E.
    specialize (IH (S k)). rewrite E in IH. simpl in *. destruct IH.
    split; [constructor; [by apply hexdigit_tok, y_nibble|done]|by f_equal].
  - destruct (fill_template tpl rnd k) as [o k'] eqn:E.
    specialize (IH k). rewrite E in IH. simpl in *. destruct IH.
    split; [by constructor|by f_equal].
Qed.

Lemma generateRandomId_tok rnd k :
  fst (generateRandomId rnd k) ≠ [] ∧
  Forall (λ c, is_tok c = true) (fst (generateRandomId rnd k)).
Proof.
  unfold generateRandomId.
  destruct (fill_template_tok (lit "xxxxxxxx-xxxx-4xxx-yxxx-xxxxxxxxxxxx") rnd k)
    as [H1 H2]; [by repeat constructor|].
  split; [|done]. intros E. rewrite E in H2. done.
Qed.

Lemma idRegex_match_tok s tok :
  idRegex_match s = Some tok → tok ≠ [] ∧ Forall (λ c, is_tok c = true) tok.
Proof.
  induction s as [|c s IH]; cbn [idRegex_match].
  - by destruct (annot_at []) as [[]|] eqn:E.
  - destruct (annot_at (c :: s)) as [[t r]|] eqn:E; [|done].
    intros [= ->]. apply annot_at_Some in E as (? & ? & _ & _ & _ & ? & ?). done.
Qed.

(** What [parseLine] returns, in terms of the two patterns. *)
Lemma parseLine_Some fsPath rnd k i lineText t k' :
  parseLine fsPath rnd k i lineText = Some (t, k') →
  is_Some (todoRegex_exec lineText) ∧
  (idRegex_match lineText = Some (todo_id t) ∧ k' = k ∨
   idRegex_match lineText = None ∧ (todo_id t, k') = generateRandomId rnd k).
Proof.
  unfold parseLine. destruct (todoRegex_exec lineText) as [[[n tg] r]|]; [|done].
  destruct (idRegex_match lineText) as [tok|] eqn:E.
  - intros [= <- <-]. split; [done|]. by left.
  - destruct (generateRandomId rnd k) as [g k2] eqn:Eg.
    intros [= <- <-]. split; [done|]. by right.
Qed.

Lemma parseLine_id_tok fsPath rnd k i lineText t k' :
  parseLine fsPath rnd k i lineText = Some (t, k') →
  todo_id t ≠ [] ∧ Forall (λ c, is_tok c = true) (todo_id t).
Proof.
  intros H. apply parseLine_Some in H as [_ [[H _]|[_ H]]].
  - by eapply idRegex_match_tok.
  - pose proof (generateRandomId_tok rnd k) as Hg. rewrite <- H in Hg. done.
Qed.

Lemma idRegex_match_stamp tok :
  tok ≠ [] → Forall (λ c, is_tok c = true) tok →
  idRegex_match (lit " [id:" ++ tok ++ lit "]") = Some tok.
Proof.
  intros Hne Htok. pose proof (is_annotation_lit tok Hne Htok) as Ha.
  apply is_annotation_annot_at in Ha.
  change (lit " [id:" ++ tok ++ lit "]") with (32 :: (lit "[id:" ++ tok ++ lit "]")).
  set (ann := lit "[id:" ++ tok ++ lit "]") in *.
  cbn [idRegex_match]. replace (annot_at (32 :: ann)) with (@None (jstr * jstr)).
  - destruct ann; cbn [idRegex_match]; by rewrite Ha.
  - by destruct ann as [|? [|? [|? ?]]].
Qed.

(** The stamped line of a marker line: it is a marker line, it carries the
    identifier of the record, and stamping it again changes nothing. *)
Lemma stamped_line fsPath rnd k i lineText t k' :
  parseLine fsPath rnd k i lineText = Some (t, k') →
  let stamped := newLineText lineText (todo_id t) in
  is_Some (todoRegex_exec stamped) ∧
  idRegex_match stamped = Some (todo_id t) ∧
  newLineText stamped (todo_id t) = stamped.
Proof.
  intros H stamped.
  destruct (parseLine_id_tok _ _ _ _ _ _ _ H) as [Hne Htok].
  apply parseLine_Some in H as [Hm Hid].
  destruct (line_split lineText) as (rem & Hl & Hrem).
  assert (Hs : stamped =
    trimEnd (strip_trailing_id lineText) ++ lit " [id:" ++ todo_id t ++ lit "]")
    by done.
  set (core := trimEnd (strip_trailing_id lineText)) in *.
  pose proof (soft_stamp _ Hne Htok) as Hsoft.
  split_and!.
  - rewrite Hs. apply todoRegex_exec_app; [done|].
    rewrite Hl in Hm. by apply todoRegex_exec_app in Hm.
  - rewrite Hs, idRegex_match_app by by apply soft_neutral.
    rewrite idRegex_match_stamp by done.
    destruct (idRegex_match core) as [y|] eqn:Ec; [|done].
    assert (idRegex_match lineText = Some y) as Hy.
    { rewrite Hl, idRegex_match_app by by apply soft_neutral. by rewrite Ec. }
    destruct Hid as [[? _]|[? _]]; congruence.
  - unfold newLineText. rewrite Hs at 1.
    rewrite strip_trailing_id_stamped; [|apply trimEnd_idemp|done..].
    unfold core at 1. by rewrite trimEnd_idemp.
Qed.

Lemma parseLine_found fsPath rnd k i lineText tok :
  is_Some (todoRegex_exec lineText) → idRegex_match lineText = Some tok →
  ∃ t, parseLine fsPath rnd k i lineText = Some (t, k) ∧ todo_id t = tok.
Proof.
  intros [[[n tg] r] Em] Hid. eexists. unfold parseLine. rewrite Em, Hid. done.
Qed.

(** C4.  Stamping is idempotent.  Let [lineText] be a marker line and [t]
    the record extracted from it.  The line rewritten by the stamper,
    [newLineText lineText (todo_id t)], is again a marker line; extraction
    finds the same identifier in it without drawing a new one; injecting
    that identifier yields the very same text, so that the second
    application schedules no edit. *)
Theorem stamping_idempotent fsPath rnd k i lineText t k' :
  parseLine fsPath rnd k i lineText = Some (t, k') →
  let stamped := newLineText lineText (todo_id t) in
  ∀ rnd2 k2, ∃ t2,
    parseLine fsPath rnd2 k2 i stamped = Some (t2, k2) ∧
    todo_id t2 = todo_id t ∧
    newLineText stamped (todo_id t2) = stamped ∧
    inject_edit stamped (todo_id t2) = None.
Proof.
  intros H stamped rnd2 k2.
  destruct (stamped_line _ _ _ _ _ _ _ H) as (Hm & Hid & Hfix).
  destruct (parseLine_found fsPath rnd2 k2 i _ _ Hm Hid) as (t2 & Hp & Ht2).
  exists t2. fold stamped in Hp, Hfix. rewrite Ht2.
  split_and!; [done..|].
  unfold inject_edit. simpl. rewrite Hfix. by rewrite decide_True.
Qed.

Lemma stamping_idempotent_witness :
  ∃ t2,
    parseLine (lit "a.js") zero_rnd 7 0
      (newLineText (lit "// TODO: fix null check")
         (lit "00000000-0000-4000-8000-000000000000")) = Some (t2, 7%nat) ∧
    todo_id t2 = lit "00000000-0000-4000-8000-000000000000" ∧
    newLineText
      (newLineText (lit "// TODO: fix null check")
         (lit "00000000-0000-4000-8000-000000000000")) (todo_id t2) =
    newLineText (lit "// TODO: fix null check")
      (lit "00000000-0000-4000-8000-000000000000") ∧
    inject_edit
      (newLineText (lit "// TODO: fix null check")
         (lit "00000000-0000-4000-8000-000000000000")) (todo_id t2) = None.
Proof.
  apply (stamping_idempotent (lit "a.js") zero_rnd 0 0
           (lit "// TODO: fix null check")
           (mkTodo (lit "fix null check") (lit "TODO") (lit "Not started")
              (lit "a.js") 1 0 0 (lit "00000000-0000-4000-8000-000000000000"))
           31%nat).
  vm_compute. reflexivity.
Defined.

(** ** Stamping a document *)

Lemma parse_loop_records fsPath rnd k i ls todos :
  (parse_loop fsPath rnd k i ls todos).1 =
  todos ++ records_from fsPath rnd k i (length todos) ls.
Proof.
  revert k i todos. induction ls as [|l ls IH]; intros k i todos.
  - simpl. by rewrite app_nil_r.
  - cbn [parse_loop records_from].
    destruct (length todos <? maxTodos)%nat; [|by rewrite app_nil_r].
    destruct (parseLine fsPath rnd k i l) as [[t k']|]; [|apply IH].
    rewrite IH, length_app, <- (assoc_L (++)). simpl.
    by rewrite Nat.add_1_r.
Qed.

Lemma parseLine_line fsPath rnd k i l t k' :
  parseLine fsPath rnd k i l = Some (t, k') → todo_line t = i.
Proof.
  unfold parseLine. destruct (todoRegex_exec l) as [[[n tg] r]|]; [|done].
  destruct (idRegex_match l); [|destruct (generateRandomId rnd k)];
    by intros [= <- <-].
Qed.

Lemma inject_step_insert lines cur t l :
  lines !! todo_line t = Some l → cur !! todo_line t = Some l →
  inject_step lines cur t = <[todo_line t := newLineText l (todo_id t)]> cur.
Proof.
  intros Hl Hc. unfold inject_step, inject_edit. rewrite Hl. simpl.
  case_decide as E; [|done]. rewrite <- E. by rewrite list_insert_id.
Qed.

Lemma inject_records fsPath rnd ls : ∀ pre cur k count,
  length cur = length (pre ++ ls) → drop (length pre) cur = ls →
  foldl (inject_step (pre ++ ls)) cur
    (records_from fsPath rnd k (length pre) count ls) =
  take (length pre) cur ++ stamp_lines fsPath rnd k (length pre) count ls.
Proof.
  induction ls as [|l ls IH]; intros pre cur k count Hlen Hdrop.
  - simpl. rewrite app_nil_r in *. by rewrite take_ge by lia.
  - cbn [records_from stamp_lines].
    assert (cur !! length pre = Some l) as Hcur.
    { pose proof (lookup_drop cur (length pre) 0) as E.
      rewrite Hdrop, Nat.add_0_r in E. by rewrite <- E. }
    assert ((pre ++ l :: ls) !! length pre = Some l) as Hlines.
    { by rewrite list_lookup_middle. }
    assert (pre ++ l :: ls = (pre ++ [l]) ++ ls) as Eassoc
      by by rewrite <- (assoc_L (++)).
    assert (length (pre ++ [l]) = S (length pre)) as Elen
      by (rewrite length_app; simpl; lia).
    destruct (count <? maxTodos)%nat.
    2:{ simpl. rewrite <- Hdrop. by rewrite take_drop. }
    destruct (parseLine fsPath rnd k (length pre) l) as [[t k']|] eqn:Ep.
    + pose proof (parseLine_line _ _ _ _ _ _ _ Ep) as Eline.
      cbn [foldl]. rewrite (inject_step_insert _ _ _ l) by by rewrite Eline.
      rewrite Eline. rewrite Eassoc at 1. rewrite <- Elen.
      rewrite IH.
      * rewrite Elen. rewrite (take_S_r _ _ (newLineText l (todo_id t))).
        -- rewrite take_insert_ge by lia. by rewrite <- (assoc_L (++)).
        -- apply list_lookup_insert_eq. by eapply lookup_lt_Some.
      * rewrite length_insert, Hlen, <- Eassoc. done.
      * rewrite Elen. rewrite drop_insert_lt by lia.
        rewrite <- (Nat.add_1_r (length pre)), <- drop_drop, Hdrop. done.
    + rewrite Eassoc at 1. rewrite <- Elen. rewrite IH.
      * rewrite Elen. rewrite (take_S_r _ _ l) by done. by rewrite <- (assoc_L (++)).
      * by rewrite Hlen, <- Eassoc.
      * rewrite Elen. rewrite <- (Nat.add_1_r (length pre)), <- drop_drop, Hdrop. done.
Qed.

Lemma stampDocument_lines rnd k d :
  doc_lines (stampDocument rnd k d) =
  stamp_lines (doc_fsPath d) rnd k 0 0 (doc_lines d).
Proof.
  unfold stampDocument, parseTodos. simpl. rewrite parse_loop_records. simpl.
  pose proof (inject_records (doc_fsPath d) rnd (doc_lines d) [] (doc_lines d) k 0)
    as H. simpl in H. by apply H.
Qed.

Lemma parseLine_None fsPath rnd k i l :
  parseLine fsPath rnd k i l = None ↔ todoRegex_exec l = None.
Proof.
  unfold parseLine. destruct (todoRegex_exec l) as [[[n tg] r]|]; [|done].
  by destruct (idRegex_match l); [|destruct (generateRandomId rnd k)].
Qed.

Lemma stamp_lines_idempotent fsPath rnd rnd2 ls : ∀ k k2 i count,
  stamp_lines fsPath rnd2 k2 i count (stamp_lines fsPath rnd k i count ls) =
  stamp_lines fsPath rnd k i count ls.
Proof.
  induction ls as [|l ls IH]; intros k k2 i count; [done|].
  cbn [stamp_lines]. destruct (count <? maxTodos)%nat eqn:Ec.
  2:{ cbn [stamp_lines]. by rewrite Ec. }
  destruct (parseLine fsPath rnd k i l) as [[t k']|] eqn:Ep.
  - destruct (stamped_line _ _ _ _ _ _ _ Ep) as (Hm & Hid & Hfix).
    destruct (parseLine_found fsPath rnd2 k2 i _ _ Hm Hid) as (t2 & Hp & Ht2).
    cbn [stamp_lines]. rewrite Ec, Hp, Ht2, Hfix. by rewrite IH.
  - cbn [stamp_lines]. rewrite Ec.
    apply parseLine_None in Ep.
    rewrite (proj2 (parseLine_None fsPath rnd2 k2 i l) Ep). by rewrite IH.
Qed.

(** X7.  Saving twice stamps once: the second extraction and injection
    leave the document of the first as it is, whatever the random source
    of the second. *)
Lemma stampDocument_idempotent rnd k rnd2 k2 d :
  stampDocument rnd2 k2 (stampDocument rnd k d) = stampDocument rnd k d.
Proof.
  assert (doc_lines (stampDocument rnd2 k2 (stampDocument rnd k d)) =
          doc_lines (stampDocument rnd k d)) as H.
  { rewrite stampDocument_lines. rewrite !stampDocument_lines. simpl.
    apply stamp_lines_idempotent. }
  unfold stampDocument at 1. unfold stampDocument at 1 in H. simpl in *.
  rewrite H. by destruct d.
Qed.

(** ** Detection of the identifier *)

Lemma is_tok_token_char c : is_tok c = true ↔ token_char c.
Proof. unfold token_char. split; intros H; char_solve. Qed.

Lemma upcase_I c : upcase c = 73 ↔ c = 105 ∨ c = 73.
Proof. split; intros H; char_solve. Qed.

Lemma upcase_D c : upcase c = 68 ↔ c = 100 ∨ c = 68.
Proof. split; intros H; char_solve. Qed.

Lemma occurs_at_0 line tok :
  occurs_at line 0 tok ↔ ∃ r, annot_at line = Some (tok, r).
Proof.
  split.
  - intros (pre & c1 & c2 & post & -> & Hn & H1 & H2 & Hne & Htok).
    destruct pre; [|done]. exists post. apply annot_at_Some.
    exists c1, c2. rewrite upcase_I, upcase_D. split_and!; try done.
    eapply Forall_impl; [done|]. intros c. by rewrite is_tok_token_char.
  - intros (r & H). apply annot_at_Some in H as (c1 & c2 & -> & H1 & H2 & Hne & Htok).
    exists [], c1, c2, r. rewrite <- upcase_I, <- upcase_D. split_and!; try done.
    eapply Forall_impl; [done|]. intros c. by rewrite is_tok_token_char.
Qed.

Lemma occurs_at_S c line n tok :
  occurs_at (c :: line) (S n) tok ↔ occurs_at line n tok.
Proof.
  split.
  - intros (pre & c1 & c2 & post & E & Hn & H).
    destruct pre as [|c' pre]; [done|]. simpl in E, Hn. inversion E; subst.
    exists pre, c1, c2, post. split_and!; [done|lia|apply H..].
  - intros (pre & c1 & c2 & post & -> & Hn & H).
    exists (c :: pre), c1, c2, post. split_and!; [done|simpl; lia|apply H..].
Qed.

Lemma occurs_at_nil n tok : ¬ occurs_at [] n tok.
Proof. intros (pre & c1 & c2 & post & E & _). by destruct pre. Qed.

(** C9, as the code has it.  The identifier detected on a line is the token
    of the leftmost annotation [[id:tok]] occurring anywhere in the line,
    where the letters of [id] are matched in either case and [tok] is a
    non-empty run of ASCII letters of either case, digits and hyphens closed
    by a bracket; nothing else is detected. *)
Theorem idRegex_match_leftmost line tok :
  idRegex_match line = Some tok ↔
  ∃ n, occurs_at line n tok ∧
       ∀ m tok', (m < n)%nat → ¬ occurs_at line m tok'.
Proof.
  revert tok. induction line as [|c line IH]; intros tok.
  - cbn [idRegex_match]. replace (annot_at []) with (@None (jstr * jstr)) by done.
    split; [done|]. intros (n & H & _). by apply occurs_at_nil in H.
  - cbn [idRegex_match]. destruct (annot_at (c :: line)) as [[t r]|] eqn:E.
    + assert (occurs_at (c :: line) 0 t) as H0 by (apply occurs_at_0; eauto).
      split.
      * intros [= ->]. exists 0%nat. split; [done|]. intros; lia.
      * intros ([|n] & H & Hl).
        -- apply occurs_at_0 in H as (r' & H). congruence.
        -- exfalso. apply (Hl 0%nat t); [lia|done].
    + assert (∀ tk, ¬ occurs_at (c :: line) 0 tk) as H0.
      { intros tk H. apply occurs_at_0 in H as (r' & H). congruence. }
      rewrite IH. split.
      * intros (n & H & Hl). exists (S n). split; [by apply occurs_at_S|].
        intros [|m] tk Hm; [apply H0|]. rewrite occurs_at_S. apply Hl. lia.
      * intros ([|n] & H & Hl); [by apply H0 in H|].
        exists n. split; [by apply occurs_at_S in H|].
        intros m tk Hm. rewrite <- (occurs_at_S c). apply Hl. lia.
Qed.

(** C9, as the specification words it, fails: the identifier of this line
    is detected although its annotation is not at the end of the line and
    its token is not made of lowercase hex digits and hyphens. *)
Lemma detection_neither_anchored_nor_hex :
  let line := lit "// TODO [id:Zq-9] later" in
  (todo_id ∘ fst) <$> parseLine (lit "a.js") zero_rnd 0 0 line = Some (lit "Zq-9") ∧
  idRegex_match line = Some (lit "Zq-9") ∧
  (∀ pre, line ≠ pre ++ lit "[id:Zq-9]") ∧
  forallb spec_token_char (lit "Zq-9") = false.
Proof.
  split_and!; [by vm_compute..| |by vm_compute].
  intros pre E. apply (f_equal last) in E. rewrite last_app in E.
  vm_compute in E. done.
Qed.

Example push_scenario_A :
  let t := sample "ab-1" "fix null check" 0 in
  syncTodos (scripted (Some []) (always true) (always true) (always true))
    creds [t] ∅ tt =
  (mkSyncResult [t] [] [], tt,
   [client_call (DatabasesQuery (lit "db"));
    createTodo_called t;
    client_call (DatabasesRetrieve (lit "db"));
    client_call (PagesCreate (lit "db")
      (mkProperties (lit "fix null check") (lit "TODO") (lit "Not started")
         (Some (lit "a.js")) (Some 1%nat) (Some (lit "ab-1"))))]).
Proof. vm_compute. reflexivity. Qed.

(** ** Plain objects *)

Lemma assoc_Some {V} (l : list (jstr * V)) k v :
  assoc l k = Some v → (k, v) ∈ l.
Proof.
  induction l as [|[k' v'] l IH]; [done|]. simpl.
  destruct (decide (k' = k)) as [->|]; [intros [= ->]; by left|].
  intros H. right. by apply IH.
Qed.

Lemma assoc_is_Some {V} (l : list (jstr * V)) k :
  is_Some (assoc l k) ↔ k ∈ l.*1.
Proof.
  induction l as [|[k' v'] l IH].
  - simpl. split; [by intros [? ?]|by intros ?%elem_of_nil].
  - simpl. rewrite elem_of_cons. destruct (decide (k' = k)) as [->|Hne].
    + split; [by left|by eexists].
    + rewrite IH. split; [by right|]. by intros [?|?].
Qed.

Lemma assoc_set_eq {V} (l : list (jstr * V)) k v :
  assoc (assoc_set l k v) k = Some v.
Proof.
  induction l as [|[k' v'] l IH]; simpl; [by rewrite decide_True|].
  destruct (decide (k' = k)) as [->|Hne]; simpl.
  - by rewrite decide_True.
  - by rewrite decide_False.
Qed.

Lemma assoc_set_ne {V} (l : list (jstr * V)) k k' v :
  k ≠ k' → assoc (assoc_set l k v) k' = assoc l k'.
Proof.
  intros Hne. induction l as [|[k0 v0] l IH]; simpl; [by rewrite decide_False|].
  destruct (decide (k0 = k)) as [->|Hne0]; simpl.
  - by rewrite !decide_False.
  - destruct (decide (k0 = k')); [done|apply IH].
Qed.

Lemma jsobj_lookup_empty {V} (k : jstr) : (∅ : jsobj V) !! k = None.
Proof. done. Qed.

Lemma obj_set_eq {V} (o : jsobj V) k v :
  k ≠ proto_key → obj_set o k v !! k = Some v.
Proof.
  intros H. unfold obj_set. rewrite bool_decide_eq_false_2 by done.
  apply assoc_set_eq.
Qed.

Lemma obj_set_proto {V} (o : jsobj V) v : obj_set o proto_key v = o.
Proof. done. Qed.

Lemma obj_set_ne {V} (o : jsobj V) k k' v :
  k ≠ k' → obj_set o k v !! k' = o !! k'.
Proof.
  intros H. unfold obj_set. destruct (bool_decide _); [done|].
  by apply assoc_set_ne.
Qed.

Lemma obj_set_Some {V} (o : jsobj V) k v k' v' :
  obj_set o k v !! k' = Some v' →
  k = k' ∧ v = v' ∧ k ≠ proto_key ∨ o !! k' = Some v'.
Proof.
  destruct (decide (k = k')) as [<-|Hne].
  - destruct (decide (k = proto_key)) as [->|Hp].
    + rewrite obj_set_proto. by right.
    + rewrite obj_set_eq by done. intros [= ->]. by left.
  - rewrite obj_set_ne by done. by right.
Qed.

Lemma assoc_set_keys {V} (l : list (jstr * V)) k v :
  (assoc_set l k v).*1 = if decide (k ∈ l.*1) then l.*1 else l.*1 ++ [k].
Proof.
  induction l as [|[k' v'] l IH]; [done|]. cbn [assoc_set].
  destruct (decide (k' = k)) as [->|E]; rewrite !fmap_cons; cbn [fst].
  - rewrite decide_True by by left. done.
  - rewrite IH. destruct (decide (k ∈ l.*1)) as [Hin|Hin].
    + rewrite decide_True by by right. done.
    + rewrite decide_False; [done|]. intros [?|?]%elem_of_cons; by subst.
Qed.

(** An assignment keeps the keys distinct and in their order. *)
Lemma obj_set_NoDup {V} (o : jsobj V) k v :
  NoDup (own o).*1 → NoDup (own (obj_set o k v)).*1.
Proof.
  intros H. unfold obj_set. destruct (bool_decide _); [done|]. simpl.
  rewrite assoc_set_keys. destruct (decide (k ∈ (own o).*1)); [done|].
  apply NoDup_app. split_and!; [done| |apply NoDup_singleton].
  intros x Hx ->%list_elem_of_singleton. done.
Qed.

Lemma elem_of_insert_by_index e e' l :
  e' ∈ insert_by_index e l ↔ e' = e ∨ e' ∈ l.
Proof.
  induction l as [|e0 l IH]; simpl.
  - rewrite list_elem_of_singleton, elem_of_nil. tauto.
  - destruct (e.1 <? e0.1)%N.
    + by rewrite elem_of_cons.
    + rewrite !elem_of_cons, IH. tauto.
Qed.

Lemma elem_of_sorted_by_index e l :
  e ∈ foldr insert_by_index [] l ↔ e ∈ l.
Proof.
  induction l as [|e0 l IH]; simpl; [done|].
  by rewrite elem_of_insert_by_index, elem_of_cons, IH.
Qed.

(** [Object.keys] lists exactly the own properties. *)
Lemma elem_of_obj_keys {V} (o : jsobj V) k :
  k ∈ obj_keys o ↔ is_Some (o !! k).
Proof.
  unfold obj_keys, lookup, jsobj_lookup. rewrite assoc_is_Some, elem_of_app.
  rewrite list_elem_of_fmap, list_elem_of_filter. split.
  - intros [([n k'] & -> & H)|[_ H]]; [|done].
    apply elem_of_sorted_by_index, list_elem_of_omap in H as (k0 & Hk0 & E).
    destruct (array_index k0); [|done]. simpl in E. by inversion E; subst.
  - intros H. destruct (array_index k) as [n|] eqn:E; [|by right].
    left. exists (n, k). split; [done|].
    apply elem_of_sorted_by_index, list_elem_of_omap. exists k.
    split; [done|]. by rewrite E.
Qed.

Lemma elem_of_obj_entries {V} (o : jsobj V) k v :
  (k, v) ∈ obj_entries o ↔ o !! k = Some v.
Proof.
  unfold obj_entries. rewrite list_elem_of_omap. split.
  - intros (k' & _ & H). destruct (o !! k') eqn:E; [|done].
    simpl in H. by inversion H; subst.
  - intros H. exists k. split; [|by rewrite H].
    apply elem_of_obj_keys. by eexists.
Qed.

(** ** The lookup tables of the push pass *)

Lemma index_tasks_snoc tasks tk :
  index_tasks (tasks ++ [tk]) =
    ((if truthy (task_customId tk)
         && negb (bool_decide (task_customId tk = proto_key))
      then <[task_customId tk := task_id tk]> (index_tasks tasks).1
      else (index_tasks tasks).1),
     <[task_id tk := tk]> (index_tasks tasks).2).
Proof.
  unfold index_tasks. rewrite foldl_snoc.
  by destruct (foldl _ _ tasks) as [ci bp].
Qed.

Lemma index_custom_Some tasks k p :
  (index_tasks tasks).1 !! k = Some p →
  ∃ tk, tk ∈ tasks ∧ task_customId tk = k ∧ task_id tk = p.
Proof.
  induction tasks as [|tk tasks IH] using rev_ind; [done|].
  rewrite index_tasks_snoc. simpl. intros H.
  assert ((index_tasks tasks).1 !! k = Some p → ∃ tk0,
            tk0 ∈ tasks ++ [tk] ∧ task_customId tk0 = k ∧ task_id tk0 = p) as IH'.
  { intros H'. destruct (IH H') as (tk0 & ? & ? & ?). exists tk0.
    split; [|done]. apply elem_of_app. by left. }
  destruct (truthy (task_customId tk) && _); [|by apply IH'].
  destruct (decide (task_customId tk = k)) as [E|E].
  - rewrite E, lookup_insert_eq in H. inversion H. exists tk.
    split; [|done]. apply elem_of_app. right. by apply list_elem_of_singleton.
  - rewrite lookup_insert_ne in H by done. by apply IH'.
Qed.


Lemma index_page_total tasks tk :
  tk ∈ tasks → is_Some ((index_tasks tasks).2 !! task_id tk).
Proof.
  induction tasks as [|tk0 tasks IH] using rev_ind; [by intros ?%elem_of_nil|].
  rewrite index_tasks_snoc. simpl. intros H.
  destruct (decide (task_id tk0 = task_id tk)) as [E|E].
  - rewrite E, lookup_insert_eq. by eexists.
  - rewrite lookup_insert_ne by done. apply IH.
    apply elem_of_app in H as [H|H]; [done|].
    apply list_elem_of_singleton in H. by subst.
Qed.


(** [customIdToPageId] has no own property [__proto__]. *)
Lemma index_custom_proto tasks :
  (index_tasks tasks).1 !! proto_key = None.
Proof.
  induction tasks as [|tk tasks IH] using rev_ind; [done|].
  rewrite index_tasks_snoc. simpl.
  destruct (truthy (task_customId tk)); simpl; [|done].
  destruct (bool_decide (task_customId tk = proto_key)) eqn:E; simpl; [done|].
  apply bool_decide_eq_false in E. by rewrite lookup_insert_ne.
Qed.

(** Under an own property of [customIdToPageId], the task read at line 359
    is there. *)
Lemma index_consistent tasks k p :
  (index_tasks tasks).1 !! k = Some p → is_Some ((index_tasks tasks).2 !! p).
Proof.
  intros H. apply index_custom_Some in H as (tk & Htk & _ & <-).
  by apply index_page_total.
Qed.

(** Line 363 throws only for an identifier that names a member of
    [Object.prototype] and is no own property of [customIdToPageId]. *)
Lemma throws_at_inherited tasks t :
  throws_at (index_tasks tasks).1 (index_tasks tasks).2 t = true →
  proto_member (todo_id t) = true ∧
  (index_tasks tasks).1 !! todo_id t = None ∧
  (index_tasks tasks).2 !! inherited_text (todo_id t) = None.
Proof.
  unfold throws_at, lookup_truthy. intros [_ H]%andb_true_iff.
  destruct ((index_tasks tasks).1 !! todo_id t) as [v|] eqn:E.
  - destruct (truthy v); [|done]. apply bool_decide_eq_true in H. simpl in H.
    destruct (index_consistent _ _ _ E) as [tk Htk]. congruence.
  - destruct (proto_member (todo_id t)); [|done].
    apply bool_decide_eq_true in H. done.
Qed.

Lemma proto_member_truthy k : proto_member k = true → truthy k = true.
Proof.
  intros H%bool_decide_eq_true. unfold proto_members in H.
  repeat (apply elem_of_cons in H as [->|H]; [done|]). by apply elem_of_nil in H.
Qed.

Lemma inherited_throws ci bp t :
  proto_member (todo_id t) = true → ci !! todo_id t = None →
  bp !! inherited_text (todo_id t) = None → throws_at ci bp t = true.
Proof.
  intros Hm Hci Hbp. unfold throws_at, lookup_truthy.
  rewrite (proto_member_truthy _ Hm), Hci, Hm. simpl.
  by apply bool_decide_eq_true_2.
Qed.

Lemma not_proto_member_no_throw tasks t :
  proto_member (todo_id t) = false →
  throws_at (index_tasks tasks).1 (index_tasks tasks).2 t = false.
Proof.
  intros H. destruct (throws_at _ _ t) eqn:E; [|done].
  apply throws_at_inherited in E as [E _]. congruence.
Qed.



Lemma mark_deleted_spec (customIdToPageId : gmap jstr jstr)
    (cachedTodos : jsobj todo) (cachedId : jstr) (ref : pageRef) :
  (cachedId, ref) ∈ mark_deleted customIdToPageId cachedTodos ↔
  ∃ t, cachedTodos !! cachedId = Some t ∧ ref = TodoObject t ∧
       lookup_truthy customIdToPageId cachedId = None.
Proof.
  unfold mark_deleted. rewrite list_elem_of_omap. split.
  - intros ([k t] & Hkt & H). apply elem_of_obj_entries in Hkt.
    destruct (lookup_truthy customIdToPageId k) eqn:E; [done|].
    inversion H; subst. by exists t.
  - intros (t & Hc & -> & Hl). exists (cachedId, t). split.
    + by apply elem_of_obj_entries.
    + by rewrite Hl.
Qed.

Lemma push_event_cons ci bp t todos e :
  push_event ci bp todos e → push_event ci bp (t :: todos) e.
Proof.
  destruct 1; [eapply pe_create|eapply pe_update|eapply pe_no_changes|eapply pe_client];
    eauto; by apply elem_of_cons; right.
Qed.

(** A remote record that has no numeric line number differs from every
    local record.  [createTodo] sends the line number as text, which
    [fetchNotionState] does not read back as a number. *)
Lemma missing_line_number_needs_update (tk : task) (t : todo) :
  task_lineNumber tk = None → needsUpdate tk t = true.
Proof.
  intros H. unfold needsUpdate. rewrite H.
  rewrite (bool_decide_eq_false_2 (None = Some _)) by done.
  simpl. by rewrite !orb_true_r.
Qed.

(** ** The log of a pass *)

Section PushProperties.

Context {World : Type} (notion : request → World → response * World).

Ltac run :=
  unfold createTodo, updateTodo, deleteTodo, listDatabaseProperties,
    fetchNotionState, bind, tell, ret, call in *; simpl in *.

Lemma fetchNotionState_log c w :
  Forall is_client (fetchNotionState notion c w).2.
Proof.
  run. destruct (negb (configured c)); [done|].
  destruct (notion _ w) as [resp w1]. destruct resp; simpl;
    repeat constructor; by eexists.
Qed.

Lemma listDatabaseProperties_log c w :
  Forall is_client (listDatabaseProperties notion c w).2.
Proof.
  run. destruct (negb (configured c)); [done|].
  destruct (notion _ w) as [resp w1]. destruct resp; simpl;
    repeat constructor; by eexists.
Qed.

Lemma createTodo_log c t w :
  ∃ l, (createTodo notion c t w).2 = createTodo_called t :: l ∧
       Forall is_client l.
Proof.
  pose proof (listDatabaseProperties_log c w) as Hl. run.
  destruct (negb (configured c)); [by eexists|].
  destruct (notion (DatabasesRetrieve _) w) as [resp w1].
  destruct resp; simpl in *;
    destruct (notion (PagesCreate _ _) w1) as [resp2 w2];
    destruct resp2; simpl; eexists; (split; [done|]);
    repeat constructor; by eexists.
Qed.

Lemma updateTodo_log c p t w :
  ∃ l, (updateTodo notion c p t w).2 = updateTodo_called p t :: l ∧
       Forall is_client l.
Proof.
  run. destruct (negb (truthy (token c))); [by eexists|].
  destruct (negb (configured c)); simpl.
  - destruct (notion (PagesUpdate _ _) w) as [resp2 w2].
    destruct resp2; simpl; eexists; (split; [done|]);
      repeat constructor; by eexists.
  - destruct (notion (DatabasesRetrieve _) w) as [resp w1].
    destruct resp; simpl in *;
      destruct (notion (PagesUpdate _ _) w1) as [resp2 w2];
      destruct resp2; simpl; eexists; (split; [done|]);
      repeat constructor; by eexists.
Qed.

Lemma deleteTodo_log c ref w :
  ∃ l, (deleteTodo notion c ref w).2 = deleteTodo_called ref :: l ∧
       Forall is_client l.
Proof.
  run. destruct (negb (truthy (token c))); [by eexists|].
  destruct (notion (PagesUpdate _ _) w) as [resp2 w2].
  destruct resp2; simpl; eexists; (split; [done|]);
    repeat constructor; by eexists.
Qed.

Lemma client_push_event ci bp todos l :
  Forall is_client l → Forall (push_event ci bp todos) l.
Proof.
  intros H. eapply Forall_impl; [done|]. intros e [r ->]. apply pe_client.
Qed.

Lemma no_throw_lookup ci bp t p :
  truthy (todo_id t) = true → lookup_truthy ci (todo_id t) = Some p →
  throws_at ci bp t = false → is_Some (bp !! key_text p).
Proof.
  unfold throws_at. intros -> ->. simpl. intros H%bool_decide_eq_false.
  by destruct (bp !! key_text p); [eexists|].
Qed.

Lemma throw_lookup ci bp t :
  throws_at ci bp t = true →
  truthy (todo_id t) = true ∧
  ∃ p, lookup_truthy ci (todo_id t) = Some p ∧ bp !! key_text p = None.
Proof.
  unfold throws_at. intros [Ht H]%andb_true_iff. split; [done|].
  destruct (lookup_truthy ci (todo_id t)) as [p|]; [|done].
  exists p. split; [done|]. by apply bool_decide_eq_true in H.
Qed.

Lemma push_loop_log c ci bp todos cr up w :
  Forall (push_event ci bp todos) (push_loop notion c ci bp todos cr up w).2.
Proof.
  revert cr up w. induction todos as [|t todos IH]; intros cr up w; [done|].
  assert (∀ cr up w, Forall (push_event ci bp (t :: todos))
            (push_loop notion c ci bp todos cr up w).2) as IH'.
  { intros. eapply Forall_impl; [apply IH|]. apply push_event_cons. }
  cbn [push_loop].
  destruct (truthy (todo_id t)) eqn:Ht; simpl; [|apply IH'].
  destruct (lookup_truthy ci (todo_id t)) as [p|] eqn:Hp.
  - destruct (bp !! key_text p) as [tk|] eqn:Htk; [|done].
    destruct (needsUpdate tk t) eqn:Hn.
    + unfold bind at 1.
      destruct (updateTodo_log c p t w) as (l & Hl & Hc).
      destruct (updateTodo notion c p t w) as [[ok w1] l1]. simpl in Hl. subst l1.
      specialize (IH' cr (if ok then up ++ [t] else up) w1).
      destruct (push_loop _ _ _ _ _ _ _ _) as [[res w2] l2]. simpl in *.
      constructor; [eapply pe_update; eauto; by left|].
      apply Forall_app_2; [by apply client_push_event|done].
    + unfold bind at 1, tell. specialize (IH' cr up w).
      destruct (push_loop _ _ _ _ _ _ _ _) as [[res w2] l2]. simpl in *.
      constructor; [eapply pe_no_changes; eauto; by left|done].
  - unfold bind at 1.
    destruct (createTodo_log c t w) as (l & Hl & Hc).
    destruct (createTodo notion c t w) as [[newId w1] l1]. simpl in Hl. subst l1.
    specialize (IH' (if truthy (default [] newId) then cr ++ [t] else cr) up w1).
    destruct (push_loop _ _ _ _ _ _ _ _) as [[res w2] l2]. simpl in *.
    constructor; [eapply pe_create; eauto; by left|].
    apply Forall_app_2; [by apply client_push_event|done].
Qed.

(** One turn of the loop for a record at which line 363 does not throw:
    the decision is logged first, and the loop goes on with the records
    that follow. *)
Lemma push_loop_step c ci bp t cr up w :
  throws_at ci bp t = false →
  ∃ l cr' up' w',
    (∀ todos,
       push_loop notion c ci bp (t :: todos) cr up w =
         ((push_loop notion c ci bp todos cr' up' w').1,
          l ++ (push_loop notion c ci bp todos cr' up' w').2)) ∧
    (truthy (todo_id t) = true →
       createTodo_called t ∈ l ∨ (∃ p, updateTodo_called p t ∈ l) ∨
       debug_no_changes t ∈ l).
Proof.
  intros Hth.
  destruct (truthy (todo_id t)) eqn:Ht; cycle 1.
  { exists [], cr, up, w. split; [|done]. intros todos. cbn [push_loop].
    rewrite Ht. simpl. by destruct (push_loop _ _ _ _ _ _ _ _) as [[? ?] ?]. }
  destruct (lookup_truthy ci (todo_id t)) as [p|] eqn:Hp.
  - destruct (no_throw_lookup _ _ _ _ Ht Hp Hth) as [tk Htk].
    destruct (needsUpdate tk t) eqn:Hn.
    + destruct (updateTodo_log c p t w) as (l & Hl & Hc).
      destruct (updateTodo notion c p t w) as [[ok w1] l1] eqn:Eu.
      simpl in Hl. subst l1.
      exists (updateTodo_called p t :: l), cr, (if ok then up ++ [t] else up), w1.
      split; [|intros _; right; left; exists p; by left].
      intros todos. cbn [push_loop]. rewrite Ht, Hp, Htk, Hn. simpl.
      unfold bind at 1. rewrite Eu.
      by destruct (push_loop _ _ _ _ _ _ _ _) as [[res w2] l2].
    + exists [debug_no_changes t], cr, up, w.
      split; [|intros _; right; right; by left].
      intros todos. cbn [push_loop]. rewrite Ht, Hp, Htk, Hn. simpl.
      unfold bind at 1, tell.
      by destruct (push_loop _ _ _ _ _ _ _ _) as [[res w2] l2].
  - destruct (createTodo_log c t w) as (l & Hl & Hc).
    destruct (createTodo notion c t w) as [[newId w1] l1] eqn:Ec.
    simpl in Hl. subst l1.
    exists (createTodo_called t :: l),
      (if truthy (default [] newId) then cr ++ [t] else cr), up, w1.
    split; [|intros _; left; by left].
    intros todos. cbn [push_loop]. rewrite Ht, Hp. simpl.
    unfold bind at 1. rewrite Ec.
    by destruct (push_loop _ _ _ _ _ _ _ _) as [[res w2] l2].
Qed.

(** The loop stops at the first record at which line 363 throws. *)
Lemma push_loop_throw c ci bp t todos cr up w :
  throws_at ci bp t = true →
  push_loop notion c ci bp (t :: todos) cr up w = (None, w, []).
Proof.
  intros (Ht & p & Hp & Hbp)%throw_lookup. cbn [push_loop].
  by rewrite Ht, Hp, Hbp.
Qed.

(** The loop decides on the record at every position that it reaches,
    whatever the outcome of the calls made for the records before it. *)
Lemma push_loop_reached c ci bp todos cr up w n t :
  todos !! n = Some t → reached ci bp todos n = true →
  throws_at ci bp t = false → truthy (todo_id t) = true →
  createTodo_called t ∈ (push_loop notion c ci bp todos cr up w).2 ∨
  (∃ p, updateTodo_called p t ∈ (push_loop notion c ci bp todos cr up w).2) ∨
  debug_no_changes t ∈ (push_loop notion c ci bp todos cr up w).2.
Proof.
  revert n cr up w. induction todos as [|t0 todos IH]; intros n cr up w; [done|].
  destruct n as [|n].
  - intros [= ->] _ Hth Ht.
    destruct (push_loop_step c ci bp t cr up w Hth)
      as (l & cr' & up' & w' & -> & Hl). simpl.
    destruct (Hl Ht) as [H|[[p H]|H]].
    + left. apply elem_of_app. by left.
    + right; left. exists p. apply elem_of_app. by left.
    + right; right. apply elem_of_app. by left.
  - intros Hn Hr Hth Ht. unfold reached in Hr. simpl in Hn, Hr.
    apply andb_true_iff in Hr as [Hth0 Hr]. apply negb_true_iff in Hth0.
    destruct (push_loop_step c ci bp t0 cr up w Hth0)
      as (l & cr' & up' & w' & -> & _). simpl.
    destruct (IH n cr' up' w' Hn Hr Hth Ht) as [H|[[p H]|H]].
    + left. apply elem_of_app. by right.
    + right; left. exists p. apply elem_of_app. by right.
    + right; right. apply elem_of_app. by right.
Qed.

Lemma reached_no_throw ci bp todos n :
  Forall (λ t, throws_at ci bp t = false) todos → reached ci bp todos n = true.
Proof.
  intros H. unfold reached. revert n.
  induction H as [|t todos Ht H IH]; intros [|n]; simpl; try done.
  by rewrite Ht, IH.
Qed.

(** When line 363 throws for no record, the loop runs to its end and
    decides on every record that has an identifier. *)
Lemma push_loop_total c ci bp todos cr up w :
  Forall (λ t, throws_at ci bp t = false) todos →
  is_Some (push_loop notion c ci bp todos cr up w).1.1 ∧
  ∀ t, t ∈ todos → truthy (todo_id t) = true →
    createTodo_called t ∈ (push_loop notion c ci bp todos cr up w).2 ∨
    (∃ p, updateTodo_called p t ∈ (push_loop notion c ci bp todos cr up w).2) ∨
    debug_no_changes t ∈ (push_loop notion c ci bp todos cr up w).2.
Proof.
  intros Hall. split.
  - revert cr up w. induction Hall as [|t todos Hth Hall IH]; intros cr up w.
    + by eexists.
    + destruct (push_loop_step c ci bp t cr up w Hth)
        as (l & cr' & up' & w' & -> & _). simpl. apply IH.
  - intros t [n Hn]%list_elem_of_lookup Ht.
    eapply push_loop_reached; [done|by apply reached_no_throw| |done].
    eapply Forall_forall in Hall; [done|]. by eapply list_elem_of_lookup_2.
Qed.

(** The loop is left through the [catch] exactly when line 363 throws for
    some record. *)
Lemma push_loop_aborts c ci bp todos cr up w :
  (push_loop notion c ci bp todos cr up w).1.1 = None ↔
  Exists (λ t, throws_at ci bp t = true) todos.
Proof.
  revert cr up w. induction todos as [|t todos IH]; intros cr up w.
  - simpl. split; [done|]. by intros ?%Exists_nil.
  - rewrite Exists_cons. destruct (throws_at ci bp t) eqn:Hth.
    + rewrite push_loop_throw by done. simpl. split; [by left|done].
    + destruct (push_loop_step c ci bp t cr up w Hth)
        as (l & cr' & up' & w' & -> & _). simpl. rewrite IH.
      split; [by right|]. by intros [?|?].
Qed.

(** The loop ends at the first record at which line 363 throws: the
    records after it are not looked at. *)
Lemma push_loop_stops c ci bp todos n t : ∀ cr up w,
  todos !! n = Some t → reached ci bp todos n = true →
  throws_at ci bp t = true →
  push_loop notion c ci bp todos cr up w =
    (None, (push_loop notion c ci bp (take n todos) cr up w).1.2,
     (push_loop notion c ci bp (take n todos) cr up w).2).
Proof.
  revert n. induction todos as [|t0 todos IH]; intros n cr up w; [done|].
  destruct n as [|n].
  - intros [= ->] _ Hth. by rewrite push_loop_throw.
  - intros Hn Hr Hth. unfold reached in Hr. simpl in Hn, Hr.
    apply andb_true_iff in Hr as [Hth0 Hr]. apply negb_true_iff in Hth0.
    destruct (push_loop_step c ci bp t0 cr up w Hth0)
      as (l & cr' & up' & w' & Hstep & _).
    cbn [take]. rewrite !Hstep, (IH n cr' up' w' Hn Hr Hth). done.
Qed.

End PushProperties.

Section SyncProperties.

Context {World : Type} (notion : request → World → response * World).

Lemma mark_loop_run marked (w : World) :
  mark_loop marked w = (tt, w, marked_event <$> marked).
Proof.
  induction marked as [|[cid ref] marked IH]; [done|].
  cbn [mark_loop]. unfold bind, tell. by rewrite IH.
Qed.

Lemma delete_loop_log c dels w e :
  e ∈ (delete_loop notion c dels w).2 →
  (∃ ref, ref ∈ dels ∧ e = deleteTodo_called ref) ∨ is_client e.
Proof.
  revert w. induction dels as [|ref dels IH]; intros w; [by intros ?%elem_of_nil|].
  cbn [delete_loop]. unfold bind.
  destruct (deleteTodo_log notion c ref w) as (l & Hl & Hc).
  destruct (deleteTodo notion c ref w) as [[ok w1] l1]. simpl in Hl. subst l1.
  specialize (IH w1). destruct (delete_loop notion c dels w1) as [[u w2] l2].
  simpl in *. intros [->|[H|H]%elem_of_app]%elem_of_cons.
  - left. exists ref. split; [by left|done].
  - right. by eapply Forall_forall in Hc.
  - destruct (IH H) as [(ref' & ? & ->)|?]; [|by right].
    left. exists ref'. split; [by right|done].
Qed.

Lemma delete_loop_calls c dels w ref :
  ref ∈ dels → deleteTodo_called ref ∈ (delete_loop notion c dels w).2.
Proof.
  revert w. induction dels as [|ref' dels IH]; intros w; [by intros ?%elem_of_nil|].
  cbn [delete_loop]. unfold bind.
  destruct (deleteTodo_log notion c ref' w) as (l & Hl & Hc).
  destruct (deleteTodo notion c ref' w) as [[ok w1] l1]. simpl in Hl. subst l1.
  specialize (IH w1). destruct (delete_loop notion c dels w1) as [[u w2] l2].
  simpl in *. intros [->|H]%elem_of_cons; [by left|].
  right. apply elem_of_app. right. by apply IH.
Qed.

Lemma syncTodos_unconfigured c todos cached w :
  configured c = false →
  syncTodos notion c todos cached w = (empty_result, w, []).
Proof. intros H. unfold syncTodos. by rewrite H. Qed.

(** A configured pass, step by step.  When the loop over the current
    records throws, the [catch] of line 429 returns three empty lists:
    nothing is marked and no archival is called, and the calls made
    before stay made. *)
Lemma syncTodos_run c todos cached w :
  configured c = true →
  let fetched := fetchNotionState notion c w in
  let marked := mark_deleted (remote_index notion c w) cached in
  ∃ pushed w2 lp,
    push_loop notion c (remote_index notion c w) (remote_by_key notion c w) todos [] []
      fetched.1.2 = (pushed, w2, lp) ∧
    match pushed with
    | Some (cr, up) =>
        ∃ w3 ld,
          delete_loop notion c marked.*2 w2 = (tt, w3, ld) ∧
          syncTodos notion c todos cached w =
            (mkSyncResult cr up marked.*2, w3,
             fetched.2 ++ lp ++ (marked_event <$> marked) ++ ld)
    | None =>
        syncTodos notion c todos cached w = (empty_result, w2, fetched.2 ++ lp)
    end.
Proof.
  intros Hc fetched marked. subst fetched marked.
  unfold syncTodos, remote_index, remote_by_key. rewrite Hc. simpl.
  unfold bind.
  destruct (fetchNotionState notion c w) as [[tasks w1] l1]. simpl.
  destruct (index_tasks tasks) as [ci bp] eqn:Ei. simpl.
  destruct (push_loop notion c ci bp todos [] [] w1) as [[pushed w2] lp].
  exists pushed, w2, lp. split; [done|].
  destruct pushed as [[cr up]|]; simpl.
  - rewrite mark_loop_run.
    destruct (delete_loop notion c (mark_deleted ci cached).*2 w2)
      as [[[] w3] ld] eqn:Ed.
    exists w3, ld. split; [done|]. simpl. by rewrite ?app_nil_r.
  - unfold ret. simpl. by rewrite ?app_nil_r.
Qed.

(** A pass in which line 363 throws for no record. *)
Lemma syncTodos_run_complete c todos cached w :
  configured c = true →
  Forall (λ t, throws_at (remote_index notion c w) (remote_by_key notion c w) t
               = false) todos →
  let fetched := fetchNotionState notion c w in
  let marked := mark_deleted (remote_index notion c w) cached in
  ∃ cr up w2 lp w3 ld,
    push_loop notion c (remote_index notion c w) (remote_by_key notion c w) todos [] []
      fetched.1.2 = (Some (cr, up), w2, lp) ∧
    delete_loop notion c marked.*2 w2 = (tt, w3, ld) ∧
    syncTodos notion c todos cached w =
      (mkSyncResult cr up marked.*2, w3,
       fetched.2 ++ lp ++ (marked_event <$> marked) ++ ld).
Proof.
  intros Hc Hall fetched marked. subst fetched marked.
  destruct (syncTodos_run c todos cached w Hc) as (pushed & w2 & lp & Hp & H).
  destruct (push_loop_total notion c (remote_index notion c w)
              (remote_by_key notion c w) todos [] []
              (fetchNotionState notion c w).1.2 Hall) as [[res Hres] _].
  rewrite Hp in Hres. simpl in Hres. subst pushed. destruct res as [cr up].
  destruct H as (w3 & ld & Hd & E). by exists cr, up, w2, lp, w3, ld.
Qed.

(** A pass in which line 363 throws. *)
Lemma syncTodos_run_aborted c todos cached w :
  configured c = true →
  Exists (λ t, throws_at (remote_index notion c w) (remote_by_key notion c w) t
               = true) todos →
  ∃ w2 lp,
    push_loop notion c (remote_index notion c w) (remote_by_key notion c w) todos [] []
      (fetchNotionState notion c w).1.2 = (None, w2, lp) ∧
    syncTodos notion c todos cached w =
      (empty_result, w2, (fetchNotionState notion c w).2 ++ lp).
Proof.
  intros Hc Hex.
  destruct (syncTodos_run c todos cached w Hc) as (pushed & w2 & lp & Hp & H).
  apply (push_loop_aborts notion c _ _ _ [] [] (fetchNotionState notion c w).1.2)
    in Hex.
  rewrite Hp in Hex. simpl in Hex. subst pushed. by exists w2, lp.
Qed.

Lemma not_all_Exists_throw ci bp (todos : list todo) :
  ¬ Forall (λ t, throws_at ci bp t = false) todos →
  Exists (λ t, throws_at ci bp t = true) todos.
Proof.
  intros H. induction todos as [|t todos IH]; [by destruct H|].
  destruct (throws_at ci bp t) eqn:E; [by left|].
  right. apply IH. intros Hall. apply H. by constructor.
Qed.

(** The events of the loop over the current records are part of the log
    of the pass. *)
Lemma push_log_in_pass c todos cached w e :
  configured c = true →
  e ∈ (push_loop notion c (remote_index notion c w) (remote_by_key notion c w)
         todos [] [] (fetchNotionState notion c w).1.2).2 →
  e ∈ (syncTodos notion c todos cached w).2.
Proof.
  intros Hc He.
  destruct (syncTodos_run c todos cached w Hc) as (pushed & w2 & lp & Hp & H).
  rewrite Hp in He. simpl in He.
  destruct pushed as [[cr up]|]; [destruct H as (w3 & ld & _ & ->)|rewrite H];
    simpl; apply elem_of_app; right; [apply elem_of_app; by left|done].
Qed.

(** Every event of a pass, by origin. *)
Lemma syncTodos_events c todos cached w e :
  e ∈ (syncTodos notion c todos cached w).2 →
  is_client e ∨
  push_event (remote_index notion c w) (remote_by_key notion c w) todos e ∨
  ∃ m, m ∈ mark_deleted (remote_index notion c w) cached ∧
       (e = marked_event m ∨ e = deleteTodo_called m.2).
Proof.
  destruct (configured c) eqn:Hc; cycle 1.
  { rewrite syncTodos_unconfigured by done. by intros ?%elem_of_nil. }
  destruct (syncTodos_run c todos cached w Hc) as (pushed & w2 & lp & Hp & H).
  pose proof (push_loop_log notion c (remote_index notion c w)
    (remote_by_key notion c w) todos [] [] (fetchNotionState notion c w).1.2) as Hl.
  rewrite Hp in Hl. simpl in Hl.
  pose proof (fetchNotionState_log notion c w) as Hf.
  destruct pushed as [[cr up]|].
  - destruct H as (w3 & ld & Hd & ->). simpl.
    intros [H|[H|[H|H]%elem_of_app]%elem_of_app]%elem_of_app.
    + left. by eapply Forall_forall in Hf.
    + right; left. by eapply Forall_forall in Hl.
    + right; right. apply list_elem_of_fmap in H as (m & -> & Hm). eauto.
    + pose proof (delete_loop_log c (mark_deleted (remote_index notion c w) cached).*2
        w2 e) as Hdl. rewrite Hd in Hdl.
      destruct (Hdl H) as [(ref & Hr & ->)|?]; [|by left].
      right; right. apply list_elem_of_fmap in Hr as (m & -> & Hm). eauto.
  - rewrite H. simpl. intros [H'|H']%elem_of_app.
    + left. by eapply Forall_forall in Hf.
    + right; left. by eapply Forall_forall in Hl.
Qed.

(** An aborted pass marks nothing and calls no archival. *)
Lemma aborted_pass_events c todos cached w e :
  Exists (λ t, throws_at (remote_index notion c w) (remote_by_key notion c w) t
               = true) todos →
  e ∈ (syncTodos notion c todos cached w).2 →
  is_client e ∨
  push_event (remote_index notion c w) (remote_by_key notion c w) todos e.
Proof.
  intros Hex. destruct (configured c) eqn:Hc; cycle 1.
  { rewrite syncTodos_unconfigured by done. by intros ?%elem_of_nil. }
  destruct (syncTodos_run_aborted c todos cached w Hc Hex) as (w2 & lp & Hp & ->).
  pose proof (push_loop_log notion c (remote_index notion c w)
    (remote_by_key notion c w) todos [] [] (fetchNotionState notion c w).1.2) as Hl.
  rewrite Hp in Hl. simpl in Hl.
  pose proof (fetchNotionState_log notion c w) as Hf.
  simpl. intros [H'|H']%elem_of_app.
  - left. by eapply Forall_forall in Hf.
  - right. by eapply Forall_forall in Hl.
Qed.

(** [createTodo] is called only for identifiers without an entry in the
    remote index. *)
Lemma created_only_if_unindexed (c : credentials) (todos : list todo)
    (cached : jsobj todo) (w : World) (t : todo) :
  createTodo_called t ∈ (syncTodos notion c todos cached w).2 →
  lookup_truthy (remote_index notion c w) (todo_id t) = None.
Proof.
  intros Hin.
  apply syncTodos_events in Hin as [[q Hq]|[Hq|(m & _ & [Hq|Hq])]]; try done.
  by inversion Hq.
Qed.

(** C2.  A local record whose identifier is in the remote-by-identifier
    index fetched at the start of the pass, under a non-empty remote key,
    is never passed to [createTodo]: the pass makes no creation for that
    identifier. *)
Theorem join_never_creates (c : credentials) (todos : list todo)
    (cached : jsobj todo) (w : World) (r : todo) (pid : jstr) :
  remote_index notion c w !! todo_id r = Some pid → pid ≠ [] →
  ∀ r', todo_id r' = todo_id r →
    createTodo_called r' ∉ (syncTodos notion c todos cached w).2.
Proof.
  intros Hidx Hpid r' Hr' Hin. apply created_only_if_unindexed in Hin.
  unfold lookup_truthy in Hin. rewrite Hr', Hidx in Hin. by destruct pid.
Qed.


(** X13.  Which cached records a pass marks.  The pass logs the mark for
    a cached identifier exactly when the credentials are configured, line
    363 throws for none of the current records, and the value read from
    the index for the identifier is falsy: the index has no page for it
    and the identifier names no member of [Object.prototype].  The value
    logged is the cached record. *)
Lemma marked_for_deletion_iff (c : credentials) (todos : list todo)
    (cached : jsobj todo) (w : World) (ref : pageRef) (cid : jstr) :
  debug_marked_for_deletion ref cid ∈ (syncTodos notion c todos cached w).2 ↔
  configured c = true ∧
  Forall (λ t, throws_at (remote_index notion c w) (remote_by_key notion c w) t
               = false) todos ∧
  ∃ t, cached !! cid = Some t ∧ ref = TodoObject t ∧
       lookup_truthy (remote_index notion c w) cid = None.
Proof.
  split.
  - intros Hin. destruct (configured c) eqn:Hc; cycle 1.
    { rewrite syncTodos_unconfigured in Hin by done. by apply elem_of_nil in Hin. }
    split; [done|].
    destruct (decide (Forall (λ t, throws_at (remote_index notion c w)
                (remote_by_key notion c w) t = false) todos)) as [Hall|Hex].
    + split; [done|].
      apply syncTodos_events in Hin as [[q Hq]|[Hq|(m & Hm & [Hq|Hq])]]; try done.
      { inversion Hq. }
      destruct m as [cid' ref']. inversion Hq; subst.
      by apply mark_deleted_spec in Hm.
    + apply not_all_Exists_throw in Hex.
      apply (aborted_pass_events c todos cached w _ Hex) in Hin as [[q Hq]|Hq];
        [done|inversion Hq].
  - intros (Hc & Hall & t & Hcache & -> & Hl).
    destruct (syncTodos_run_complete c todos cached w Hc Hall)
      as (cr & up & w2 & lp & w3 & ld & Hp & Hd & ->). simpl.
    apply elem_of_app. right. apply elem_of_app. right. apply elem_of_app. left.
    apply list_elem_of_fmap. exists (cid, TodoObject t). split; [done|].
    apply mark_deleted_spec. eauto.
Qed.

(** X29.  A record that ends the pass.  A current record whose identifier
    names a member of [Object.prototype], such as [constructor], while the
    snapshot has no page with that TODO_ID and no page whose id is the
    text of the member: [customIdToPageId[todo.id]] is the inherited
    member, [notionTaskByPageId] has nothing under it, and line 363
    throws.  The pass ends there through the [catch] of line 429: it
    returns three empty lists, its calls and log lines are those of the
    fetch and of the records before that one, the records after it get no
    decision, and nothing is marked or archived. *)
Theorem inherited_identifier_ends_pass (c : credentials) (todos : list todo)
    (cached : jsobj todo) (w : World) (n : nat) (t : todo) :
  configured c = true → todos !! n = Some t →
  reached (remote_index notion c w) (remote_by_key notion c w) todos n = true →
  proto_member (todo_id t) = true →
  remote_index notion c w !! todo_id t = None →
  remote_by_key notion c w !! inherited_text (todo_id t) = None →
  let before :=
    push_loop notion c (remote_index notion c w) (remote_by_key notion c w)
      (take n todos) [] [] (fetchNotionState notion c w).1.2 in
  syncTodos notion c todos cached w =
    (empty_result, before.1.2, (fetchNotionState notion c w).2 ++ before.2).
Proof.
  intros Hc Hn Hreach Hm Hci Hbp before. subst before.
  pose proof (inherited_throws _ _ t Hm Hci Hbp) as Hth.
  destruct (syncTodos_run c todos cached w Hc) as (pushed & w2 & lp & Hp & H).
  rewrite (push_loop_stops notion c _ _ todos n t [] [] _ Hn Hreach Hth) in Hp.
  inversion Hp; subst. done.
Qed.

(** A failed query leaves the snapshot empty. *)
Lemma fetchNotionState_failure c w message w' :
  notion (DatabasesQuery (databaseId c)) w = (Failed message, w') →
  (fetchNotionState notion c w).1.1 = [].
Proof.
  intros H. unfold fetchNotionState, bind, call, ret.
  destruct (negb (configured c)); [done|]. by rewrite H.
Qed.

End SyncProperties.

Lemma join_never_creates_witness :
  let r := sample "abc-123" "handle edge case" 0 in
  createTodo_called r ∉
    (syncTodos (scripted (Some [page_of "page-1" r]) (always true) (always true)
                  (always true)) creds [r] ∅ tt).2.
Proof.
  intros r.
  apply (join_never_creates
           (scripted (Some [page_of "page-1" r]) (always true) (always true)
              (always true)) creds [r] ∅ tt r (lit "page-1")).
  - vm_compute. reflexivity.
  - discriminate.
  - reflexivity.
Defined.

Lemma inherited_identifier_ends_pass_witness :
  let first := sample "ab-1" "fix null check" 0 in
  let second := sample "constructor" "build it" 1 in
  let third := sample "abc-123" "handle edge case" 2 in
  let gone := sample "xyz-999" "remove me" 4 in
  let remote := scripted (Some [page_of "page-1" third]) (always true) (always true)
                  (always true) in
  syncTodos remote creds [first; second; third] (cache_of [gone]) tt =
  (empty_result, tt,
   [client_call (DatabasesQuery (lit "db"));
    createTodo_called first;
    client_call (DatabasesRetrieve (lit "db"));
    client_call (PagesCreate (lit "db")
      (mkProperties (lit "fix null check") (lit "TODO") (lit "Not started")
         (Some (lit "a.js")) (Some 1%nat) (Some (lit "ab-1"))))]).
Proof.
  intros first second third gone remote.
  etrans.
  - apply (inherited_identifier_ends_pass remote creds [first; second; third]
             (cache_of [gone]) tt 1 second); reflexivity.
  - vm_compute. reflexivity.
Defined.


(** ** The pass on the inputs where it departs from the specification *)

(** C1.  A record that the previous pass cached and that is still in the
    buffer, while the remote index has no entry for it (its creation failed
    before, or the remote record was removed): the pass creates it and, in
    the same pass, marks it for deletion and calls the archival with it. *)
Lemma present_record_created_and_marked_deleted :
  let t := sample "ab-1" "fix null check" 0 in
  syncTodos all_ok creds [t] (cache_of [t]) tt =
  (mkSyncResult [t] [] [TodoObject t], tt,
   [client_call (DatabasesQuery (lit "db"));
    createTodo_called t;
    client_call (DatabasesRetrieve (lit "db"));
    client_call (PagesCreate (lit "db")
      (mkProperties (lit "fix null check") (lit "TODO") (lit "Not started")
         (Some (lit "a.js")) (Some 1%nat) (Some (lit "ab-1"))));
    debug_marked_for_deletion (TodoObject t) (lit "ab-1");
    deleteTodo_called (TodoObject t);
    client_call (PagesUpdate (TodoObject t) (SetArchived true))]).
Proof. vm_compute. reflexivity. Qed.

(** C3.  The query fails: the snapshot is empty, and the pass marks every
    cached record for deletion although both are still in the buffer. *)
Lemma failed_fetch_marks_every_cached_record :
  let ta := sample "aa-1" "first" 0 in
  let tb := sample "bb-2" "second" 1 in
  let remote := scripted None (always true) (always true) (always true) in
  (fetchNotionState remote creds tt).1.1 = [] ∧
  deleted (syncTodos remote creds [ta; tb] (cache_of [ta; tb]) tt).1.1
    ≡ₚ [TodoObject ta; TodoObject tb] ∧
  created (syncTodos remote creds [ta; tb] (cache_of [ta; tb]) tt).1.1 = [ta; tb].
Proof.
  intros ta tb remote. split_and!.
  - vm_compute. reflexivity.
  - vm_compute. reflexivity.
  - vm_compute. reflexivity.
Qed.

(** C6.  Scenario D.  The line of [xyz-999] is gone from the buffer and the
    cache still lists it.  While the remote record exists, nothing is
    marked and nothing is archived.  Once the remote index has no entry
    for it, the archival is called with the cached record, not with a
    remote key. *)
Lemma archive_not_called_with_remote_key :
  let keep := sample "abc-123" "handle edge case" 0 in
  let gone := sample "xyz-999" "remove me" 4 in
  syncTodos (scripted (Some [page_of "page-1" keep; page_of "page-9" gone])
               (always true) (always true) (always true))
    creds [keep] (cache_of [keep; gone]) tt =
  (mkSyncResult [] [] [], tt,
   [client_call (DatabasesQuery (lit "db")); debug_no_changes keep]) ∧
  syncTodos (scripted (Some [page_of "page-1" keep])
               (always true) (always true) (always true))
    creds [keep] (cache_of [keep; gone]) tt =
  (mkSyncResult [] [] [TodoObject gone], tt,
   [client_call (DatabasesQuery (lit "db")); debug_no_changes keep;
    debug_marked_for_deletion (TodoObject gone) (lit "xyz-999");
    deleteTodo_called (TodoObject gone);
    client_call (PagesUpdate (TodoObject gone) (SetArchived true))]).
Proof. split; vm_compute; reflexivity. Qed.

(** C8.  The creation of [first] fails and the archival fails.  The second
    record is still attempted and recorded and the failed creation is left
    out of [created]; the failed archival is reported in [deleted]. *)
Lemma failed_archive_still_reported_deleted :
  let first := sample "aa-1" "first" 0 in
  let second := sample "bb-2" "second" 1 in
  let gone := sample "cc-3" "gone" 2 in
  let remote :=
    scripted (Some []) (λ p, negb (bool_decide (prop_Name p = lit "first")))
      (always true) (always false) in
  (createTodo remote creds first tt).1.1 = None ∧
  (deleteTodo remote creds (TodoObject gone) tt).1.1 = false ∧
  (syncTodos remote creds [first; second] (cache_of [gone]) tt).1.1 =
    mkSyncResult [second] [] [TodoObject gone].
Proof. split_and!; vm_compute; reflexivity. Qed.

(** ** The scan and the pull pass *)

Lemma parse_loop_bound fsPath rnd k i ls todos :
  (length todos ≤ maxTodos)%nat →
  (length (parse_loop fsPath rnd k i ls todos).1 ≤ maxTodos)%nat.
Proof.
  revert k i todos. induction ls as [|l ls IH]; intros k i todos H; [done|].
  cbn [parse_loop]. destruct (length todos <? maxTodos)%nat eqn:E; [|done].
  apply Nat.ltb_lt in E.
  destruct (parseLine fsPath rnd k i l) as [[t k']|]; apply IH; [|done].
  rewrite length_app. simpl. lia.
Qed.

(** [parseTodos] returns at most [maxTodos] records for a buffer. *)
Lemma parseTodos_bound rnd k d :
  (length (parseTodos rnd k d).1 ≤ maxTodos)%nat.
Proof. apply parse_loop_bound. simpl. unfold maxTodos. lia. Qed.

(** The loop of the scan ends. *)
Lemma scan_while_total fuel d bound todos :
  (bound - length todos < fuel)%nat → is_Some (scan_while fuel d bound todos).
Proof.
  revert todos. induction fuel as [|fuel IH]; intros todos H; [lia|].
  cbn [scan_while]. destruct (todoRegex_exec _) as [[[offset tg] r]|]; [|by eexists].
  destruct (length todos <? bound)%nat eqn:E; [|by eexists].
  apply Nat.ltb_lt in E. apply IH. rewrite length_app. simpl. lia.
Qed.

Lemma scan_forEach_total index docs todos :
  is_Some (scan_forEach index docs todos).
Proof.
  revert index todos. induction docs as [|d docs IH]; intros index todos; [by eexists|].
  cbn [scan_forEach]. unfold scan_document.
  destruct (sync_scheme d); [|apply IH].
  destruct (scan_while_total (S (maxTodos * (index + 1))) d
              (maxTodos * (index + 1)) todos) as [todos' ->]; [lia|].
  apply IH.
Qed.

Lemma scanDocumentsForTodos_throws openDocuments :
  ∃ error, scanDocumentsForTodos openDocuments = Some (Thrown error).
Proof.
  unfold scanDocumentsForTodos.
  destruct (scan_forEach_total 0 openDocuments []) as [todos ->]. by eexists.
Qed.

(** C10.  The scan of the open buffers.  A buffer with one marker line
    yields 50 records when it is the first open document and 100 when a
    document without markers precedes it, all of them copies of its first
    match; [parseTodos] finds one record in it.  The scan then ends in an
    error instead of returning. *)
Lemma scan_bound_depends_on_position :
  let plain := mkDocument (lit "file:///a.js") (lit "file") (lit "/a.js")
                 [lit "let x = 1;"] in
  let marked := mkDocument (lit "file:///b.js") (lit "file") (lit "/b.js")
                  [lit "// TODO: one marker"] in
  let record := mkScanned (lit "// TODO: one marker") 0 0 None (lit "file:///b.js") in
  scan_forEach 0 [marked] [] = Some (replicate 50 record) ∧
  scan_forEach 0 [plain; marked] [] = Some (replicate 100 record) ∧
  length (parseTodos zero_rnd 0 marked).1 = 1%nat ∧
  scanDocumentsForTodos [plain; marked] =
    Some (Thrown (lit "ReferenceError: maxTodos is not defined")).
Proof. split_and!; vm_compute; reflexivity. Qed.

Lemma reconcile_one_matched codeMap entry e :
  e ∈ reconcile_one codeMap entry → codeMap !! entry.1 = Some (edit_target e).
Proof.
  destruct entry as [notionId notionTask]. unfold reconcile_one. simpl.
  destruct (bool_decide _); destruct (codeMap !! notionId) as [ct|];
    try by intros ?%elem_of_nil.
  - by intros ->%list_elem_of_singleton.
  - destruct (truthy _); [|by intros ?%elem_of_nil].
    destruct (bool_decide _); [by intros ?%elem_of_nil|].
    by intros ->%list_elem_of_singleton.
Qed.

Section PullProperties.

Context {World : Type} (notion : request → World → response * World).

(** A pull started by [syncNotionToCode] does not get to
    [reconcileNotionToCode]: the scan throws, and the [catch] of line 50
    ends the pull without an edit. *)
Lemma syncNotionToCode_no_edit c openDocuments w :
  (syncNotionToCode notion c openDocuments w).1.1 = Some [].
Proof.
  unfold syncNotionToCode, bind, ret.
  destruct (fetchNotionState notion c w) as [[tasks w1] l1]. simpl.
  by destruct (scanDocumentsForTodos_throws openDocuments) as [error ->].
Qed.

End PullProperties.


(** ** The edits on the buffers *)

Lemma split_lines_single s :
  Forall (λ c, c ≠ 10 ∧ c ≠ 13) s → split_lines s = [s].
Proof.
  unfold split_lines. induction 1 as [|c s [H10 H13] _ IH]; [done|].
  cbn [split_lines_from]. apply N.eqb_neq in H10, H13.
  by rewrite H13, H10, IH.
Qed.

Lemma apply_edit_in_place buffers e uri lines :
  single_line e → buffers !! uri = Some lines →
  ∃ lines', apply_edit buffers e !! uri = Some lines' ∧
    length lines' = length lines ∧
    ∀ i, ¬ (sc_uri (edit_target e) = uri ∧ sc_line (edit_target e) = i) →
         lines' !! i = lines !! i.
Proof.
  intros Hs Hb. unfold apply_edit.
  set (t := edit_target e).
  destruct (buffers !! sc_uri t) as [ls|] eqn:Et; [|by exists lines].
  destruct (sc_line t <? length ls)%nat eqn:El; [|by exists lines].
  apply Nat.ltb_lt in El.
  assert (∃ x, match e with
               | replaceLine _ newText => split_lines newText
               | deleteLine _ => [[]]
               end = [x]) as [x ->].
  { destruct e as [? txt|?]; [|by eexists]. exists txt. by apply split_lines_single. }
  change ([x] ++ ?r) with (x :: r). rewrite <- insert_take_drop by done.
  destruct (decide (sc_uri t = uri)) as [E|E].
  - rewrite E, lookup_insert_eq. rewrite E, Hb in Et. inversion Et; subst ls.
    eexists. split_and!; [done|by rewrite length_insert|].
    intros i Hi. apply list_lookup_insert_ne. intros <-. by apply Hi.
  - rewrite lookup_insert_ne by done. by exists lines.
Qed.

(** X17.  With remote texts of one line, the edits of
    [reconcileNotionToCode] rewrite lines in place: every buffer keeps its
    number of lines and every line that is not the target of an edit
    keeps its text. *)
Lemma apply_edits_in_place edits buffers uri lines :
  Forall single_line edits → buffers !! uri = Some lines →
  ∃ lines', apply_edits buffers edits !! uri = Some lines' ∧
    length lines' = length lines ∧
    ∀ i, (∀ e, e ∈ edits →
            ¬ (sc_uri (edit_target e) = uri ∧ sc_line (edit_target e) = i)) →
         lines' !! i = lines !! i.
Proof.
  intros Hs. revert buffers lines.
  induction Hs as [|e edits He _ IH]; intros buffers lines Hb.
  { exists lines. by split_and!. }
  destruct (apply_edit_in_place buffers e uri lines He Hb) as (l1 & H1 & Hlen1 & Hfr1).
  destruct (IH _ _ H1) as (l2 & H2 & Hlen2 & Hfr2).
  exists l2. split_and!; [done|lia|].
  intros i Hi. rewrite Hfr2, Hfr1; [done| |].
  - apply Hi. by left.
  - intros e' He'. apply Hi. by right.
Qed.

(** ** The generated identifier *)

Lemma hexdigit_range v :
  v < 16 → 48 <= hexdigit v <= 57 ∨ 97 <= hexdigit v <= 102.
Proof.
  unfold hexdigit. intros H.
  destruct (v <? 10) eqn:E; [apply N.ltb_lt in E|apply N.ltb_ge in E]; lia.
Qed.

Lemma hexdigit_hex v : v < 16 → hex_or_hyphen (hexdigit v).
Proof. intros H. unfold hex_or_hyphen. destruct (hexdigit_range v H); auto. Qed.

Lemma hexdigit_variant r :
  r < 16 →
  hexdigit (N.lor (N.land r 3) 8) = 56 ∨ hexdigit (N.lor (N.land r 3) 8) = 57 ∨
  hexdigit (N.lor (N.land r 3) 8) = 97 ∨ hexdigit (N.lor (N.land r 3) 8) = 98.
Proof.
  intros H.
  assert (r = 0 ∨ r = 1 ∨ r = 2 ∨ r = 3 ∨ r = 4 ∨ r = 5 ∨ r = 6 ∨ r = 7 ∨
          r = 8 ∨ r = 9 ∨ r = 10 ∨ r = 11 ∨ r = 12 ∨ r = 13 ∨ r = 14 ∨ r = 15)
    as Hr by lia.
  repeat (destruct Hr as [->|Hr]; [vm_compute; tauto|]). subst. vm_compute. tauto.
Qed.

Lemma fill_template_spec tpl rnd : ∀ k,
  length (fill_template tpl rnd k).1 = length tpl ∧
  (fill_template tpl rnd k).2 = (k + placeholders tpl)%nat ∧
  ∀ (i : nat) (c : N), tpl !! i = Some c →
    ∃ o, (fill_template tpl rnd k).1 !! i = Some o ∧
      (c = 120 → ∃ v, v < 16 ∧ o = hexdigit v) ∧
      (c = 121 → ∃ r, r < 16 ∧ o = hexdigit (N.lor (N.land r 3) 8)) ∧
      (c ≠ 120 → c ≠ 121 → o = c).
Proof.
  induction tpl as [|c tpl IH]; intros k.
  { split_and!; [done|simpl; lia|done]. }
  assert (rnd k mod 16 < 16) as Hlt by (by apply N.mod_lt).
  cbn [fill_template placeholders].
  destruct (c =? 120) eqn:Ex; [|destruct (c =? 121) eqn:Ey].
  - apply N.eqb_eq in Ex. subst c.
    destruct (IH (S k)) as (Hl & Hk & Hi).
    destruct (fill_template tpl rnd (S k)) as [o k']. simpl in *.
    split_and!; [by f_equal|lia|].
    intros [|i] c Hc; simpl in *; [|by apply Hi].
    inversion Hc; subst c. eexists. split; [done|]. split_and!; [by eauto|done..].
  - apply N.eqb_eq in Ey. subst c.
    destruct (IH (S k)) as (Hl & Hk & Hi).
    destruct (fill_template tpl rnd (S k)) as [o k']. simpl in *.
    split_and!; [by f_equal|lia|].
    intros [|i] c Hc; simpl in *; [|by apply Hi].
    inversion Hc; subst c. eexists. split; [done|]. split_and!; [done|by eauto|done].
  - apply N.eqb_neq in Ex, Ey.
    destruct (IH k) as (Hl & Hk & Hi).
    destruct (fill_template tpl rnd k) as [o k']. simpl in *.
    split_and!; [by f_equal|lia|].
    intros [|i] c' Hc; simpl in *; [|by apply Hi].
    inversion Hc; subst c'. eexists. split; [done|]. by split_and!.
Qed.

Lemma generateRandomId_length (rnd : nat → N) (k : nat) :
  length (generateRandomId rnd k).1 = 36%nat.
Proof.
  unfold generateRandomId.
  by destruct (fill_template_spec (lit "xxxxxxxx-xxxx-4xxx-yxxx-xxxxxxxxxxxx") rnd k) as [-> _].
Qed.

(** X1.  The shape of a generated identifier.  Whatever the random source,
    [generateRandomId] returns 36 characters and consumes 31 draws; every
    character is a lower-case hexadecimal digit or a hyphen, the hyphens
    are exactly at positions 8, 13, 18 and 23, position 14 is the digit 4
    and position 19 is one of 8, 9, a and b. *)
Theorem generateRandomId_shape (rnd : nat → N) (k : nat) :
  length (generateRandomId rnd k).1 = 36%nat ∧
  (generateRandomId rnd k).2 = (k + 31)%nat ∧
  Forall hex_or_hyphen (generateRandomId rnd k).1 ∧
  (∀ (i : nat) (c : N), (generateRandomId rnd k).1 !! i = Some c →
     (c = 45 ↔ (i = 8 ∨ i = 13 ∨ i = 18 ∨ i = 23)%nat)) ∧
  (generateRandomId rnd k).1 !! 14%nat = Some 52 ∧
  (∃ v, (generateRandomId rnd k).1 !! 19%nat = Some v ∧
        (v = 56 ∨ v = 57 ∨ v = 97 ∨ v = 98)).
Proof.
  unfold generateRandomId.
  set (tpl := lit "xxxxxxxx-xxxx-4xxx-yxxx-xxxxxxxxxxxx").
  destruct (fill_template_spec tpl rnd k) as (Hlen & Hk & Hi).
  set (id := (fill_template tpl rnd k).1) in *.
  assert (length tpl = 36%nat) as Htl by done.
  assert (placeholders tpl = 31%nat) as Hpl by done.
  rewrite Htl in Hlen. rewrite Hpl in Hk.
  assert (∀ (i : nat) (o : N), id !! i = Some o →
            ∃ c, tpl !! i = Some c ∧
              (c = 120 → ∃ v, v < 16 ∧ o = hexdigit v) ∧
              (c = 121 → ∃ r, r < 16 ∧ o = hexdigit (N.lor (N.land r 3) 8)) ∧
              (c ≠ 120 → c ≠ 121 → o = c)) as Hback.
  { intros i o Ho. destruct (tpl !! i) as [c|] eqn:Ec.
    - destruct (Hi i c Ec) as (o' & Ho' & H). rewrite Ho in Ho'.
      inversion Ho'; subst o'. by exists c.
    - apply lookup_ge_None in Ec. apply lookup_lt_Some in Ho. lia. }
  split_and!.
  - done.
  - done.
  - apply Forall_lookup. intros i o Ho.
    destruct (Hback i o Ho) as (c & Hc & Hx & Hy & Hn).
    do 36 (destruct i as [|i]; [unfold tpl in Hc; vm_compute in Hc; inversion Hc; subst c;
      first [ destruct (Hx eq_refl) as (v & ? & ->); by apply hexdigit_hex
            | destruct (Hy eq_refl) as (r & ? & ->); by apply hexdigit_hex, y_nibble
            | rewrite Hn by done; unfold hex_or_hyphen; lia ]|]).
    apply lookup_lt_Some in Ho. lia.
  - intros i o Ho. destruct (Hback i o Ho) as (c & Hc & Hx & Hy & Hn).
    do 36 (destruct i as [|i]; [unfold tpl in Hc; vm_compute in Hc; inversion Hc; subst c;
      first [ destruct (Hx eq_refl) as (v & Hv & ->);
              pose proof (hexdigit_range v Hv) as Hh;
              split; [intros E; rewrite E in Hh; lia|intros ?; lia]
            | destruct (Hy eq_refl) as (r & Hr & ->);
              pose proof (hexdigit_range _ (y_nibble r Hr)) as Hh;
              split; [intros E; rewrite E in Hh; lia|intros ?; lia]
            | rewrite Hn by done; split; [intros ?; lia|done]
            | rewrite Hn by done; split; [done|intros ?; lia] ]|]).
    apply lookup_lt_Some in Ho. lia.
  - destruct (Hi 14%nat 52 eq_refl) as (o & Ho & _ & _ & Hn).
    by rewrite Ho, Hn.
  - destruct (Hi 19%nat 121 eq_refl) as (o & Ho & _ & Hy & _).
    destruct (Hy eq_refl) as (r & Hr & ->).
    eexists. split; [done|]. by apply hexdigit_variant.
Qed.

(** ** The records of a document *)

Lemma parseLine_fields fsPath rnd k i l t k' :
  parseLine fsPath rnd k i l = Some (t, k') →
  todo_line t = i ∧ todo_lineNumber t = S i ∧ todo_column t = 0%nat ∧
  todo_status t = lit "Not started" ∧ todo_filePath t = fsPath ∧
  (∃ n tg r, todoRegex_exec l = Some (n, tg, r) ∧ todo_type t = tag_name tg) ∧
  todo_text t = trim (remove_idPart (trim (remove_todoPrefix (trim l)))).
Proof.
  unfold parseLine. destruct (todoRegex_exec l) as [[[n tg] r]|]; [|done].
  destruct (idRegex_match l); [|destruct (generateRandomId rnd k)];
    intros [= <- <-]; simpl; split_and!; eauto.
Qed.

Lemma records_from_spec fsPath rnd ls : ∀ pre k count t,
  t ∈ records_from fsPath rnd k (length pre) count ls →
  ∃ l k0 k1, (pre ++ ls) !! todo_line t = Some l ∧
    (length pre ≤ todo_line t)%nat ∧
    parseLine fsPath rnd k0 (todo_line t) l = Some (t, k1).
Proof.
  induction ls as [|l ls IH]; intros pre k count t; [by intros ?%elem_of_nil|].
  cbn [records_from].
  assert (pre ++ l :: ls = (pre ++ [l]) ++ ls) as Eassoc
    by by rewrite <- (assoc_L (++)).
  assert (S (length pre) = length (pre ++ [l])) as Elen
    by (rewrite length_app; simpl; lia).
  assert (∀ k count, t ∈ records_from fsPath rnd k (S (length pre)) count ls →
    ∃ l0 k0 k1, (pre ++ l :: ls) !! todo_line t = Some l0 ∧
      (length pre ≤ todo_line t)%nat ∧
      parseLine fsPath rnd k0 (todo_line t) l0 = Some (t, k1)) as IH'.
  { intros k' count'. rewrite Elen, Eassoc. intros H.
    destruct (IH _ _ _ _ H) as (l0 & k0 & k1 & ? & ? & ?).
    exists l0, k0, k1. split_and!; [done| |done]. rewrite <- Elen in *. lia. }
  destruct (count <? maxTodos)%nat; [|by intros ?%elem_of_nil].
  destruct (parseLine fsPath rnd k (length pre) l) as [[t0 k']|] eqn:Ep; [|apply IH'].
  intros [->|H]%elem_of_cons; [|by eapply IH'].
  pose proof (parseLine_line _ _ _ _ _ _ _ Ep) as Eline.
  exists l, k, k'. rewrite Eline. split_and!; [|done|done].
  by rewrite list_lookup_middle.
Qed.

Lemma records_from_sorted fsPath rnd ls : ∀ i k count,
  StronglySorted (λ a b, (todo_line a < todo_line b)%nat)
    (records_from fsPath rnd k i count ls) ∧
  Forall (λ t, (i ≤ todo_line t)%nat) (records_from fsPath rnd k i count ls).
Proof.
  induction ls as [|l ls IH]; intros i k count; [by split; constructor|].
  cbn [records_from]. destruct (count <? maxTodos)%nat; [|by split; constructor].
  destruct (parseLine fsPath rnd k i l) as [[t k']|] eqn:Ep.
  - destruct (IH (S i) k' (S count)) as [Hs Hf].
    pose proof (parseLine_line _ _ _ _ _ _ _ Ep) as Eline.
    split.
    + constructor; [done|]. eapply Forall_impl; [done|]. simpl. intros; lia.
    + constructor; [lia|]. eapply Forall_impl; [done|]. simpl. intros; lia.
  - destruct (IH (S i) k count) as [Hs Hf]. split; [done|].
    eapply Forall_impl; [done|]. simpl. intros; lia.
Qed.

Lemma records_from_complete fsPath rnd ls : ∀ i k count j l,
  (count + length (records_from fsPath rnd k i count ls) < maxTodos)%nat →
  ls !! j = Some l → is_Some (todoRegex_exec l) →
  ∃ t, t ∈ records_from fsPath rnd k i count ls ∧ todo_line t = (i + j)%nat.
Proof.
  induction ls as [|l0 ls IH]; intros i k count j l Hlen Hj Hm; [done|].
  cbn [records_from] in *.
  destruct (count <? maxTodos)%nat eqn:Ec; [|apply Nat.ltb_ge in Ec; lia].
  destruct (parseLine fsPath rnd k i l0) as [[t k']|] eqn:Ep.
  - destruct j as [|j]; simpl in *.
    + exists t. split; [by left|]. rewrite (parseLine_line _ _ _ _ _ _ _ Ep). lia.
    + destruct (IH (S i) k' (S count) j l) as (t' & Ht' & El); [lia|done..|].
      exists t'. split; [by right|]. lia.
  - destruct j as [|j]; simpl in *.
    + inversion Hj; subst l0. apply parseLine_None in Ep.
      rewrite Ep in Hm. by destruct Hm.
    + destruct (IH (S i) k count j l) as (t' & Ht' & El); [lia|done..|].
      exists t'. split; [done|]. lia.
Qed.

(** X3.  [parseTodos] returns its records in strictly increasing line
    order, hence at most one record per line, and at most 50 of them. *)
Theorem parseTodos_in_line_order rnd k d :
  StronglySorted (λ a b, (todo_line a < todo_line b)%nat) (parseTodos rnd k d).1 ∧
  (length (parseTodos rnd k d).1 ≤ 50)%nat.
Proof.
  split; [|apply parseTodos_bound].
  unfold parseTodos. rewrite parse_loop_records. simpl.
  apply records_from_sorted.
Qed.

(** X4.  Every record of [parseTodos] comes from a line of the document on
    which the marker pattern matches: [line] is the index of that line and
    [lineNumber] is one more, the status is Not started, the file path is
    the path of the document, the type is one of the five tags in upper
    case, and the identifier is a non-empty token: the one of the leftmost
    annotation of the line or, when the line has none, a generated
    identifier of 36 characters. *)
Theorem parseTodos_records rnd k d t :
  t ∈ (parseTodos rnd k d).1 →
  ∃ l, doc_lines d !! todo_line t = Some l ∧
    is_Some (todoRegex_exec l) ∧
    todo_lineNumber t = S (todo_line t) ∧
    todo_status t = lit "Not started" ∧
    todo_filePath t = doc_fsPath d ∧
    todo_type t ∈ [lit "TODO"; lit "FIXME"; lit "BUG"; lit "HACK"; lit "XXX"] ∧
    todo_id t ≠ [] ∧ Forall token_char (todo_id t) ∧
    (idRegex_match l = Some (todo_id t) ∨
     idRegex_match l = None ∧ length (todo_id t) = 36%nat).
Proof.
  unfold parseTodos. rewrite parse_loop_records. simpl. intros H.
  destruct (records_from_spec (doc_fsPath d) rnd (doc_lines d) [] k 0%nat t H)
    as (l & k0 & k1 & Hl & _ & Hp). simpl in Hl.
  exists l.
  destruct (parseLine_fields _ _ _ _ _ _ _ Hp)
    as (_ & Hn & _ & Hs & Hf & (n & tg & r & Hm & Hty) & _).
  destruct (parseLine_id_tok _ _ _ _ _ _ _ Hp) as [Hne Htok].
  split; [done|]. split; [by rewrite Hm|].
  split; [done|]. split; [done|]. split; [done|].
  split.
  { rewrite Hty.
    rewrite !elem_of_cons.
    destruct tg; simpl; repeat first [left; reflexivity|right]. }
  split; [done|]. split.
  { eapply Forall_impl; [exact Htok|]. intros c. by rewrite is_tok_token_char. }
  apply parseLine_Some in Hp as [_ [[? _]|[? Hg]]]; [by left|right].
  split; [done|]. pose proof (generateRandomId_length rnd k0) as Hlen.
  by rewrite <- Hg in Hlen.
Qed.

Lemma parseTodos_records_witness :
  let d := mkDocument (lit "file:///a.js") (lit "file") (lit "/a.js")
             [lit "let x = 1;"; lit "  // fixme: tidy up [id:ab-1]"] in
  let t := mkTodo (lit "tidy up") (lit "FIXME") (lit "Not started") (lit "/a.js")
             2 1 0 (lit "ab-1") in
  ∃ l, doc_lines d !! todo_line t = Some l ∧
    is_Some (todoRegex_exec l) ∧
    todo_lineNumber t = S (todo_line t) ∧
    todo_status t = lit "Not started" ∧
    todo_filePath t = doc_fsPath d ∧
    todo_type t ∈ [lit "TODO"; lit "FIXME"; lit "BUG"; lit "HACK"; lit "XXX"] ∧
    todo_id t ≠ [] ∧ Forall token_char (todo_id t) ∧
    (idRegex_match l = Some (todo_id t) ∨
     idRegex_match l = None ∧ length (todo_id t) = 36%nat).
Proof.
  intros d t. apply (parseTodos_records zero_rnd 0 d t).
  vm_compute. left.
Defined.

(** X5.  Below the bound nothing is missed: when [parseTodos] returns fewer
    than 50 records, every line of the document on which the marker
    pattern matches has its record. *)
Theorem parseTodos_complete rnd k d (i : nat) (l : jstr) :
  (length (parseTodos rnd k d).1 < 50)%nat →
  doc_lines d !! i = Some l → is_Some (todoRegex_exec l) →
  ∃ t, t ∈ (parseTodos rnd k d).1 ∧ todo_line t = i.
Proof.
  unfold parseTodos. rewrite parse_loop_records. simpl. intros Hlen Hl Hm.
  by apply (records_from_complete (doc_fsPath d) rnd (doc_lines d) 0 k 0 i l).
Qed.

Lemma parseTodos_complete_witness :
  let d := mkDocument (lit "file:///a.js") (lit "file") (lit "/a.js")
             [lit "let x = 1;"; lit "  // fixme: tidy up [id:ab-1]"] in
  ∃ t, t ∈ (parseTodos zero_rnd 0 d).1 ∧ todo_line t = 1%nat.
Proof.
  intros d.
  apply (parseTodos_complete zero_rnd 0 d 1 (lit "  // fixme: tidy up [id:ab-1]")).
  - vm_compute. lia.
  - reflexivity.
  - vm_compute. eauto.
Defined.

(** ** The injection, document by document *)

(** Appending white space and an annotation moves neither the leftmost
    marker nor its tag. *)
Lemma todoRegex_exec_app_tag q x :
  soft x →
  (λ m : nat * tag * jstr, m.1) <$> todoRegex_exec (q ++ x) =
  (λ m : nat * tag * jstr, m.1) <$> todoRegex_exec q.
Proof.
  intros Hx. induction q as [|c q IH].
  - simpl app. by rewrite (todoRegex_exec_no_slash x) by by apply soft_no_slash.
  - pose proof (marker_at_app (c :: q) x Hx) as E. simpl app in E.
    simpl app. cbn [todoRegex_exec].
    destruct (marker_at (c :: q ++ x)) as [[]|], (marker_at (c :: q)) as [[]|];
      simpl in E; try done.
    + by inversion E.
    + destruct (todoRegex_exec (q ++ x)) as [[[]]|], (todoRegex_exec q) as [[[]]|];
        simpl in *; try done. by inversion IH.
Qed.

Lemma stamped_line_type fsPath rnd k i lineText t k' rnd2 k2 t2 k2' :
  parseLine fsPath rnd k i lineText = Some (t, k') →
  parseLine fsPath rnd2 k2 i (newLineText lineText (todo_id t)) = Some (t2, k2') →
  same_record t2 t ∧ k2' = k2.
Proof.
  intros H H2.
  destruct (stamped_line _ _ _ _ _ _ _ H) as (Hm & Hid & _).
  destruct (parseLine_found fsPath rnd2 k2 i _ _ Hm Hid) as (t2' & Hp & Ht2).
  rewrite Hp in H2. inversion H2; subst t2' k2'. split; [|done].
  destruct (parseLine_fields _ _ _ _ _ _ _ H)
    as (Hl & Hn & _ & Hs & Hf & (n & tg & r & Em & Hty) & _).
  destruct (parseLine_fields _ _ _ _ _ _ _ Hp)
    as (Hl2 & Hn2 & _ & Hs2 & Hf2 & (n2 & tg2 & r2 & Em2 & Hty2) & _).
  unfold same_record. split_and!; try congruence.
  rewrite Hty, Hty2. f_equal.
  destruct (parseLine_id_tok _ _ _ _ _ _ _ H) as [Hne Htok].
  destruct (line_split lineText) as (rem & Hsplit & Hrem).
  pose proof (soft_stamp _ Hne Htok) as Hsoft.
  pose proof (todoRegex_exec_app_tag (trimEnd (strip_trailing_id lineText)) _ Hsoft) as E1.
  pose proof (todoRegex_exec_app_tag (trimEnd (strip_trailing_id lineText)) _ Hrem) as E2.
  rewrite <- Hsplit in E2. unfold newLineText in Em2.
  rewrite Em2 in E1. rewrite Em in E2. rewrite <- E2 in E1. simpl in E1. congruence.
Qed.

Lemma stamp_lines_length fsPath rnd ls : ∀ k i count,
  length (stamp_lines fsPath rnd k i count ls) = length ls.
Proof.
  induction ls as [|l ls IH]; intros k i count; [done|].
  cbn [stamp_lines]. destruct (count <? maxTodos)%nat; [|done].
  destruct (parseLine fsPath rnd k i l) as [[t k']|]; simpl; by rewrite IH.
Qed.

Lemma stamp_lines_lookup fsPath rnd ls : ∀ k i count (j : nat) (l' : jstr),
  stamp_lines fsPath rnd k i count ls !! j = Some l' →
  ∃ l, ls !! j = Some l ∧
    (l' = l ∨
     ∃ t, t ∈ records_from fsPath rnd k i count ls ∧
       todo_line t = (i + j)%nat ∧ l' = newLineText l (todo_id t)).
Proof.
  induction ls as [|l ls IH]; intros k i count j l'; [done|].
  cbn [stamp_lines records_from].
  destruct (count <? maxTodos)%nat; [|intros ?; exists l'; auto].
  destruct (parseLine fsPath rnd k i l) as [[t k']|] eqn:Ep.
  - destruct j as [|j]; simpl.
    + intros [= <-]. exists l. split; [done|]. right. exists t.
      split_and!; [by left| |done].
      rewrite (parseLine_line _ _ _ _ _ _ _ Ep). lia.
    + intros H. destruct (IH _ _ _ _ _ H) as (l0 & Hl0 & [->|(t' & Ht' & El & ->)]).
      * exists l0. auto.
      * exists l0. split; [done|]. right. exists t'.
        split_and!; [by right|lia|done].
  - destruct j as [|j]; simpl.
    + intros [= <-]. exists l. auto.
    + intros H. destruct (IH _ _ _ _ _ H) as (l0 & Hl0 & [->|(t' & Ht' & El & ->)]).
      * exists l0. auto.
      * exists l0. split; [done|]. right. exists t'.
        split_and!; [done|lia|done].
Qed.

Lemma stamp_lines_frame fsPath rnd ls : ∀ k i count (j : nat) (l : jstr),
  ls !! j = Some l → todoRegex_exec l = None →
  stamp_lines fsPath rnd k i count ls !! j = Some l.
Proof.
  induction ls as [|l0 ls IH]; intros k i count j l; [done|].
  cbn [stamp_lines]. destruct (count <? maxTodos)%nat; [|done].
  destruct j as [|j]; simpl.
  - intros [= ->] Hn.
    by rewrite (proj2 (parseLine_None fsPath rnd k i l) Hn).
  - intros Hl Hn.
    destruct (parseLine fsPath rnd k i l0) as [[t k']|]; simpl; by apply IH.
Qed.

Lemma stamp_lines_record fsPath rnd ls : ∀ k i count t,
  t ∈ records_from fsPath rnd k i count ls →
  ∃ (j : nat) (l : jstr), todo_line t = (i + j)%nat ∧ ls !! j = Some l ∧
    stamp_lines fsPath rnd k i count ls !! j = Some (newLineText l (todo_id t)).
Proof.
  induction ls as [|l ls IH]; intros k i count t; [by intros ?%elem_of_nil|].
  cbn [stamp_lines records_from].
  destruct (count <? maxTodos)%nat; [|by intros ?%elem_of_nil].
  destruct (parseLine fsPath rnd k i l) as [[t0 k']|] eqn:Ep.
  - intros [->|H]%elem_of_cons.
    + exists 0%nat, l. rewrite (parseLine_line _ _ _ _ _ _ _ Ep).
      split_and!; [lia|done..].
    + destruct (IH _ _ _ _ H) as (j & l0 & ? & ? & ?).
      exists (S j), l0. split_and!; [lia|done..].
  - intros H. destruct (IH _ _ _ _ H) as (j & l0 & ? & ? & ?).
    exists (S j), l0. split_and!; [lia|done..].
Qed.

(** X6.  What the injection changes.  After [injectTodoIds] is applied to
    the records of [parseTodos], the document has its URI, scheme, path and
    number of lines; a line without marker keeps its text; the line of
    every record is the text that [newLineText] builds from the old line
    and the identifier of the record; and every line is either unchanged
    or such a rewritten line of a record of that line. *)
Theorem stampDocument_frame rnd k d :
  let d' := stampDocument rnd k d in
  doc_uri d' = doc_uri d ∧ doc_scheme d' = doc_scheme d ∧
  doc_fsPath d' = doc_fsPath d ∧
  length (doc_lines d') = length (doc_lines d) ∧
  (∀ (j : nat) (l : jstr), doc_lines d !! j = Some l → todoRegex_exec l = None →
     doc_lines d' !! j = Some l) ∧
  (∀ t, t ∈ (parseTodos rnd k d).1 →
     ∃ l, doc_lines d !! todo_line t = Some l ∧
       doc_lines d' !! todo_line t = Some (newLineText l (todo_id t))) ∧
  (∀ (j : nat) (l' : jstr), doc_lines d' !! j = Some l' →
     ∃ l, doc_lines d !! j = Some l ∧
       (l' = l ∨ ∃ t, t ∈ (parseTodos rnd k d).1 ∧ todo_line t = j ∧
                      l' = newLineText l (todo_id t))).
Proof.
  intros d'. split_and!; [done..| | | |].
  - unfold d'. rewrite stampDocument_lines. apply stamp_lines_length.
  - unfold d'. rewrite stampDocument_lines. apply stamp_lines_frame.
  - unfold d'. rewrite stampDocument_lines. unfold parseTodos.
    rewrite parse_loop_records. simpl. intros t Ht.
    destruct (stamp_lines_record _ _ _ _ _ _ _ Ht) as (j & l & El & ? & ?).
    simpl in El. subst j. eauto.
  - unfold d'. rewrite stampDocument_lines. unfold parseTodos.
    rewrite parse_loop_records. simpl. intros j l' H.
    destruct (stamp_lines_lookup _ _ _ _ _ _ _ _ H) as (l & ? & [->|(t & ? & ? & ->)]);
      exists l; split; auto. right. exists t. simpl in *. auto.
Qed.

Lemma reparse_records fsPath rnd rnd2 ls : ∀ k k2 i count,
  Forall2 same_record
    (records_from fsPath rnd2 k2 i count (stamp_lines fsPath rnd k i count ls))
    (records_from fsPath rnd k i count ls).
Proof.
  induction ls as [|l ls IH]; intros k k2 i count; [constructor|].
  cbn [stamp_lines records_from]. destruct (count <? maxTodos)%nat eqn:Ec.
  2:{ cbn [records_from]. rewrite Ec. constructor. }
  destruct (parseLine fsPath rnd k i l) as [[t k']|] eqn:Ep.
  - destruct (stamped_line _ _ _ _ _ _ _ Ep) as (Hm & Hid & _).
    destruct (parseLine_found fsPath rnd2 k2 i _ _ Hm Hid) as (t2 & Hp & _).
    cbn [records_from]. rewrite Ec, Hp.
    constructor; [|apply IH]. by eapply stamped_line_type.
  - cbn [records_from]. rewrite Ec.
    apply parseLine_None in Ep.
    rewrite (proj2 (parseLine_None fsPath rnd2 k2 i l) Ep). apply IH.
Qed.

Lemma reparse_draws fsPath rnd rnd2 ls : ∀ k k2 i todos count,
  length todos = count →
  (parse_loop fsPath rnd2 k2 i (stamp_lines fsPath rnd k i count ls) todos).2 = k2.
Proof.
  induction ls as [|l ls IH]; intros k k2 i todos count Hc; [done|].
  cbn [stamp_lines]. destruct (count <? maxTodos)%nat eqn:Ec.
  2:{ cbn [parse_loop]. by rewrite Hc, Ec. }
  destruct (parseLine fsPath rnd k i l) as [[t k']|] eqn:Ep.
  - destruct (stamped_line _ _ _ _ _ _ _ Ep) as (Hm & Hid & _).
    destruct (parseLine_found fsPath rnd2 k2 i _ _ Hm Hid) as (t2 & Hp & _).
    cbn [parse_loop]. rewrite Hc, Ec, Hp. apply IH.
    rewrite length_app. simpl. lia.
  - cbn [parse_loop]. rewrite Hc, Ec.
    apply parseLine_None in Ep.
    rewrite (proj2 (parseLine_None fsPath rnd2 k2 i l) Ep). by apply IH.
Qed.

(** X8.  Extraction after stamping.  From the stamped document [parseTodos]
    extracts, record by record, the identifier, line, line number, type,
    status and file path that it extracted before the stamping, and it
    draws no new identifier. *)
Theorem reparse_after_stamping rnd k rnd2 k2 d :
  Forall2 same_record
    (parseTodos rnd2 k2 (stampDocument rnd k d)).1 (parseTodos rnd k d).1 ∧
  (parseTodos rnd2 k2 (stampDocument rnd k d)).2 = k2.
Proof.
  unfold parseTodos at 1 3. rewrite stampDocument_lines.
  change (doc_fsPath (stampDocument rnd k d)) with (doc_fsPath d). split.
  - unfold parseTodos. rewrite !parse_loop_records. simpl. apply reparse_records.
  - by apply reparse_draws.
Qed.

(** ** The requests and the decisions of a push pass *)

Section RequestProperties.

Context {World : Type} (notion : request → World → response * World).

Ltac run :=
  unfold createTodo, updateTodo, deleteTodo, listDatabaseProperties,
    fetchNotionState, bind, tell, ret, call in *; simpl in *.

Lemma fetchNotionState_requests c w r :
  client_call r ∈ (fetchNotionState notion c w).2 →
  r = DatabasesQuery (databaseId c).
Proof.
  run. destruct (negb (configured c)); [by intros ?%elem_of_nil|].
  destruct (notion _ w) as [resp w1].
  destruct resp; simpl; rewrite ?app_nil_r;
    intros H%list_elem_of_singleton; by inversion H.
Qed.

Lemma listDatabaseProperties_requests c w r :
  client_call r ∈ (listDatabaseProperties notion c w).2 →
  r = DatabasesRetrieve (databaseId c).
Proof.
  run. destruct (negb (configured c)); [by intros ?%elem_of_nil|].
  destruct (notion _ w) as [resp w1].
  destruct resp; simpl; rewrite ?app_nil_r;
    intros H%list_elem_of_singleton; by inversion H.
Qed.

Lemma createTodo_requests c t w r :
  client_call r ∈ (createTodo notion c t w).2 →
  r = DatabasesRetrieve (databaseId c) ∨
  ∃ s, r = PagesCreate (databaseId c) (build_properties s t).
Proof.
  unfold createTodo, bind, tell, ret. simpl.
  destruct (negb (configured c)) eqn:Hc.
  { simpl. rewrite elem_of_cons. intros [H|H%elem_of_nil]; done. }
  pose proof (listDatabaseProperties_requests c w r) as Hl.
  destruct (listDatabaseProperties notion c w) as [[s w1] l1]. simpl in *.
  unfold call. destruct (notion (PagesCreate _ _) w1) as [resp w2].
  destruct resp; simpl; (intros [H|H]%elem_of_cons; [done|]);
    (apply elem_of_app in H as [H|H]; [left; by apply Hl|]);
    right; exists s;
    apply elem_of_cons in H as [H|H%elem_of_nil]; try done; by inversion H.
Qed.

Lemma updateTodo_requests c p t w r :
  client_call r ∈ (updateTodo notion c p t w).2 →
  r = DatabasesRetrieve (databaseId c) ∨
  ∃ s, r = PagesUpdate p (SetProperties (build_properties s t)).
Proof.
  unfold updateTodo, bind, tell, ret. simpl.
  destruct (negb (truthy (token c))) eqn:Hc.
  { simpl. rewrite elem_of_cons. intros [H|H%elem_of_nil]; done. }
  pose proof (listDatabaseProperties_requests c w r) as Hl.
  destruct (listDatabaseProperties notion c w) as [[s w1] l1]. simpl in *.
  unfold call. destruct (notion (PagesUpdate _ _) w1) as [resp w2].
  destruct resp; simpl; (intros [H|H]%elem_of_cons; [done|]);
    (apply elem_of_app in H as [H|H]; [left; by apply Hl|]);
    right; exists s;
    apply elem_of_cons in H as [H|H%elem_of_nil]; try done; by inversion H.
Qed.

Lemma deleteTodo_requests c ref w r :
  client_call r ∈ (deleteTodo notion c ref w).2 →
  r = PagesUpdate ref (SetArchived true).
Proof.
  unfold deleteTodo, bind, tell, ret, call. simpl.
  destruct (negb (truthy (token c))) eqn:Hc.
  { simpl. rewrite elem_of_cons. intros [H|H%elem_of_nil]; done. }
  destruct (notion (PagesUpdate _ _) w) as [resp w2].
  destruct resp; simpl; (intros [H|H]%elem_of_cons; [done|]);
    apply elem_of_cons in H as [H|H%elem_of_nil]; try done; by inversion H.
Qed.

Lemma pass_request_cons c ci t todos cached r :
  pass_request c ci todos cached r → pass_request c ci (t :: todos) cached r.
Proof.
  intros H. destruct H; try by constructor.
  - apply pr_create; [by right|done].
  - apply pr_update; [by right|done].
  - by eapply pr_archive.
Qed.

Lemma push_loop_requests c ci bp cached todos : ∀ cr up w r,
  client_call r ∈ (push_loop notion c ci bp todos cr up w).2 →
  pass_request c ci todos cached r.
Proof.
  induction todos as [|t todos IH]; intros cr up w r; [by intros ?%elem_of_nil|].
  cbn [push_loop].
  destruct (truthy (todo_id t)) eqn:Ht; simpl;
    [|intros H; eapply pass_request_cons, IH, H].
  destruct (lookup_truthy ci (todo_id t)) as [p|] eqn:Hp.
  - destruct (bp !! key_text p) as [tk|] eqn:Htk; [|by intros ?%elem_of_nil].
    destruct (needsUpdate tk t) eqn:Hn.
    + unfold bind at 1.
      pose proof (updateTodo_requests c p t w r) as Hu.
      destruct (updateTodo notion c p t w) as [[ok w1] l1].
      specialize (IH cr (if ok then up ++ [t] else up) w1 r).
      destruct (push_loop _ _ _ _ _ _ _ _) as [[res w2] l2]. simpl in *.
      intros [H|H]%elem_of_app; [|by apply pass_request_cons, IH].
      destruct (Hu H) as [->|[s ->]]; [constructor|].
      apply pr_update; [by left|done].
    + unfold bind at 1, tell. specialize (IH cr up w r).
      destruct (push_loop _ _ _ _ _ _ _ _) as [[res w2] l2]. simpl in *.
      intros [H|H]%elem_of_cons; [done|]. by apply pass_request_cons, IH.
  - unfold bind at 1.
    pose proof (createTodo_requests c t w r) as Hu.
    destruct (createTodo notion c t w) as [[newId w1] l1].
    specialize (IH (if truthy (default [] newId) then cr ++ [t] else cr) up w1 r).
    destruct (push_loop _ _ _ _ _ _ _ _) as [[res w2] l2]. simpl in *.
    intros [H|H]%elem_of_app; [|by apply pass_request_cons, IH].
    destruct (Hu H) as [->|[s ->]]; [constructor|].
    apply pr_create; [by left|done].
Qed.

Lemma delete_loop_requests c dels : ∀ w r,
  client_call r ∈ (delete_loop notion c dels w).2 →
  ∃ ref, ref ∈ dels ∧ r = PagesUpdate ref (SetArchived true).
Proof.
  induction dels as [|ref dels IH]; intros w r; [by intros ?%elem_of_nil|].
  cbn [delete_loop]. unfold bind.
  pose proof (deleteTodo_requests c ref w r) as Hd.
  destruct (deleteTodo notion c ref w) as [[ok w1] l1].
  specialize (IH w1 r). destruct (delete_loop notion c dels w1) as [[u w2] l2].
  simpl in *. intros [H|H]%elem_of_app.
  - exists ref. split; [by left|by apply Hd].
  - destruct (IH H) as (ref' & ? & ->). exists ref'. split; [by right|done].
Qed.

(** X10.  The requests of a push pass.  Every call that [syncTodos] makes
    to the client is the query or the schema retrieval of the configured
    database, the creation in that database of a page for a current record
    whose identifier the fetched index lacks, the update of the page that
    the index holds for the identifier of a current record, or the
    archival for a cached record whose identifier the index lacks.  No
    other page is written and no archival is undone. *)
Theorem syncTodos_requests (c : credentials) (todos : list todo)
    (cached : jsobj todo) (w : World) (r : request) :
  client_call r ∈ (syncTodos notion c todos cached w).2 →
  pass_request c (remote_index notion c w) todos cached r.
Proof.
  destruct (configured c) eqn:Hc; cycle 1.
  { rewrite syncTodos_unconfigured by done. by intros ?%elem_of_nil. }
  destruct (syncTodos_run notion c todos cached w Hc)
    as (pushed & w2 & lp & Hp & Hrun).
  pose proof (push_loop_requests c (remote_index notion c w)
    (remote_by_key notion c w) cached todos [] []
    (fetchNotionState notion c w).1.2 r) as Hl.
  rewrite Hp in Hl. simpl in Hl.
  destruct pushed as [[cr up]|].
  - destruct Hrun as (w3 & ld & Hd & ->). simpl.
    intros [H|[H|[H|H]%elem_of_app]%elem_of_app]%elem_of_app.
    + apply fetchNotionState_requests in H as ->. constructor.
    + by apply Hl.
    + apply list_elem_of_fmap in H as (m & Hm & _). by destruct m.
    + pose proof (delete_loop_requests c
        (mark_deleted (remote_index notion c w) cached).*2 w2 r) as Hdl.
      rewrite Hd in Hdl. destruct (Hdl H) as (ref & Hr & ->).
      apply list_elem_of_fmap in Hr as ([cid ref'] & -> & Hm).
      apply mark_deleted_spec in Hm as (t & Hcache & -> & Hm).
      by eapply pr_archive.
  - rewrite Hrun. simpl. intros [H|H]%elem_of_app.
    + apply fetchNotionState_requests in H as ->. constructor.
    + by apply Hl.
Qed.

End RequestProperties.

Lemma syncTodos_requests_witness :
  let keep := sample "abc-123" "handle edge case" 0 in
  let gone := sample "xyz-999" "remove me" 4 in
  let remote := scripted (Some [page_of "page-1" keep])
                  (always true) (always true) (always true) in
  pass_request creds (remote_index remote creds tt) [keep] (cache_of [keep; gone])
    (PagesUpdate (TodoObject gone) (SetArchived true)).
Proof.
  intros keep gone remote.
  apply (syncTodos_requests remote creds [keep] (cache_of [keep; gone]) tt).
  vm_compute. do 4 right. left.
Defined.

Section DecisionProperties.

Context {World : Type} (notion : request → World → response * World).

Lemma updated_only_if_indexed (c : credentials) (todos : list todo)
    (cached : jsobj todo) (w : World) (p : pageRef) (t : todo) :
  updateTodo_called p t ∈ (syncTodos notion c todos cached w).2 →
  t ∈ todos ∧ lookup_truthy (remote_index notion c w) (todo_id t) = Some p ∧
  ∃ tk, remote_by_key notion c w !! key_text p = Some tk ∧ needsUpdate tk t = true.
Proof.
  intros Hin.
  apply syncTodos_events in Hin as [[q Hq]|[Hq|(m & _ & [Hq|Hq])]]; try done.
  inversion Hq; subst. eauto.
Qed.

Lemma no_changes_only_if_equal (c : credentials) (todos : list todo)
    (cached : jsobj todo) (w : World) (t : todo) :
  debug_no_changes t ∈ (syncTodos notion c todos cached w).2 →
  t ∈ todos ∧
  ∃ p tk, lookup_truthy (remote_index notion c w) (todo_id t) = Some p ∧
    remote_by_key notion c w !! key_text p = Some tk ∧ needsUpdate tk t = false.
Proof.
  intros Hin.
  apply syncTodos_events in Hin as [[q Hq]|[Hq|(m & _ & [Hq|Hq])]]; try done.
  inversion Hq; subst. split; [done|]. eexists _, _. by split_and!.
Qed.

Lemma push_decides (c : credentials) (todos : list todo)
    (cached : jsobj todo) (w : World) (n : nat) (t : todo) :
  configured c = true → todos !! n = Some t → truthy (todo_id t) = true →
  reached (remote_index notion c w) (remote_by_key notion c w) todos n = true →
  throws_at (remote_index notion c w) (remote_by_key notion c w) t = false →
  createTodo_called t ∈ (syncTodos notion c todos cached w).2 ∨
  (∃ p, updateTodo_called p t ∈ (syncTodos notion c todos cached w).2) ∨
  debug_no_changes t ∈ (syncTodos notion c todos cached w).2.
Proof.
  intros Hc Ht Hid Hreach Hth.
  destruct (push_loop_reached notion c _ _ todos [] []
              (fetchNotionState notion c w).1.2 n t Ht Hreach Hth Hid)
    as [H|[[p H]|H]]; apply (push_log_in_pass notion c todos cached w _ Hc) in H;
    eauto.
Qed.

(** X11.  One decision per record.  In a configured pass each current
    record with an identifier that the loop gets to (line 363 throws
    neither for it nor for a record before it) gets exactly one of three
    decisions: creation when the value read from the fetched index for its
    identifier is falsy, update when the remote record found under that
    value differs from it, and the no-changes log line when it does
    not. *)
Theorem each_record_decided_once (c : credentials) (todos : list todo)
    (cached : jsobj todo) (w : World) (n : nat) (t : todo) :
  configured c = true → todos !! n = Some t → truthy (todo_id t) = true →
  reached (remote_index notion c w) (remote_by_key notion c w) todos n = true →
  throws_at (remote_index notion c w) (remote_by_key notion c w) t = false →
  let log := (syncTodos notion c todos cached w).2 in
  (createTodo_called t ∈ log ∧ (∀ p, updateTodo_called p t ∉ log) ∧
   (debug_no_changes t ∉ log) ∧
   lookup_truthy (remote_index notion c w) (todo_id t) = None) ∨
  (∃ p tk, updateTodo_called p t ∈ log ∧ (createTodo_called t ∉ log) ∧
     (debug_no_changes t ∉ log) ∧
     lookup_truthy (remote_index notion c w) (todo_id t) = Some p ∧
     remote_by_key notion c w !! key_text p = Some tk ∧ needsUpdate tk t = true) ∨
  (∃ p tk, debug_no_changes t ∈ log ∧ (createTodo_called t ∉ log) ∧
     (∀ q, updateTodo_called q t ∉ log) ∧
     lookup_truthy (remote_index notion c w) (todo_id t) = Some p ∧
     remote_by_key notion c w !! key_text p = Some tk ∧ needsUpdate tk t = false).
Proof.
  intros Hc Ht Hid Hreach Hth log.
  destruct (push_decides c todos cached w n t Hc Ht Hid Hreach Hth)
    as [H|[[p H]|H]].
  - left. pose proof (created_only_if_unindexed notion c todos cached w t H) as Hn.
    split_and!; [done| | |done].
    + intros p Hu. apply updated_only_if_indexed in Hu as (_ & Hu & _). congruence.
    + intros Hu. apply no_changes_only_if_equal in Hu as (_ & p & tk & Hu & _).
      congruence.
  - right; left.
    destruct (updated_only_if_indexed c todos cached w p t H) as (_ & Hl & tk & Hk & Hn).
    exists p, tk. split_and!; try done.
    + intros Hu. apply created_only_if_unindexed in Hu. congruence.
    + intros Hu. apply no_changes_only_if_equal in Hu as (_ & p' & tk' & Hl' & Hk' & Hn').
      congruence.
  - right; right.
    destruct (no_changes_only_if_equal c todos cached w t H) as (_ & p & tk & Hl & Hk & Hn).
    exists p, tk. split_and!; try done.
    + intros Hu. apply created_only_if_unindexed in Hu. congruence.
    + intros q Hu. apply updated_only_if_indexed in Hu as (_ & Hl' & tk' & Hk' & Hn').
      congruence.
Qed.

Lemma push_loop_result c ci bp todos : ∀ cr up w res w' l,
  push_loop notion c ci bp todos cr up w = (Some res, w', l) →
  ∃ crn upn, res = (cr ++ crn, up ++ upn) ∧
    crn `sublist_of` todos ∧ upn `sublist_of` todos ∧
    Forall (λ t, createTodo_called t ∈ l) crn ∧
    Forall (λ t, ∃ p, updateTodo_called p t ∈ l) upn.
Proof.
  induction todos as [|t todos IH]; intros cr up w res w' l.
  { intros [= <- <- <-]. exists [], []. rewrite !app_nil_r. by split_and!. }
  cbn [push_loop].
  destruct (truthy (todo_id t)) eqn:Ht; simpl.
  2:{ intros H. destruct (IH _ _ _ _ _ _ H) as (crn & upn & -> & ? & ? & ? & ?).
      exists crn, upn. split_and!; try done; by apply sublist_cons. }
  destruct (lookup_truthy ci (todo_id t)) as [p|] eqn:Hp.
  - destruct (bp !! key_text p) as [tk|] eqn:Htk; [|done].
    destruct (needsUpdate tk t) eqn:Hn.
    + unfold bind at 1.
      destruct (updateTodo_log notion c p t w) as (l0 & Hl & Hc).
      destruct (updateTodo notion c p t w) as [[ok w1] l1]. simpl in Hl. subst l1.
      specialize (IH cr (if ok then up ++ [t] else up) w1).
      destruct (push_loop _ _ _ _ _ _ _ _) as [[res2 w2] l2].
      intros [= -> <- <-].
      destruct (IH _ _ _ eq_refl) as (crn & upn & -> & Hs1 & Hs2 & Hf1 & Hf2).
      assert (Forall (λ t0, createTodo_called t0 ∈ updateTodo_called p t :: l0 ++ l2) crn).
      { eapply Forall_impl; [done|]. simpl. intros t0 ?.
        right. apply elem_of_app. by right. }
      assert (Forall (λ t0, ∃ q, updateTodo_called q t0 ∈ updateTodo_called p t :: l0 ++ l2) upn).
      { eapply Forall_impl; [done|]. simpl. intros t0 [q ?]. exists q.
        right. apply elem_of_app. by right. }
      destruct ok.
      * exists crn, (t :: upn). rewrite <- (assoc_L (++)). simpl.
        split_and!; [done|by apply sublist_cons|by apply sublist_skip|done|].
        constructor; [exists p; by left|done].
      * exists crn, upn. split_and!; try done; by apply sublist_cons.
    + unfold bind at 1, tell. specialize (IH cr up w).
      destruct (push_loop _ _ _ _ _ _ _ _) as [[res2 w2] l2].
      intros [= -> <- <-].
      destruct (IH _ _ _ eq_refl) as (crn & upn & -> & Hs1 & Hs2 & Hf1 & Hf2).
      exists crn, upn. split_and!; try done; try by apply sublist_cons.
      * eapply Forall_impl; [done|]. simpl. intros t0 ?. by right.
      * eapply Forall_impl; [done|]. simpl. intros t0 [q ?]. exists q. by right.
  - unfold bind at 1.
    destruct (createTodo_log notion c t w) as (l0 & Hl & Hc).
    destruct (createTodo notion c t w) as [[newId w1] l1]. simpl in Hl. subst l1.
    specialize (IH (if truthy (default [] newId) then cr ++ [t] else cr) up w1).
    destruct (push_loop _ _ _ _ _ _ _ _) as [[res2 w2] l2].
    intros [= -> <- <-].
    destruct (IH _ _ _ eq_refl) as (crn & upn & -> & Hs1 & Hs2 & Hf1 & Hf2).
    assert (Forall (λ t0, createTodo_called t0 ∈ createTodo_called t :: l0 ++ l2) crn).
    { eapply Forall_impl; [done|]. simpl. intros t0 ?.
      right. apply elem_of_app. by right. }
    assert (Forall (λ t0, ∃ q, updateTodo_called q t0 ∈ createTodo_called t :: l0 ++ l2) upn).
    { eapply Forall_impl; [done|]. simpl. intros t0 [q ?]. exists q.
      right. apply elem_of_app. by right. }
    destruct (truthy (default [] newId)).
    * exists (t :: crn), upn. rewrite <- (assoc_L (++)). simpl.
      split_and!; [done|by apply sublist_skip|by apply sublist_cons| |done].
      constructor; [by left|done].
    * exists crn, upn. split_and!; try done; by apply sublist_cons.
Qed.

(** X12.  The result lists.  [created] and [updated] are sub-lists of the
    current records in their order; a record in [created] was passed to
    [createTodo], has no page in the fetched index and is not in
    [updated]; a record in [updated] was passed to [updateTodo] with the
    page the index holds for it; and [deleted] lists exactly the values
    [deleteTodo] was called with. *)
Theorem syncTodos_result (c : credentials) (todos : list todo)
    (cached : jsobj todo) (w : World) :
  let res := (syncTodos notion c todos cached w).1.1 in
  let log := (syncTodos notion c todos cached w).2 in
  created res `sublist_of` todos ∧ updated res `sublist_of` todos ∧
  (∀ t, t ∈ created res →
     createTodo_called t ∈ log ∧
     lookup_truthy (remote_index notion c w) (todo_id t) = None ∧
     (t ∉ updated res)) ∧
  (∀ t, t ∈ updated res →
     ∃ p, updateTodo_called p t ∈ log ∧
       lookup_truthy (remote_index notion c w) (todo_id t) = Some p) ∧
  (∀ ref, ref ∈ deleted res ↔ deleteTodo_called ref ∈ log).
Proof.
  intros res log. subst res log.
  destruct (configured c) eqn:Hc; cycle 1.
  { rewrite syncTodos_unconfigured by done. simpl.
    split_and!; [apply sublist_nil_l|apply sublist_nil_l| | |].
    - by intros ? ?%elem_of_nil.
    - by intros ? ?%elem_of_nil.
    - intros ref. split; by intros ?%elem_of_nil. }
  assert (∀ ref, deleteTodo_called ref ∈ (syncTodos notion c todos cached w).2 →
            ∃ m, m ∈ mark_deleted (remote_index notion c w) cached ∧ ref = m.2)
    as Hdel0.
  { intros ref Hin.
    apply syncTodos_events in Hin as [[q Hq]|[Hq|(m & Hm & [Hq|Hq])]]; try done.
    { inversion Hq. }
    inversion Hq; subst. by exists m. }
  destruct (decide (Forall (λ t, throws_at (remote_index notion c w)
              (remote_by_key notion c w) t = false) todos)) as [Hall|Hex]; cycle 1.
  { apply not_all_Exists_throw in Hex.
    destruct (syncTodos_run_aborted notion c todos cached w Hc Hex)
      as (w2 & lp & Hp & E).
    assert (∀ ref, deleteTodo_called ref ∉ (syncTodos notion c todos cached w).2)
      as Hnd.
    { intros ref Hin.
      apply (aborted_pass_events notion c todos cached w _ Hex) in Hin
        as [[q Hq]|Hq]; [done|inversion Hq]. }
    rewrite E in *. simpl.
    split_and!; [apply sublist_nil_l|apply sublist_nil_l| | |].
    - by intros ? ?%elem_of_nil.
    - by intros ? ?%elem_of_nil.
    - intros ref. split; [by intros ?%elem_of_nil|]. intros H. by apply Hnd in H. }
  destruct (syncTodos_run_complete notion c todos cached w Hc Hall)
    as (cr & up & w2 & lp & w3 & ld & Hp & Hd & E).
  destruct (push_loop_result _ _ _ _ _ _ _ _ _ _ Hp)
    as (crn & upn & [= -> ->] & Hs1 & Hs2 & Hf1 & Hf2).
  assert (∀ e, e ∈ lp → e ∈ (syncTodos notion c todos cached w).2) as Hsub.
  { intros e He. rewrite E. simpl. apply elem_of_app. right.
    apply elem_of_app. by left. }
  assert (∀ t, t ∈ upn → ∃ p, updateTodo_called p t ∈ (syncTodos notion c todos cached w).2 ∧
            lookup_truthy (remote_index notion c w) (todo_id t) = Some p) as Hup.
  { intros t Ht. eapply Forall_forall in Hf2 as [p Hu]; [|done].
    exists p. apply Hsub in Hu. split; [done|].
    by apply updated_only_if_indexed in Hu as (_ & ? & _). }
  assert (∀ t, t ∈ crn → createTodo_called t ∈ (syncTodos notion c todos cached w).2 ∧
            lookup_truthy (remote_index notion c w) (todo_id t) = None) as Hcr.
  { intros t Ht. eapply Forall_forall in Hf1; [|done].
    apply Hsub in Hf1. split; [done|]. by apply created_only_if_unindexed in Hf1. }
  assert (∀ ref, deleteTodo_called ref ∈ (syncTodos notion c todos cached w).2 →
            ref ∈ (mark_deleted (remote_index notion c w) cached).*2) as Hdel.
  { intros ref Hin. destruct (Hdel0 ref Hin) as (m & Hm & ->).
    apply list_elem_of_fmap. by exists m. }
  clear Hdel0.
  rewrite E in *. simpl in *. split_and!; [done|done| |done|].
  - intros t Ht. destruct (Hcr t Ht) as [? Hn]. split_and!; [done..|].
    intros Hu. destruct (Hup t Hu) as (p & _ & ?). congruence.
  - intros ref. split.
    + intros Hr. apply elem_of_app. right. apply elem_of_app. right.
      apply elem_of_app. right.
      pose proof (delete_loop_calls notion c _ w2 ref Hr) as Hl.
      by rewrite Hd in Hl.
    + apply Hdel.
Qed.

(** X9.  Nothing is sent without a token.  With an empty or missing token,
    [fetchNotionState] returns no task, [listDatabaseProperties] and
    [createTodo] return null, [updateTodo] and [deleteTodo] return false
    and [syncTodos] returns three empty lists; none of them calls the
    client or changes the remote state. *)
Theorem no_token_no_request (c : credentials) (w : World) :
  truthy (token c) = false →
  fetchNotionState notion c w = ([], w, []) ∧
  listDatabaseProperties notion c w = (None, w, []) ∧
  (∀ t, createTodo notion c t w = (None, w, [createTodo_called t])) ∧
  (∀ p t, updateTodo notion c p t w = (false, w, [updateTodo_called p t])) ∧
  (∀ ref, deleteTodo notion c ref w = (false, w, [deleteTodo_called ref])) ∧
  (∀ todos cached, syncTodos notion c todos cached w = (empty_result, w, [])).
Proof.
  intros H.
  assert (configured c = false) as Hc by (unfold configured; by rewrite H).
  unfold fetchNotionState, listDatabaseProperties, createTodo, updateTodo,
    deleteTodo, syncTodos, bind, tell, ret. rewrite Hc, H. simpl.
  by split_and!.
Qed.

End DecisionProperties.

Lemma each_record_decided_once_witness :
  let t := sample "abc-123" "handle edge case" 0 in
  let remote := scripted (Some [page_of "page-1" (sample "abc-123" "old text" 0)])
                  (always true) (always true) (always true) in
  let log := (syncTodos remote creds [t] ∅ tt).2 in
  (createTodo_called t ∈ log ∧ (∀ p, updateTodo_called p t ∉ log) ∧
   (debug_no_changes t ∉ log) ∧
   lookup_truthy (remote_index remote creds tt) (todo_id t) = None) ∨
  (∃ p tk, updateTodo_called p t ∈ log ∧ (createTodo_called t ∉ log) ∧
     (debug_no_changes t ∉ log) ∧
     lookup_truthy (remote_index remote creds tt) (todo_id t) = Some p ∧
     remote_by_key remote creds tt !! key_text p = Some tk ∧ needsUpdate tk t = true) ∨
  (∃ p tk, debug_no_changes t ∈ log ∧ (createTodo_called t ∉ log) ∧
     (∀ q, updateTodo_called q t ∉ log) ∧
     lookup_truthy (remote_index remote creds tt) (todo_id t) = Some p ∧
     remote_by_key remote creds tt !! key_text p = Some tk ∧ needsUpdate tk t = false).
Proof.
  intros t remote.
  apply (each_record_decided_once remote creds [t] ∅ tt 0 t).
  - reflexivity.
  - reflexivity.
  - reflexivity.
  - reflexivity.
  - reflexivity.
Defined.

Lemma no_token_no_request_witness :
  let c := mkCredentials [] (lit "db") in
  fetchNotionState all_ok c tt = ([], tt, []) ∧
  listDatabaseProperties all_ok c tt = (None, tt, []) ∧
  (∀ t, createTodo all_ok c t tt = (None, tt, [createTodo_called t])) ∧
  (∀ p t, updateTodo all_ok c p t tt = (false, tt, [updateTodo_called p t])) ∧
  (∀ ref, deleteTodo all_ok c ref tt = (false, tt, [deleteTodo_called ref])) ∧
  (∀ todos cached, syncTodos all_ok c todos cached tt = (empty_result, tt, [])).
Proof.
  intros c. apply (no_token_no_request all_ok c tt). reflexivity.
Defined.

(** ** The remote index *)

(** X15.  Duplicates in the snapshot.  Of several fetched tasks with one
    identifier, or with one page id, the last one of the query result is
    the one that the two tables of [syncTodos] hold.  The identifier
    [__proto__] is the exception: the assignment of a page id under it
    does nothing, and [customIdToPageId] never has it as an own
    property. *)
Theorem index_last_wins (before after : list task) (tk : task) :
  Forall (λ tk', task_id tk' ≠ task_id tk) after →
  Forall (λ tk', task_customId tk' ≠ task_customId tk) after →
  (index_tasks (before ++ tk :: after)).2 !! task_id tk = Some tk ∧
  (truthy (task_customId tk) = true → task_customId tk ≠ proto_key →
   (index_tasks (before ++ tk :: after)).1 !! task_customId tk = Some (task_id tk)) ∧
  (index_tasks (before ++ tk :: after)).1 !! proto_key = None.
Proof.
  intros Hid Hcu. split_and!; [| |apply index_custom_proto].
  - induction after as [|x after IH] using rev_ind.
    + rewrite index_tasks_snoc. cbn [snd]. by rewrite lookup_insert_eq.
    + apply Forall_app in Hid as [Hid Hx]. apply Forall_app in Hcu as [Hcu Hy].
      apply Forall_cons in Hx as [Hx _].
      replace (before ++ tk :: after ++ [x]) with ((before ++ tk :: after) ++ [x])
        by by rewrite <- (assoc_L (++)).
      rewrite index_tasks_snoc. cbn [snd]. rewrite lookup_insert_ne by done.
      by apply IH.
  - intros Ht Hp. induction after as [|x after IH] using rev_ind.
    + rewrite index_tasks_snoc. cbn [fst].
      rewrite Ht, bool_decide_eq_false_2 by done. cbn [negb andb].
      by rewrite lookup_insert_eq.
    + apply Forall_app in Hid as [Hid Hx]. apply Forall_app in Hcu as [Hcu Hy].
      apply Forall_cons in Hy as [Hy _].
      replace (before ++ tk :: after ++ [x]) with ((before ++ tk :: after) ++ [x])
        by by rewrite <- (assoc_L (++)).
      rewrite index_tasks_snoc. cbn [fst].
      destruct (truthy (task_customId x) && _); [|by apply IH].
      rewrite lookup_insert_ne by done. by apply IH.
Qed.

Lemma index_last_wins_witness :
  let first := mkTask (lit "page-1") (lit "ab-1") (lit "old") (lit "a.js")
                 (Some 1%Z) (lit "TODO") (lit "Not started") in
  let second := mkTask (lit "page-2") (lit "ab-1") (lit "new") (lit "a.js")
                  (Some 1%Z) (lit "TODO") (lit "Not started") in
  (index_tasks ([first] ++ second :: [])).2 !! task_id second = Some second ∧
  (truthy (task_customId second) = true → task_customId second ≠ proto_key →
   (index_tasks ([first] ++ second :: [])).1 !! task_customId second =
     Some (task_id second)) ∧
  (index_tasks ([first] ++ second :: [])).1 !! proto_key = None.
Proof.
  intros first second. apply (index_last_wins [first] [] second); constructor.
Defined.

(** ** The pull pass *)

Lemma notionMap_of_snoc tasks tk :
  notionMap_of (tasks ++ [tk]) = obj_set (notionMap_of tasks) (task_id tk) tk.
Proof. unfold notionMap_of. by rewrite foldl_snoc. Qed.

Lemma notionMap_of_Some tasks k tk :
  notionMap_of tasks !! k = Some tk → tk ∈ tasks ∧ task_id tk = k.
Proof.
  induction tasks as [|x tasks IH] using rev_ind; [done|].
  rewrite notionMap_of_snoc. intros [(<- & <- & _)|H]%obj_set_Some.
  - split; [|done]. apply elem_of_app. right. by left.
  - destruct (IH H). split; [|done]. apply elem_of_app. by left.
Qed.

Lemma codeMap_of_snoc todos t :
  codeMap_of (todos ++ [t]) =
  match sc_id t with
  | Some i =>
      if truthy i && negb (bool_decide (i = proto_key))
      then <[i := t]> (codeMap_of todos) else codeMap_of todos
  | None => codeMap_of todos
  end.
Proof. unfold codeMap_of. by rewrite foldl_snoc. Qed.

Lemma codeMap_of_Some todos k t :
  codeMap_of todos !! k = Some t →
  t ∈ todos ∧ sc_id t = Some k ∧ truthy k = true.
Proof.
  induction todos as [|x todos IH] using rev_ind; [done|].
  rewrite codeMap_of_snoc.
  assert (codeMap_of todos !! k = Some t →
          t ∈ todos ++ [x] ∧ sc_id t = Some k ∧ truthy k = true) as IH'.
  { intros H. destruct (IH H) as (? & ? & ?). split_and!; [|done..].
    apply elem_of_app. by left. }
  destruct (sc_id x) as [i|] eqn:Ei; [|done].
  destruct (truthy i) eqn:Ht; [|done].
  destruct (bool_decide (i = proto_key)); [done|]. cbn [negb andb].
  destruct (decide (i = k)) as [E|E].
  - rewrite E, lookup_insert_eq. intros [= <-]. subst i. split_and!; [|done..].
    apply elem_of_app. right. by left.
  - by rewrite lookup_insert_ne.
Qed.

Lemma reconcile_one_cases codeMap notionId notionTask e :
  e ∈ reconcile_one codeMap (notionId, notionTask) ↔
  ∃ codeTodo, codeMap !! notionId = Some codeTodo ∧
    (task_status notionTask = lit "Archived" ∧ e = deleteLine codeTodo ∨
     task_status notionTask ≠ lit "Archived" ∧
     truthy (task_text notionTask) = true ∧
     task_text notionTask ≠ sc_text codeTodo ∧
     e = replaceLine codeTodo (task_text notionTask)).
Proof.
  unfold reconcile_one.
  destruct (decide (task_status notionTask = lit "Archived")) as [Ea|Ea].
  - rewrite bool_decide_eq_true_2 by done.
    destruct (codeMap !! notionId) as [ct|].
    + rewrite list_elem_of_singleton. split.
      * intros ->. exists ct. split; [done|]. by left.
      * intros (ct' & [= <-] & [[_ ->]|[? _]]); done.
    + split; [by intros ?%elem_of_nil|]. by intros (? & ? & _).
  - rewrite bool_decide_eq_false_2 by done.
    destruct (codeMap !! notionId) as [ct|].
    2:{ split; [by intros ?%elem_of_nil|]. by intros (? & ? & _). }
    destruct (truthy (task_text notionTask)) eqn:Ht.
    2:{ split; [by intros ?%elem_of_nil|].
        intros (? & _ & [[? _]|(_ & ? & _)]); done. }
    destruct (decide (task_text notionTask = sc_text ct)) as [Et|Et].
    + rewrite bool_decide_eq_true_2 by done.
      split; [by intros ?%elem_of_nil|].
      intros (ct' & [= <-] & [[? _]|(_ & _ & ? & _)]); done.
    + rewrite bool_decide_eq_false_2 by done. rewrite list_elem_of_singleton. split.
      * intros ->. exists ct. split; [done|]. right. by split_and!.
      * intros (ct' & [= <-] & [[? _]|(_ & _ & _ & ->)]); done.
Qed.

(** X16.  The join of the pull pass.  [syncNotionToCode] keys the remote
    tasks by their page id and the scanned records by the identifier of
    their annotation, so every edit of [reconcileNotionToCode] pairs a
    scanned record with a remote task whose page id equals that
    identifier; the TODO_ID property of the task plays no part.  The edit
    is the deletion of the line for an archived task, and else the
    replacement of the line by the remote text when that text is non-empty
    and differs from the trimmed line. *)
Theorem pull_joins_on_page_id (notionTasks : list task)
    (codeTodos : list scannedTodo) (e : edit) :
  e ∈ reconcileNotionToCode (notionMap_of notionTasks) (codeMap_of codeTodos) →
  ∃ notionTask codeTodo,
    notionTask ∈ notionTasks ∧ codeTodo ∈ codeTodos ∧
    sc_id codeTodo = Some (task_id notionTask) ∧
    (task_status notionTask = lit "Archived" ∧ e = deleteLine codeTodo ∨
     task_status notionTask ≠ lit "Archived" ∧
     truthy (task_text notionTask) = true ∧
     task_text notionTask ≠ sc_text codeTodo ∧
     e = replaceLine codeTodo (task_text notionTask)).
Proof.
  unfold reconcileNotionToCode. intros He.
  apply list_elem_of_bind in He as ([notionId notionTask] & He & Hin).
  apply elem_of_obj_entries in Hin.
  apply reconcile_one_cases in He as (codeTodo & Hc & Hcase).
  apply notionMap_of_Some in Hin as [Hin <-].
  apply codeMap_of_Some in Hc as (Hc & Hid & _).
  by exists notionTask, codeTodo.
Qed.

Lemma pull_joins_on_page_id_witness :
  let remote := mkTask (lit "ab-1") (lit "zz-9") (lit "new text") (lit "a.js")
                  (Some 1%Z) (lit "TODO") (lit "Not started") in
  let local := mkScanned (lit "// TODO [id:ab-1] old text") 0 0 (Some (lit "ab-1"))
                 (lit "file:///a.js") in
  let e := replaceLine local (lit "new text") in
  ∃ notionTask codeTodo,
    notionTask ∈ [remote] ∧ codeTodo ∈ [local] ∧
    sc_id codeTodo = Some (task_id notionTask) ∧
    (task_status notionTask = lit "Archived" ∧ e = deleteLine codeTodo ∨
     task_status notionTask ≠ lit "Archived" ∧
     truthy (task_text notionTask) = true ∧
     task_text notionTask ≠ sc_text codeTodo ∧
     e = replaceLine codeTodo (task_text notionTask)).
Proof.
  intros remote local e.
  apply (pull_joins_on_page_id [remote] [local] e).
  vm_compute. left.
Defined.

Lemma apply_edits_in_place_witness :
  let local := mkScanned (lit "// TODO [id:k-1] old text") 1 0 (Some (lit "k-1"))
                 (lit "file:///a.js") in
  let edits := [replaceLine local (lit "new text")] in
  let lines := [lit "let x = 1;"; lit "// TODO [id:k-1] old text"; lit "f();"] in
  let buffers : gmap jstr (list jstr) := {[ lit "file:///a.js" := lines ]} in
  ∃ lines', apply_edits buffers edits !! lit "file:///a.js" = Some lines' ∧
    length lines' = length lines ∧
    ∀ i, (∀ e, e ∈ edits →
            ¬ (sc_uri (edit_target e) = lit "file:///a.js" ∧
               sc_line (edit_target e) = i)) →
         lines' !! i = lines !! i.
Proof.
  intros local edits lines buffers.
  apply (apply_edits_in_place edits buffers (lit "file:///a.js") lines).
  - repeat constructor; discriminate.
  - reflexivity.
Defined.

(** ** The scan *)

Lemma scan_while_copies d bound : ∀ fuel todos,
  (bound - length todos < fuel)%nat →
  scan_while fuel d bound todos =
  Some (todos ++
        match todoRegex_exec (getText (doc_lines d)) with
        | Some (offset, _, _) =>
            replicate (bound - length todos) (scanned_at d offset)
        | None => []
        end).
Proof.
  induction fuel as [|fuel IH]; intros todos H; [lia|].
  cbn [scan_while].
  destruct (todoRegex_exec (getText (doc_lines d))) as [[[offset tg] r]|];
    [|by rewrite app_nil_r].
  destruct (length todos <? bound)%nat eqn:E.
  - apply Nat.ltb_lt in E. rewrite IH by (rewrite length_app; simpl; lia).
    rewrite length_app. simpl. rewrite <- (assoc_L (++)). simpl.
    replace (bound - length todos)%nat with (S (bound - (length todos + 1)))%nat by lia.
    done.
  - apply Nat.ltb_ge in E.
    replace (bound - length todos)%nat with 0%nat by lia.
    by rewrite app_nil_r.
Qed.

(** X18.  What one document adds to the scan.  For a document of scheme
    file or untitled whose text has a marker, the loop of
    [scanDocumentsForTodos] appends copies of the record of the first
    marker until the list has 50 entries per document up to this one; a
    document without marker or of another scheme adds nothing. *)
Theorem scan_document_copies (index : nat) (d : document) (todos : list scannedTodo) :
  scan_document index d todos =
  Some (todos ++
        if sync_scheme d then
          match todoRegex_exec (getText (doc_lines d)) with
          | Some (offset, _, _) =>
              replicate (50 * (index + 1) - length todos) (scanned_at d offset)
          | None => []
          end
        else []).
Proof.
  unfold scan_document. destruct (sync_scheme d); [|by rewrite app_nil_r].
  change 50%nat with maxTodos. apply scan_while_copies.
  generalize (maxTodos * (index + 1))%nat. intros. lia.
Qed.

(** ** The credentials *)

(** X19.  Credentials that are set are the credentials that are read.
    When both input boxes are answered with non-empty text and both writes
    succeed, [setCredentials] returns the database id (not the boolean
    true), and [getCredentials] then returns that token and that database
    id, which the operations accept as configured. *)
Theorem setCredentials_then_getCredentials (tokenInput databaseIdInput : jstr)
    (h : host) :
  tokenInput ≠ [] → databaseIdInput ≠ [] →
  let '(result, h') := setCredentials (Some tokenInput) (Some databaseIdInput)
                         true true h in
  result = ReturnsDatabaseId (Some databaseIdInput) ∧
  getCredentials true h' = mkStored (Some tokenInput) databaseIdInput ∧
  configured (credentials_of (getCredentials true h')) = true ∧
  workspaceFolders h' = workspaceFolders h.
Proof.
  intros Ht Hd. unfold setCredentials, answered. simpl.
  destruct tokenInput as [|c0 tok]; [done|].
  destruct databaseIdInput as [|d0 db]; [done|]. simpl.
  assert (∀ s d, tokenKey (mkHost (workspaceFolders h) s d) = tokenKey h) as E
    by done.
  rewrite !E, lookup_insert_eq. by split_and!.
Qed.

Lemma setCredentials_then_getCredentials_witness :
  let h := mkHost (Some [lit "/home/me/project"]) ∅ [] in
  let '(result, h') := setCredentials (Some (lit "secret")) (Some (lit "db"))
                         true true h in
  result = ReturnsDatabaseId (Some (lit "db")) ∧
  getCredentials true h' = mkStored (Some (lit "secret")) (lit "db") ∧
  configured (credentials_of (getCredentials true h')) = true ∧
  workspaceFolders h' = workspaceFolders h.
Proof.
  intros h.
  apply (setCredentials_then_getCredentials (lit "secret") (lit "db") h);
    discriminate.
Defined.

Lemma tokenKey_inj h1 h2 :
  tokenKey h1 = tokenKey h2 → getWorkspaceKey h1 = getWorkspaceKey h2.
Proof. unfold tokenKey. intros H. by simplify_list_eq. Qed.


(** X20.  The token is kept per workspace.  Whatever is entered,
    [setCredentials] in one window leaves what [getCredentials] returns in
    a window with another workspace key as it was: the secret is stored
    under a key that ends in the path of the first workspace folder, or in
    the word global when there is no folder. *)
Theorem setCredentials_other_workspace (tokenInput databaseIdInput : option jstr)
    (store_ok update_ok get_ok : bool) (h other : host) :
  secrets other = secrets h →
  getWorkspaceKey other ≠ getWorkspaceKey h →
  let h' := (setCredentials tokenInput databaseIdInput store_ok update_ok h).2 in
  getCredentials get_ok
    (mkHost (workspaceFolders other) (secrets h') (databaseId_setting other)) =
  getCredentials get_ok other.
Proof.
  intros Hs Hk h'. unfold getCredentials. destruct get_ok; [|done].
  assert (∀ s d, tokenKey (mkHost (workspaceFolders other) s d) = tokenKey other) as E
    by done.
  simpl. rewrite E. f_equal. rewrite Hs.
  assert (tokenKey h ≠ tokenKey other) as Hne.
  { intros H. apply Hk. symmetry. by apply tokenKey_inj. }
  subst h'. unfold setCredentials.
  destruct (answered tokenInput), store_ok, (answered databaseIdInput), update_ok;
    simpl; by rewrite ?lookup_insert_ne.
Qed.

Lemma setCredentials_other_workspace_witness :
  let h := mkHost (Some [lit "/home/me/project"])
             {[ lit "notionIntegrationToken_/home/me/other" := lit "theirs" ]} [] in
  let other := mkHost (Some [lit "/home/me/other"]) (secrets h) (lit "their-db") in
  let h' := (setCredentials (Some (lit "mine")) (Some (lit "my-db")) true true h).2 in
  getCredentials true
    (mkHost (workspaceFolders other) (secrets h') (databaseId_setting other)) =
  getCredentials true other.
Proof.
  intros h other.
  apply (setCredentials_other_workspace (Some (lit "mine")) (Some (lit "my-db"))
           true true true h other).
  - reflexivity.
  - discriminate.
Defined.

(** X21.  A token without a database.  When the token is stored and the
    second input box is dismissed or left empty, or the update of the
    setting fails, [setCredentials] returns a falsy value, yet the token
    stays stored: [getCredentials] returns it with the database id of
    before. *)
Theorem setCredentials_partial (tokenInput : jstr) (databaseIdInput : option jstr)
    (update_ok : bool) (h : host) :
  tokenInput ≠ [] → answered databaseIdInput = false ∨ update_ok = false →
  let '(result, h') :=
    setCredentials (Some tokenInput) databaseIdInput true update_ok h in
  result_truthy result = false ∧
  getCredentials true h' = mkStored (Some tokenInput) (databaseId_setting h).
Proof.
  intros Ht Hd. unfold setCredentials, getCredentials, answered in *. simpl.
  destruct tokenInput as [|c0 tok]; [done|]. simpl.
  assert (∀ s d, tokenKey (mkHost (workspaceFolders h) s d) = tokenKey h) as E
    by done.
  destruct (truthy (default [] databaseIdInput)) eqn:Ea.
  - destruct Hd as [Hd| ->]; [done|]. simpl. by rewrite E, lookup_insert_eq.
  - simpl. unfold answered. by rewrite Ea, E, lookup_insert_eq.
Qed.

Lemma setCredentials_partial_witness :
  let h := mkHost None ∅ (lit "old-db") in
  let '(result, h') := setCredentials (Some (lit "secret")) None true true h in
  result_truthy result = false ∧
  getCredentials true h' = mkStored (Some (lit "secret")) (databaseId_setting h).
Proof.
  intros h.
  apply (setCredentials_partial (lit "secret") None true h); [discriminate|by left].
Defined.

Section FacadeProperties.

Context {World : Type} (notion : request → World → response * World).

(** X22.  Without a stored token nothing is sent.  When the secret storage
    holds no token under the key of this workspace, or cannot be read, the
    operations of notion.js make no call to the client: the fetch returns
    no task, the schema is null and a push pass returns three empty
    lists. *)
Theorem no_stored_token_no_request (get_ok : bool) (h : host) (w : World) :
  get_ok = false ∨ secrets h !! tokenKey h = None →
  notion_fetchNotionState notion get_ok h w = ([], w, []) ∧
  notion_listDatabaseProperties notion get_ok h w = (None, w, []) ∧
  ∀ todos cached,
    notion_syncTodos notion get_ok h todos cached w = (empty_result, w, []).
Proof.
  intros H.
  assert (configured (credentials_of (getCredentials get_ok h)) = false) as Hc.
  { unfold getCredentials. destruct H as [->| H]; [done|].
    destruct get_ok; [|done]. by rewrite H. }
  unfold notion_fetchNotionState, notion_listDatabaseProperties, notion_syncTodos,
    fetchNotionState, listDatabaseProperties, syncTodos. rewrite Hc. by split_and!.
Qed.

End FacadeProperties.

Lemma no_stored_token_no_request_witness :
  let h := mkHost (Some [lit "/home/me/project"])
             {[ lit "notionIntegrationToken_global" := lit "secret" ]} (lit "db") in
  notion_fetchNotionState all_ok true h tt = ([], tt, []) ∧
  notion_listDatabaseProperties all_ok true h tt = (None, tt, []) ∧
  ∀ todos cached,
    notion_syncTodos all_ok true h todos cached tt = (empty_result, tt, []).
Proof.
  intros h. apply (no_stored_token_no_request all_ok true h tt).
  right. reflexivity.
Defined.

(** ** Saving a document *)

(** ** The cache *)

Lemma cache_of_snoc todos t :
  cache_of (todos ++ [t]) =
  if truthy (todo_id t) then obj_set (cache_of todos) (todo_id t) t
  else cache_of todos.
Proof. unfold cache_of. by rewrite foldl_snoc. Qed.

Lemma cache_of_Some todos k t :
  cache_of todos !! k = Some t → t ∈ todos ∧ todo_id t = k.
Proof.
  induction todos as [|x todos IH] using rev_ind; [done|].
  rewrite cache_of_snoc.
  assert (cache_of todos !! k = Some t → t ∈ todos ++ [x] ∧ todo_id t = k) as IH'.
  { intros H. destruct (IH H). split; [|done]. apply elem_of_app. by left. }
  destruct (truthy (todo_id x)); [|done].
  intros [(<- & <- & _)|H]%obj_set_Some; [|by apply IH'].
  split; [|done]. apply elem_of_app. right. by left.
Qed.

Lemma cache_of_total todos t :
  t ∈ todos → truthy (todo_id t) = true → todo_id t ≠ proto_key →
  is_Some (cache_of todos !! todo_id t).
Proof.
  induction todos as [|x todos IH] using rev_ind; [by intros ?%elem_of_nil|].
  rewrite cache_of_snoc. intros [H|H]%elem_of_app Ht Hp.
  - destruct (truthy (todo_id x)); [|by apply IH].
    destruct (decide (todo_id x = todo_id t)) as [E|E].
    + rewrite E, obj_set_eq by done. by eexists.
    + rewrite obj_set_ne by done. by apply IH.
  - apply list_elem_of_singleton in H as ->. rewrite Ht, obj_set_eq by done.
    by eexists.
Qed.

Lemma cache_of_Some_key todos k t :
  cache_of todos !! k = Some t → truthy k = true ∧ k ≠ proto_key.
Proof.
  induction todos as [|x todos IH] using rev_ind; [done|].
  rewrite cache_of_snoc. destruct (truthy (todo_id x)) eqn:Ht; [|done].
  intros [(<- & _ & Hp)|H]%obj_set_Some; [done|by apply IH].
Qed.

(** An identifier made of token characters is not [__proto__]. *)
Lemma tok_not_proto (id : jstr) :
  Forall (λ c, is_tok c = true) id → id ≠ proto_key.
Proof.
  intros H ->. apply (Forall_inv (l := lit "_proto__")) in H. by vm_compute in H.
Qed.

Lemma take_parseTodos rnd k d :
  take 100 (parseTodos rnd k d).1 = (parseTodos rnd k d).1.
Proof.
  apply take_ge. pose proof (parseTodos_bound rnd k d). unfold maxTodos in *. lia.
Qed.

Lemma parseTodos_ids rnd k d t :
  t ∈ (parseTodos rnd k d).1 → truthy (todo_id t) = true.
Proof.
  unfold parseTodos. rewrite parse_loop_records. simpl. intros H.
  destruct (records_from_spec (doc_fsPath d) rnd (doc_lines d) [] k 0%nat t H)
    as (l & k0 & k1 & _ & _ & Hp).
  destruct (parseLine_id_tok _ _ _ _ _ _ _ Hp) as [Hne _].
  by destruct (todo_id t).
Qed.

Lemma parseTodos_ids_tok rnd k d t :
  t ∈ (parseTodos rnd k d).1 → todo_id t ≠ proto_key.
Proof.
  unfold parseTodos. rewrite parse_loop_records. simpl. intros H.
  destruct (records_from_spec (doc_fsPath d) rnd (doc_lines d) [] k 0%nat t H)
    as (l & k0 & k1 & _ & _ & Hp).
  destruct (parseLine_id_tok _ _ _ _ _ _ _ Hp) as [_ Htok].
  by apply tok_not_proto.
Qed.

Lemma records_from_no_marker fsPath rnd ls : ∀ k i count,
  Forall (λ l, todoRegex_exec l = None) ls →
  parse_loop fsPath rnd k i ls [] = ([], k) ∧
  records_from fsPath rnd k i count ls = [].
Proof.
  induction ls as [|l ls IH]; intros k i count H; [done|].
  apply Forall_cons in H as [Hl H]. cbn [parse_loop records_from]. simpl.
  rewrite (proj2 (parseLine_None fsPath rnd k i l) Hl).
  destruct (IH k (S i) count H) as [-> ->]. by destruct (count <? maxTodos)%nat.
Qed.

Lemma injectTodoIds_stamped rnd k rnd2 k2 d :
  mkDocument (doc_uri d) (doc_scheme d) (doc_fsPath d)
    (injectTodoIds (doc_lines (stampDocument rnd k d))
       (parseTodos rnd2 k2 (stampDocument rnd k d)).1) =
  stampDocument rnd k d.
Proof.
  unfold stampDocument at 3. f_equal.
  change (doc_lines (stampDocument rnd2 k2 (stampDocument rnd k d)) =
          doc_lines (stampDocument rnd k d)).
  rewrite !stampDocument_lines. simpl. apply stamp_lines_idempotent.
Qed.

Section SaveProperties.

Context {World : Type} (notion : request → World → response * World).

(** X23.  The cache after a pass.  When [syncTodosOnSave] reaches the push
    pass, it replaces the cache entry of the document by the extracted
    records keyed by identifier, whatever the pass returned and whether or
    not the injection was applied: every extracted record has its
    identifier in the entry, every entry is an extracted record under its
    own identifier, the entries of other documents are untouched, and the
    limit of 100 records drops nothing. *)
Theorem syncTodosOnSave_cache (rnd : nat → N) (k : nat) (applied get_ok : bool)
    (h : host) (d : document) (st : saveState) (w : World) :
  skip_set st (doc_uri d) = false → sync_scheme d = true →
  (parseTodos rnd k d).1 ≠ [] →
  let st' := saved_state (syncTodosOnSave notion rnd k applied get_ok h d st w) in
  let todos := (parseTodos rnd k d).1 in
  todoCache st' = <[doc_uri d := cache_of todos]> (todoCache st) ∧
  (∀ t, t ∈ todos → is_Some (cache_of todos !! todo_id t)) ∧
  (∀ id t, cache_of todos !! id = Some t → t ∈ todos ∧ todo_id t = id) ∧
  (∀ uri, uri ≠ doc_uri d → todoCache st' !! uri = todoCache st !! uri).
Proof.
  intros Hskip Hscheme Hne st' todos.
  assert (todoCache st' = <[doc_uri d := cache_of todos]> (todoCache st)) as E.
  { subst st' todos. unfold saved_state, syncTodosOnSave. rewrite Hskip, Hscheme. simpl.
    pose proof (take_parseTodos rnd k d) as Ht.
    destruct (parseTodos rnd k d) as [parsed k'] eqn:Ep. simpl in *. rewrite Ht.
    destruct parsed as [|t parsed]; [done|].
    unfold bind.
    destruct (notion_syncTodos notion get_ok h (t :: parsed) _ w) as [[res w1] l1].
    by destruct applied. }
  split_and!; [done| | |].
  - intros t Ht.
    apply cache_of_total; [done|by eapply parseTodos_ids|by eapply parseTodos_ids_tok].
  - apply cache_of_Some.
  - intros uri Hu. by rewrite E, lookup_insert_ne.
Qed.

(** X24.  A document without marker.  Saving a document in which no line
    matches the marker pattern makes no call, logs nothing, draws no
    identifier and leaves the document and the whole cache as they are:
    the records cached for it before stay cached and are not archived. *)
Theorem save_without_marker (rnd : nat → N) (k : nat) (applied get_ok : bool)
    (h : host) (d : document) (st : saveState) (w : World) :
  Forall (λ l, todoRegex_exec l = None) (doc_lines d) →
  ∃ outcome st',
    syncTodosOnSave notion rnd k applied get_ok h d st w =
      ((outcome, d, st', k), w, []) ∧
    todoCache st' = todoCache st ∧
    (skip_set st (doc_uri d) = false → st' = st).
Proof.
  intros Hno. unfold syncTodosOnSave.
  destruct (skip_set st (doc_uri d)); [by eexists _, _|].
  destruct (sync_scheme d); simpl; [|by eexists _, _].
  unfold parseTodos.
  destruct (records_from_no_marker (doc_fsPath d) rnd (doc_lines d) k 0 0 Hno)
    as [-> _]. simpl. by eexists _, _.
Qed.

(** X25.  The save that follows an injection.  After a pass whose
    injection was applied the flag of the document is set; the next save
    of that document is skipped without any call or change to the cache,
    whatever its content, and clears the flag, so that the save after it
    is not skipped on that account; the flags of other documents are
    untouched. *)
Theorem programmatic_save_is_skipped (rnd rnd2 : nat → N) (k k2 : nat)
    (get_ok get_ok2 applied2 : bool) (h h2 : host) (d d2 : document)
    (st : saveState) (w w2 : World) :
  skip_set st (doc_uri d) = false → sync_scheme d = true →
  (parseTodos rnd k d).1 ≠ [] → doc_uri d2 = doc_uri d →
  let st1 := saved_state (syncTodosOnSave notion rnd k true get_ok h d st w) in
  skip_set st1 (doc_uri d) = true ∧
  ∃ st2,
    syncTodosOnSave notion rnd2 k2 applied2 get_ok2 h2 d2 st1 w2 =
      ((SkippedProgrammaticSave, d2, st2, k2), w2, []) ∧
    todoCache st2 = todoCache st1 ∧
    skip_set st2 (doc_uri d) = false ∧
    (∀ uri, uri ≠ doc_uri d → skip_set st2 uri = skip_set st uri).
Proof.
  intros Hskip Hscheme Hne Huri st1.
  assert (skipNextSaveForUri st1 = <[doc_uri d := true]> (skipNextSaveForUri st)) as E.
  { subst st1. unfold saved_state, syncTodosOnSave. rewrite Hskip, Hscheme. simpl.
    pose proof (take_parseTodos rnd k d) as Ht.
    destruct (parseTodos rnd k d) as [parsed k'] eqn:Ep. simpl in *. rewrite Ht.
    destruct parsed as [|t parsed]; [done|].
    unfold bind.
    by destruct (notion_syncTodos notion get_ok h (t :: parsed) _ w) as [[res w1] l1]. }
  assert (skip_set st1 (doc_uri d) = true) as Hset.
  { unfold skip_set. by rewrite E, lookup_insert_eq. }
  split; [done|].
  unfold syncTodosOnSave at 1. rewrite Huri, Hset.
  eexists. split_and!; [done|done| |].
  - unfold skip_set. simpl. by rewrite lookup_insert_eq.
  - intros uri Hu. unfold skip_set. simpl.
    by rewrite lookup_insert_ne, E, lookup_insert_ne.
Qed.

Lemma same_record_ids l2 l1 :
  Forall2 same_record l2 l1 → todo_id <$> l2 = todo_id <$> l1.
Proof.
  induction 1 as [|a b l2 l1 (E & _) _ IH]; [done|]. rewrite !fmap_cons. by f_equal.
Qed.

Lemma cache_of_dom todos id :
  is_Some (cache_of todos !! id) ↔
  id ∈ todo_id <$> todos ∧ truthy id = true ∧ id ≠ proto_key.
Proof.
  split.
  - intros [t Ht]. destruct (cache_of_Some _ _ _ Ht) as [Hin <-].
    destruct (cache_of_Some_key _ _ _ Ht). split_and!; [|done..].
    apply list_elem_of_fmap. by exists t.
  - intros (Hin & Ht & Hp). apply list_elem_of_fmap in Hin as (t & -> & Hin).
    by apply cache_of_total.
Qed.

(** X26.  The save after the identifiers are in the text.  The document
    left by an applied injection is the stamped document; a later pass on
    it extracts the same identifiers, lines and types, draws no new
    identifier, leaves the text as it is whether or not its edit is
    applied, and caches the same identifiers for the document. *)
Theorem resave_after_injection (rnd rnd2 : nat → N) (k k2 : nat)
    (applied2 get_ok get_ok2 : bool) (h h2 : host) (d : document)
    (st st2 : saveState) (w w2 : World) :
  skip_set st (doc_uri d) = false → skip_set st2 (doc_uri d) = false →
  sync_scheme d = true → (parseTodos rnd k d).1 ≠ [] →
  let first := syncTodosOnSave notion rnd k true get_ok h d st w in
  let second :=
    syncTodosOnSave notion rnd2 k2 applied2 get_ok2 h2 (saved_document first) st2 w2 in
  saved_document first = stampDocument rnd k d ∧
  saved_document second = saved_document first ∧
  next_draw second = k2 ∧
  Forall2 same_record (parseTodos rnd2 k2 (saved_document first)).1
    (parseTodos rnd k d).1 ∧
  (∀ id, is_Some (todoCache (saved_state second) !! doc_uri d ≫= (.!! id)) ↔
         is_Some (todoCache (saved_state first) !! doc_uri d ≫= (.!! id))).
Proof.
  intros Hskip Hskip2 Hscheme Hne first second.
  assert (saved_document first = stampDocument rnd k d ∧
          todoCache (saved_state first) !! doc_uri d =
            Some (cache_of (parseTodos rnd k d).1)) as [E1 Ec1].
  { subst first. unfold saved_document, saved_state, syncTodosOnSave.
    rewrite Hskip, Hscheme. simpl.
    pose proof (take_parseTodos rnd k d) as Ht. unfold stampDocument.
    destruct (parseTodos rnd k d) as [parsed k'] eqn:Ep. simpl in *. rewrite Ht.
    destruct parsed as [|t parsed]; [done|].
    unfold bind.
    destruct (notion_syncTodos notion get_ok h (t :: parsed) _ w) as [[res w1] l1].
    simpl. by rewrite lookup_insert_eq. }
  assert (Forall2 same_record (parseTodos rnd2 k2 (stampDocument rnd k d)).1
            (parseTodos rnd k d).1) as Hsame.
  { unfold parseTodos at 1. rewrite stampDocument_lines.
    change (doc_fsPath (stampDocument rnd k d)) with (doc_fsPath d).
    unfold parseTodos. rewrite !parse_loop_records. simpl.
    apply reparse_records. }
  assert ((parseTodos rnd2 k2 (stampDocument rnd k d)).2 = k2) as Hdraw.
  { unfold parseTodos. rewrite stampDocument_lines.
    change (doc_fsPath (stampDocument rnd k d)) with (doc_fsPath d).
    by apply reparse_draws. }
  assert ((parseTodos rnd2 k2 (stampDocument rnd k d)).1 ≠ []) as Hne2.
  { intros E. rewrite E in Hsame. by apply Forall2_nil_inv_l in Hsame. }
  assert (saved_document second = saved_document first ∧ next_draw second = k2 ∧
          todoCache (saved_state second) !! doc_uri d =
            Some (cache_of (parseTodos rnd2 k2 (stampDocument rnd k d)).1))
    as (E2 & Ek & Ec2).
  { subst second. rewrite E1.
    unfold saved_document, saved_state, next_draw, syncTodosOnSave.
    change (doc_uri (stampDocument rnd k d)) with (doc_uri d).
    change (sync_scheme (stampDocument rnd k d)) with (sync_scheme d).
    rewrite Hskip2, Hscheme. simpl.
    pose proof (take_parseTodos rnd2 k2 (stampDocument rnd k d)) as Ht.
    pose proof (injectTodoIds_stamped rnd k rnd2 k2 d) as Hfix.
    destruct (parseTodos rnd2 k2 (stampDocument rnd k d)) as [parsed k'] eqn:Ep.
    simpl in *. rewrite Ht. subst k'.
    destruct parsed as [|t parsed]; [done|].
    unfold bind.
    destruct (notion_syncTodos notion get_ok2 h2 (t :: parsed) _ w2) as [[res w1] l1].
    destruct applied2; simpl; by rewrite lookup_insert_eq. }
  rewrite E1. split_and!; [done|by rewrite <- E1|done|done|].
  intros id. rewrite Ec1, Ec2. simpl. rewrite !cache_of_dom.
  by rewrite (same_record_ids _ _ Hsame).
Qed.

End SaveProperties.

(** ** The tracking of the open documents *)








Lemma syncTodosOnSave_cache_witness :
  let st' := saved_state (syncTodosOnSave all_ok zero_rnd 0 true true ready_host
                            marked_document empty_state tt) in
  let todos := (parseTodos zero_rnd 0 marked_document).1 in
  todoCache st' = <[doc_uri marked_document := cache_of todos]> (todoCache empty_state) ∧
  (∀ t, t ∈ todos → is_Some (cache_of todos !! todo_id t)) ∧
  (∀ id t, cache_of todos !! id = Some t → t ∈ todos ∧ todo_id t = id) ∧
  (∀ uri, uri ≠ doc_uri marked_document →
     todoCache st' !! uri = todoCache empty_state !! uri).
Proof.
  apply (syncTodosOnSave_cache all_ok zero_rnd 0 true true ready_host
           marked_document empty_state tt).
  - reflexivity.
  - reflexivity.
  - vm_compute. discriminate.
Defined.

Lemma save_without_marker_witness :
  let d := mkDocument (lit "file:///b.js") (lit "file") (lit "/b.js")
             [lit "let x = 1;"; lit "f(x); /* TODO later */"] in
  let st := mkSaveState {[ lit "file:///b.js" := cache_of [sample "ab-1" "gone" 1] ]} ∅ in
  ∃ outcome st',
    syncTodosOnSave all_ok zero_rnd 0 true true ready_host d st tt =
      ((outcome, d, st', 0%nat), tt, []) ∧
    todoCache st' = todoCache st ∧
    (skip_set st (doc_uri d) = false → st' = st).
Proof.
  intros d st.
  apply (save_without_marker all_ok zero_rnd 0 true true ready_host d st tt).
  repeat constructor.
Defined.

Lemma programmatic_save_is_skipped_witness :
  let d := marked_document in
  let st1 := saved_state (syncTodosOnSave all_ok zero_rnd 0 true true ready_host
                            d empty_state tt) in
  skip_set st1 (doc_uri d) = true ∧
  ∃ st2,
    syncTodosOnSave all_ok zero_rnd 31 true true ready_host
      (stampDocument zero_rnd 0 d) st1 tt =
      ((SkippedProgrammaticSave, stampDocument zero_rnd 0 d, st2, 31%nat), tt, []) ∧
    todoCache st2 = todoCache st1 ∧
    skip_set st2 (doc_uri d) = false ∧
    (∀ uri, uri ≠ doc_uri d → skip_set st2 uri = skip_set empty_state uri).
Proof.
  intros d.
  apply (programmatic_save_is_skipped all_ok zero_rnd zero_rnd 0 31 true true true
           ready_host ready_host d (stampDocument zero_rnd 0 d) empty_state tt tt).
  - reflexivity.
  - reflexivity.
  - vm_compute. discriminate.
  - reflexivity.
Defined.

Lemma resave_after_injection_witness :
  let d := marked_document in
  let first := syncTodosOnSave all_ok zero_rnd 0 true true ready_host d empty_state tt in
  let second :=
    syncTodosOnSave all_ok zero_rnd 31 true true ready_host (saved_document first)
      empty_state tt in
  saved_document first = stampDocument zero_rnd 0 d ∧
  saved_document second = saved_document first ∧
  next_draw second = 31%nat ∧
  Forall2 same_record (parseTodos zero_rnd 31 (saved_document first)).1
    (parseTodos zero_rnd 0 d).1 ∧
  (∀ id, is_Some (todoCache (saved_state second) !! doc_uri d ≫= (.!! id)) ↔
         is_Some (todoCache (saved_state first) !! doc_uri d ≫= (.!! id))).
Proof.
  intros d.
  apply (resave_after_injection all_ok zero_rnd zero_rnd 0 31 true true true
           ready_host ready_host d empty_state empty_state tt tt).
  - reflexivity.
  - reflexivity.
  - reflexivity.
  - vm_compute. discriminate.
Defined.

(** ** The marker pattern *)

Lemma ci_prefix_Some p : ∀ s r,
  ci_prefix p s = Some r ↔ ∃ name, s = name ++ r ∧ upcase <$> name = p.
Proof.
  induction p as [|a p IH]; intros s r; simpl.
  - split.
    + intros [= ->]. by exists [].
    + intros (name & -> & Hn). apply fmap_nil_inv in Hn. by subst.
  - destruct s as [|c s].
    + split; [done|]. intros (name & Hs & Hn).
      destruct name; [done|]. done.
    + destruct (upcase c =? a) eqn:E.
      * apply N.eqb_eq in E. rewrite IH. split.
        -- intros (name & -> & <-). exists (c :: name). by rewrite fmap_cons, E.
        -- intros (name & Hs & Hn). destruct name as [|c' name]; [done|].
           rewrite fmap_cons in Hn. simpl in Hs. inversion Hs; inversion Hn; subst.
           by exists name.
      * apply N.eqb_neq in E. split; [done|]. intros (name & Hs & Hn).
        destruct name as [|c' name]; [done|].
        rewrite fmap_cons in Hn. simpl in Hs. inversion Hs; inversion Hn; subst. done.
Qed.

Lemma tag_at_Some s tg r :
  tag_at s = Some (tg, r) → ∃ name, s = name ++ r ∧ upcase <$> name = tag_name tg.
Proof.
  unfold tag_at.
  destruct (ci_prefix (tag_name TODO) s) eqn:E1;
    [intros [= <- <-]; by apply ci_prefix_Some|].
  destruct (ci_prefix (tag_name FIXME) s) eqn:E2;
    [intros [= <- <-]; by apply ci_prefix_Some|].
  destruct (ci_prefix (tag_name BUG) s) eqn:E3;
    [intros [= <- <-]; by apply ci_prefix_Some|].
  destruct (ci_prefix (tag_name HACK) s) eqn:E4;
    [intros [= <- <-]; by apply ci_prefix_Some|].
  destruct (ci_prefix (tag_name XXX) s) eqn:E5;
    [intros [= <- <-]; by apply ci_prefix_Some|done].
Qed.

Lemma tag_at_is_Some name rest tg :
  upcase <$> name = tag_name tg → is_Some (tag_at (name ++ rest)).
Proof.
  intros Hn.
  assert (ci_prefix (tag_name tg) (name ++ rest) = Some rest) as H
    by (apply ci_prefix_Some; by exists name).
  unfold tag_at.
  destruct (ci_prefix (tag_name TODO) _) eqn:E1; [by eexists|].
  destruct (ci_prefix (tag_name FIXME) _) eqn:E2; [by eexists|].
  destruct (ci_prefix (tag_name BUG) _) eqn:E3; [by eexists|].
  destruct (ci_prefix (tag_name HACK) _) eqn:E4; [by eexists|].
  destruct (ci_prefix (tag_name XXX) _) eqn:E5; [by eexists|].
  destruct tg; congruence.
Qed.

Lemma tag_head_not_space name tg :
  upcase <$> name = tag_name tg →
  ∃ c name', name = c :: name' ∧ is_space c = false.
Proof.
  intros H. destruct name as [|c name']; [by destruct tg|].
  exists c, name'. split; [done|].
  assert (65 <= upcase c <= 90) as Hc.
  { destruct tg; inversion H as [[Hc Hr]]; rewrite Hc; vm_compute; split; discriminate. }
  destruct (is_space c) eqn:E; [|done].
  apply space_not_tok in E. apply upcase_letter_tok in Hc. congruence.
Qed.

Lemma todoRegex_exec_prefix pre s :
  is_Some (todoRegex_exec s) → is_Some (todoRegex_exec (pre ++ s)).
Proof.
  intros H. induction pre as [|c pre IH]; [done|].
  simpl app. cbn [todoRegex_exec].
  destruct (marker_at (c :: pre ++ s)) as [[]|]; [by eexists|].
  destruct IH as [[[n t] r] ->]. by eexists.
Qed.

(** X2.  The lines that carry a marker.  The pattern of [getTodoRegex]
    matches a line exactly when the line contains two slashes, then any
    white space, then one of the five tags in any mix of upper and lower
    case.  Nothing is required before the slashes or after the tag: neither
    a colon nor the end of a word. *)
Theorem todoRegex_exec_marker (lineText : jstr) :
  is_Some (todoRegex_exec lineText) ↔
  ∃ pre ws name rest tg,
    lineText = pre ++ lit "//" ++ ws ++ name ++ rest ∧
    Forall (λ c, is_space c = true) ws ∧
    upcase <$> name = tag_name tg.
Proof.
  split.
  - induction lineText as [|c l IH]; [by intros [? ?]|].
    cbn [todoRegex_exec].
    destruct (marker_at (c :: l)) as [[tg r]|] eqn:Em.
    + intros _. unfold marker_at in Em.
      destruct l as [|c1 r0]; [done|].
      destruct ((c =? 47) && (c1 =? 47)) eqn:Ec; [|done].
      apply andb_true_iff in Ec as [->%N.eqb_eq ->%N.eqb_eq].
      apply tag_at_Some in Em as (name & Hs & Hn).
      unfold trimStart in Hs.
      destruct (span is_space r0) as [ws b] eqn:Es.
      destruct (span_spec _ _ _ _ Es) as (-> & Hws & _). simpl in Hs. subst b.
      by exists [], ws, name, r, tg.
    + destruct (todoRegex_exec l) as [[[n t] r]|]; [|by intros [? ?]].
      intros _. destruct IH as (pre & ws & name & rest & tg & -> & ? & ?); [by eexists|].
      by exists (c :: pre), ws, name, rest, tg.
  - intros (pre & ws & name & rest & tg & -> & Hws & Hn).
    apply todoRegex_exec_prefix.
    change (lit "//" ++ ws ++ name ++ rest) with (47 :: 47 :: ws ++ name ++ rest).
    cbn [todoRegex_exec].
    assert (is_Some (marker_at (47 :: 47 :: ws ++ name ++ rest))) as [[t r] ->];
      [|by eexists].
    unfold marker_at. simpl.
    destruct (tag_head_not_space name tg Hn) as (c & name' & -> & Hc).
    rewrite trimStart_spaces by done.
    by eapply (tag_at_is_Some (c :: name')).
Qed.

(** ** Remote records without a line number *)

Section LineNumberProperties.

Context {World : Type} (notion : request → World → response * World).

(** X14.  A remote record without a numeric line number is rewritten at
    every pass.  When the remote record found for the identifier of a
    current record has no number in its Line Number property and the loop
    gets to the record (line 363 throws for none of the records before
    it), the pass calls [updateTodo] for the record, whatever its other
    fields; in any case it neither logs no changes nor creates a page for
    it. *)
Theorem record_without_line_number_is_updated (c : credentials)
    (todos : list todo) (cached : jsobj todo) (w : World)
    (n : nat) (t : todo) (p : pageRef) (tk : task) :
  configured c = true → todos !! n = Some t → truthy (todo_id t) = true →
  lookup_truthy (remote_index notion c w) (todo_id t) = Some p →
  remote_by_key notion c w !! key_text p = Some tk →
  task_lineNumber tk = None →
  (reached (remote_index notion c w) (remote_by_key notion c w) todos n = true →
   updateTodo_called p t ∈ (syncTodos notion c todos cached w).2) ∧
  (debug_no_changes t ∉ (syncTodos notion c todos cached w).2) ∧
  (createTodo_called t ∉ (syncTodos notion c todos cached w).2).
Proof.
  intros Hc Ht Hid Hl Hk Hn.
  pose proof (missing_line_number_needs_update tk t Hn) as Hneeds.
  assert (debug_no_changes t ∉ (syncTodos notion c todos cached w).2) as Hnc.
  { intros H. apply no_changes_only_if_equal in H as (_ & p' & tk' & Hl' & Hk' & Hn').
    congruence. }
  assert (createTodo_called t ∉ (syncTodos notion c todos cached w).2) as Hcr.
  { intros H. apply created_only_if_unindexed in H. congruence. }
  split_and!; [|done..]. intros Hreach.
  assert (throws_at (remote_index notion c w) (remote_by_key notion c w) t = false)
    as Hth.
  { unfold throws_at. rewrite Hid, Hl, Hk. by apply bool_decide_eq_false_2. }
  destruct (push_decides notion c todos cached w n t Hc Ht Hid Hreach Hth)
    as [H|[[q H]|H]]; [done| |done].
  pose proof (updated_only_if_indexed notion c todos cached w q t H) as (_ & Hq & _).
  congruence.
Qed.

End LineNumberProperties.

Lemma record_without_line_number_is_updated_witness :
  let t := sample "abc-123" "handle edge case" 0 in
  let stored := mkPage (lit "page-1") (Some (todo_text t)) (Some (todo_id t))
                  (Some (todo_filePath t)) None (Some (todo_type t))
                  (Some (todo_status t)) in
  let remote := scripted (Some [stored]) (always true) (always true) (always true) in
  (updateTodo_called (PageKey (lit "page-1")) t ∈ (syncTodos remote creds [t] ∅ tt).2) ∧
  (debug_no_changes t ∉ (syncTodos remote creds [t] ∅ tt).2) ∧
  (createTodo_called t ∉ (syncTodos remote creds [t] ∅ tt).2).
Proof.
  intros t stored remote.
  destruct (record_without_line_number_is_updated remote creds [t] ∅ tt 0 t
              (PageKey (lit "page-1")) (page_to_task stored)) as [Hup Hrest].
  - reflexivity.
  - reflexivity.
  - reflexivity.
  - vm_compute. reflexivity.
  - vm_compute. reflexivity.
  - reflexivity.
  - split; [apply Hup; reflexivity|exact Hrest].
Defined.

(** ** The client *)

Lemma clients_used_from notionClient calls : ∀ (i : nat) (used : jstr),
  clients_used notionClient calls !! i = Some used →
  (∃ (j : nat) user, (j ≤ i)%nat ∧ calls !! j = Some (user, used) ∧
     (user = FetchNotionState ∨ notionClient = None ∧ j = 0%nat) ∧
     ∀ (m : nat) token, (j < m ≤ i)%nat → calls !! m ≠ Some (FetchNotionState, token)) ∨
  (notionClient = Some used ∧
   ∀ (m : nat) token, (m ≤ i)%nat → calls !! m ≠ Some (FetchNotionState, token)).
Proof.
  revert notionClient.
  induction calls as [|[user token] calls IH]; intros notionClient i used; [done|].
  cbn [clients_used].
  destruct (obtain_client user token notionClient) as [u nc'] eqn:Eo.
  destruct i as [|i]; simpl.
  - intros [= <-]. unfold obtain_client in Eo.
    destruct user, notionClient as [t|]; inversion Eo; subst.
    all: try (left; exists 0%nat, FetchNotionState; split_and!;
              [lia|done|by left|intros; lia]).
    + right. split; [done|]. intros m tok Hm. assert (m = 0%nat) as -> by lia. done.
    + left. exists 0%nat, ListDatabaseProperties. split_and!; [lia|done|by right|intros; lia].
    + right. split; [done|]. intros m tok Hm. assert (m = 0%nat) as -> by lia. done.
    + left. exists 0%nat, GetNotionClient. split_and!; [lia|done|by right|intros; lia].
  - intros H. destruct (IH nc' i used H) as [(j & user' & Hj & Hc & Hk & Hno)|[Hnc Hno]].
    + left. destruct Hk as [->|[Hnone ->]].
      * exists (S j), FetchNotionState. split_and!; [lia|done|by left|].
        intros [|m] tok Hm; [lia|]. simpl. apply Hno. lia.
      * exfalso. unfold obtain_client in Eo.
        destruct user, notionClient; inversion Eo; subst; done.
    + rewrite Hnc in Eo. clear Hnc. unfold obtain_client in Eo.
      destruct user, notionClient as [t|]; inversion Eo; subst.
      * left. exists 0%nat, FetchNotionState. split_and!; [lia|done|by left|].
        intros [|m] tok Hm; [lia|]. simpl. apply Hno. lia.
      * left. exists 0%nat, FetchNotionState. split_and!; [lia|done|by left|].
        intros [|m] tok Hm; [lia|]. simpl. apply Hno. lia.
      * right. split; [done|]. intros [|m] tok Hm; [done|]. simpl. apply Hno. lia.
      * left. exists 0%nat, ListDatabaseProperties. split_and!; [lia|done|by right|].
        intros [|m] tok Hm; [lia|]. simpl. apply Hno. lia.
      * right. split; [done|]. intros [|m] tok Hm; [done|]. simpl. apply Hno. lia.
      * left. exists 0%nat, GetNotionClient. split_and!; [lia|done|by right|].
        intros [|m] tok Hm; [lia|]. simpl. apply Hno. lia.
Qed.

(** X28.  The client is replaced by [fetchNotionState] only.  In any
    sequence of configured calls that starts without a client, a call
    works with the client created for the token of the latest
    [fetchNotionState] up to it, itself included, or, when there is none,
    for the token of the first call of the sequence: not for the token of
    its own credentials. *)
Theorem client_of_latest_fetch (calls : list (clientUser * jstr)) (i : nat)
    (used : jstr) :
  clients_used None calls !! i = Some used →
  ∃ (j : nat) user, (j ≤ i)%nat ∧ calls !! j = Some (user, used) ∧
    (user = FetchNotionState ∨ j = 0%nat) ∧
    ∀ (m : nat) token, (j < m ≤ i)%nat → calls !! m ≠ Some (FetchNotionState, token).
Proof.
  intros H. destruct (clients_used_from None calls i used H)
    as [(j & user & Hj & Hc & Hk & Hno)|[? _]]; [|done].
  exists j, user. split_and!; [done|done| |done].
  destruct Hk as [?|[_ ?]]; [by left|by right].
Qed.

Lemma client_of_latest_fetch_witness :
  let calls := [(FetchNotionState, lit "old-token");
                (ListDatabaseProperties, lit "new-token");
                (GetNotionClient, lit "new-token")] in
  ∃ (j : nat) user, (j ≤ 2)%nat ∧ calls !! j = Some (user, lit "old-token") ∧
    (user = FetchNotionState ∨ j = 0%nat) ∧
    ∀ (m : nat) token, (j < m ≤ 2)%nat → calls !! m ≠ Some (FetchNotionState, token).
Proof.
  intros calls. apply (client_of_latest_fetch calls 2 (lit "old-token")).
  reflexivity.
Defined.
